(** * crypto-replay: a shallow embedding of the replay chart and its backend

    The development follows the TypeScript sources:
    - [frontend/src/App.tsx]: coordinate mapper, derived series (EMA and
      Monday bands), replay controller, annotation store and drag editing,
      the overlay's hit testing and the canvas click;
    - the Express backend: the incremental candle sync, the candle listing
      and the drawings endpoints;
    - [db/init.sql]: the [candles] and [drawings] tables.

    JavaScript numbers are modelled by exact rationals ([Q]) for prices and
    chart coordinates and by integers ([Z]) for millisecond timestamps that
    come from the [BIGINT] columns; the non-finite numbers only matter at the
    [Number.isFinite] guards and are kept as separate constructors. The EMA
    accumulates arithmetic on prices and rounds what it shows: there the
    operations are those of IEEE 754 binary64, every result being the exact
    one rounded to the nearest double. *)

From Stdlib Require Import ZArith QArith Qround Qabs Qminmax Qpower Lqa Lia.
From Stdlib Require PrimFloat SpecFloat FloatOps.
From stdpp Require Import gmap strings list sorting.

Local Open Scope Z_scope.

(** ** Data model *)

Inductive Interval := I5m | I15m | I1h | I4h | I1D | I1W | I1M.

Definition INTERVAL_MS (i : Interval) : Z :=
  match i with
  | I5m => 5 * 60 * 1000
  | I15m => 15 * 60 * 1000
  | I1h => 60 * 60 * 1000
  | I4h => 4 * 60 * 60 * 1000
  | I1D => 24 * 60 * 60 * 1000
  | I1W => 7 * 24 * 60 * 60 * 1000
  | I1M => 30 * 24 * 60 * 60 * 1000
  end.

Record Candle := mkCandle {
  symbol : string;
  interval : Interval;
  openTime : Z;
  closeTime : Z;
  open : Q;
  high : Q;
  low : Q;
  close : Q;
  volume : Q
}.

(** A JavaScript number as seen by [Number.isFinite]. *)
Inductive number := Fin (q : Q) | NaN | PosInf | NegInf.

Definition isFinite (n : number) : bool :=
  match n with Fin _ => true | _ => false end.

Definition Qltb (a b : Q) : bool := negb (Qle_bool b a).

(** [Math.round]: nearest integer, halves towards plus infinity. *)
Definition Math_round (x : Q) : Z := Qfloor (x + (1 # 2)).

(** [arr.slice(0, e)] for an integer [e]: a negative end counts from the
    back, and the end is clamped to the array. *)
Definition slice0 {A} (l : list A) (e : Z) : list A :=
  let len := Z.of_nat (length l) in
  let k := if e <? 0 then Z.max (len + e) 0 else Z.min e len in
  take (Z.to_nat k) l.

(** ** Coordinate mapper *)

Fixpoint nearest_loop (cs : list Candle) (target : Q) (i best : Z) (bestDiff : Q) : Z :=
  match cs with
  | [] => best
  | c :: cs' =>
      let diff := Qabs (inject_Z (openTime c) - target) in
      if Qltb diff bestDiff
      then nearest_loop cs' target (i + 1) i diff
      else nearest_loop cs' target (i + 1) best bestDiff
  end.

Definition nearestCandleIndex (candles : list Candle) (targetTimeMs : Q) : Z :=
  match candles with
  | [] => -1
  | c0 :: rest =>
      nearest_loop rest targetTimeMs 1 0 (Qabs (inject_Z (openTime c0) - targetTimeMs))
  end.

Section Mapper.
(** The component state the two mappings close over. *)
Variable candles : list Candle.
Variable currentReplayIndex : option Z.
Variable chartInterval : Interval.

Definition displayedCandles : list Candle :=
  match currentReplayIndex with
  | None => candles
  | Some idx => slice0 candles (idx + 1)
  end.

Definition logicalToTimeMs (logical : number) : option Z :=
  match logical with
  | Fin l =>
      let rounded := Math_round l in
      let stepMs := INTERVAL_MS chartInterval in
      let len := Z.of_nat (length candles) in
      if (0 <? len) && (0 <=? rounded) && (rounded <? len)
      then openTime <$> candles !! Z.to_nat rounded
      else
        match displayedCandles with
        | [] => None
        | d0 :: _ =>
            let first := openTime d0 in
            let lastDisplayed := openTime (List.last displayedCandles d0) in
            if rounded <? 0
            then Some (first + rounded * stepMs)
            else
              let lastVisibleIndex := Z.of_nat (length displayedCandles) - 1 in
              Some (lastDisplayed + (rounded - lastVisibleIndex) * stepMs)
        end
  | _ => None
  end.

Definition timeMsToLogical (timeMs : number) : option Q :=
  match candles, timeMs with
  | [], _ => None
  | c0 :: _, Fin t =>
      let stepMs := inject_Z (INTERVAL_MS chartInterval) in
      let firstTime := inject_Z (openTime c0) in
      let lastTime := inject_Z (openTime (List.last candles c0)) in
      if Qle_bool t firstTime
      then Some ((t - firstTime) / stepMs)%Q
      else if Qle_bool lastTime t
      then Some (inject_Z (Z.of_nat (length candles) - 1) + (t - lastTime) / stepMs)%Q
      else
        let idx := nearestCandleIndex candles t in
        if 0 <=? idx then Some (inject_Z idx) else None
  | _ :: _, _ => None
  end.

(** The round trip of the two mappings, as a caller composes them. *)
Definition roundTrip (timeMs : number) : option Z :=
  timeMsToLogical timeMs ≫= (λ l, logicalToTimeMs (Fin l)).
End Mapper.

(** ** IEEE 754 binary64 arithmetic

    A finite double is kept as the rational it denotes; the sign of a zero is
    not kept (nothing below divides by a computed result or asks for its
    sign). *)

Definition pow2 (k : Z) : Q := (2 ^ k)%Q.

(** For a positive rational, the exponent [k] with [2^k <= x < 2^(k+1)]. *)
Definition floorLog2 (x : Q) : Z :=
  let k := Z.log2 (Qnum x) - Z.log2 (Zpos (Qden x)) in
  if Qle_bool (pow2 k) x then k else k - 1.

(** The nearest integer, the even one of two equally near. *)
Definition roundHalfEven (x : Q) : Z :=
  let f := Qfloor x in
  match (x - inject_Z f ?= 1 # 2)%Q with
  | Lt => f
  | Gt => f + 1
  | Eq => if Z.even f then f else f + 1
  end.

(** Rounding to binary64, to nearest and ties to even: 53 significant bits,
    the unit in the last place no smaller than 2^-1074 (subnormal numbers),
    and infinity once the rounded magnitude reaches 2^1024. *)
Definition round64 (x : Q) : number :=
  let x := Qred x in
  if Qeq_bool x 0 then Fin 0
  else
    let e := Z.max (-1074) (floorLog2 (Qabs x) - 52) in
    let m := roundHalfEven (Qabs x / pow2 e) in
    let r := Qred (inject_Z (Z.sgn (Qnum x) * m) * pow2 e) in
    if Qle_bool (pow2 1024) (Qabs r)
    then (if 0 <? Qnum x then PosInf else NegInf)
    else Fin r.

(** The number a decimal of a JSON response denotes: the nearest double. *)
Definition jsNumber (q : Q) : number := round64 q.

Definition fneg (a : number) : number :=
  match a with
  | Fin x => Fin (- x)
  | NaN => NaN
  | PosInf => NegInf
  | NegInf => PosInf
  end.

(** [a + b] *)
Definition fadd (a b : number) : number :=
  match a, b with
  | NaN, _ | _, NaN => NaN
  | PosInf, NegInf | NegInf, PosInf => NaN
  | PosInf, _ | _, PosInf => PosInf
  | NegInf, _ | _, NegInf => NegInf
  | Fin x, Fin y => round64 (x + y)
  end.

(** [a - b] *)
Definition fsub (a b : number) : number := fadd a (fneg b).

(** An infinity times a finite number: not a number for zero, else the
    infinity with the sign of the product. *)
Definition infTimes (positive : bool) (x : Q) : number :=
  if Qeq_bool x 0 then NaN
  else if Bool.eqb positive (Qltb 0 x) then PosInf else NegInf.

(** [a * b] *)
Definition fmul (a b : number) : number :=
  match a, b with
  | NaN, _ | _, NaN => NaN
  | Fin x, Fin y => round64 (x * y)
  | PosInf, Fin x | Fin x, PosInf => infTimes true x
  | NegInf, Fin x | Fin x, NegInf => infTimes false x
  | PosInf, PosInf | NegInf, NegInf => PosInf
  | PosInf, NegInf | NegInf, PosInf => NegInf
  end.

(** ** Derived series: EMA *)

Record LineData := mkLineData { ld_time : Z; value : number }.

(** [Math.floor(ms / 1000)] *)
Definition toUtcTimestamp (ms : Z) : Z := ms / 1000.

(** The decimal that [x.toFixed(4)] writes for a finite [x] below 10^21: the
    nearest multiple of 1/10000 of the exact value of [x]; [toFixed] rounds
    the magnitude, taking the larger candidate when two are equally near, and
    puts the sign back. *)
Definition roundMagnitude4 (x : Q) : Q := Qfloor (x * 10000 + (1 # 2)) # 10000.

Definition toFixed4 (x : Q) : Q :=
  if Qltb x 0 then (- roundMagnitude4 (- x))%Q else roundMagnitude4 x.

(** [Number(x.toFixed(4))]: the decimal is read back as a double; from 10^21
    on, and for the non-finite numbers, [toFixed] writes the number itself. *)
Definition toFixed4N (x : number) : number :=
  match x with
  | Fin q => if Qle_bool (10 ^ 21) (Qabs q) then x else round64 (toFixed4 q)
  | _ => x
  end.

(** [2 / (period + 1)] for a period above zero: the divisor is not zero. *)
Definition emaMultiplier (period : Z) : number :=
  match fadd (round64 (inject_Z period)) (Fin 1) with
  | Fin d => round64 (2 / d)
  | _ => Fin 0
  end.

Fixpoint ema_loop (multiplier ema : number) (cs : list Candle) : list LineData :=
  match cs with
  | [] => []
  | candle :: rest =>
      let ema' := fadd (fmul (fsub (jsNumber (close candle)) ema) multiplier) ema in
      {| ld_time := toUtcTimestamp (openTime candle); value := toFixed4N ema' |}
        :: ema_loop multiplier ema' rest
  end.

(** The periods reaching [computeEma] went through [parsePeriods], which
    floors them: they are integers. *)
Definition computeEma (candles : list Candle) (period : Z) : list LineData :=
  match candles with
  | [] => []
  | c0 :: _ =>
      if period <=? 0 then []
      else ema_loop (emaMultiplier period) (jsNumber (close c0)) candles
  end.

(** ** Derived series: Monday bands *)

Record MondayRange := mkMondayRange {
  weekStartMs : Z;
  weekEndMs : Z;
  mondayHigh : Q;
  mondayLow : Q
}.

Definition msPerDay : Z := 24 * 60 * 60 * 1000.
Definition oneWeekMs : Z := 7 * 24 * 60 * 60 * 1000.

(** [new Date(t).getUTCDay()]: 0 is Sunday; 1 January 1970 was a Thursday. *)
Definition getUTCDay (t : Z) : Z := (t / msPerDay + 4) mod 7.

Definition startOfUtcMonday (timeMs : Z) : Z :=
  let day := getUTCDay timeMs in
  let diffToMonday := (day + 6) mod 7 in
  (* setUTCHours(0, 0, 0, 0) *)
  let midnight := timeMs / msPerDay * msPerDay in
  (* setUTCDate(getUTCDate() - diffToMonday) *)
  midnight - diffToMonday * msPerDay.

(** The [Map<number, Candle[]>] keeps its keys in insertion order. *)
Fixpoint bucket_push (grouped : list (Z * list Candle)) (weekStart : Z) (c : Candle)
  : list (Z * list Candle) :=
  match grouped with
  | [] => [(weekStart, [c])]
  | (k, bucket) :: rest =>
      if k =? weekStart then (k, bucket ++ [c]) :: rest
      else (k, bucket) :: bucket_push rest weekStart c
  end.

Definition groupByWeek (cs : list Candle) : list (Z * list Candle) :=
  fold_left (λ grouped c, bucket_push grouped (startOfUtcMonday (openTime c)) c) cs [].

Definition isMonday (c : Candle) : Prop := getUTCDay (openTime c) = 1.

Definition highLowStep (hl : Q * Q) (c : Candle) : Q * Q :=
  (if Qltb (fst hl) (high c) then high c else fst hl,
   if Qltb (low c) (snd hl) then low c else snd hl).

Definition weekBand (stepMs : Z) (entry : Z * list Candle) : option MondayRange :=
  let mondayCandles := filter isMonday (snd entry) in
  match mondayCandles with
  | [] => None
  | m0 :: _ =>
      let hl := fold_left highLowStep mondayCandles (high m0, low m0) in
      Some {| weekStartMs := fst entry;
              weekEndMs := fst entry + oneWeekMs - stepMs;
              mondayHigh := fst hl;
              mondayLow := snd hl |}
  end.

(** The order that the comparator [a.weekStartMs - b.weekStartMs] sorts by. *)
Definition byWeekStart (a b : MondayRange) : Prop := weekStartMs a ≤ weekStartMs b.

#[global] Instance byWeekStart_dec a b : Decision (byWeekStart a b) :=
  Z_le_dec (weekStartMs a) (weekStartMs b).

Definition mondayRanges (displayed : list Candle) (iv : Interval) : list MondayRange :=
  match displayed with
  | [] => []
  | _ :: _ =>
      let ranges := omap (weekBand (INTERVAL_MS iv)) (groupByWeek displayed) in
      merge_sort byWeekStart ranges
  end.

(** ** Replay controller *)

Record ReplayState := mkReplay {
  replayStartIndex : option Z;
  currentReplayIndex : option Z;
  replayRunning : bool;
  speed : Z;
  autoFollow : bool
}.

Definition SPEEDS : list Z := [1; 2; 5; 10].

(** [Math.max(80, Math.floor(1000 / speed))] *)
Definition timerDelay (speed : Z) : Z := Z.max 80 (1000 / speed).

Inductive ReplayEvent :=
  | ClickReplayStart (timeMs : Q)
  | StartReplay
  | PauseReplay
  | ToggleReplay
  | ResetReplay
  | TimerTick
  | SetSpeed (s : Z)
  | ToggleAutoFollow.

Section Replay.
Variable candles : list Candle.

Definition initialReplay : ReplayState :=
  {| replayStartIndex := None; currentReplayIndex := None;
     replayRunning := false; speed := 2; autoFollow := true |}.

(** The [replay-start] branch of [onCanvasClick]. *)
Definition onReplayStartClick (timeMs : Q) (st : ReplayState) : ReplayState :=
  let idx := nearestCandleIndex candles timeMs in
  if 0 <=? idx
  then {| replayStartIndex := Some idx; currentReplayIndex := None;
          replayRunning := false; speed := speed st; autoFollow := autoFollow st |}
  else st.

Definition onStartReplay (st : ReplayState) : ReplayState :=
  match replayStartIndex st with
  | None => st
  | Some start =>
      {| replayStartIndex := Some start;
         currentReplayIndex :=
           match currentReplayIndex st with
           | None => Some start
           | Some cur => Some cur
           end;
         replayRunning := true; speed := speed st; autoFollow := autoFollow st |}
  end.

Definition onPauseReplay (st : ReplayState) : ReplayState :=
  {| replayStartIndex := replayStartIndex st;
     currentReplayIndex := currentReplayIndex st;
     replayRunning := false; speed := speed st; autoFollow := autoFollow st |}.

Definition onToggleReplay (st : ReplayState) : ReplayState :=
  match replayStartIndex st with
  | None => st
  | Some _ => if replayRunning st then onPauseReplay st else onStartReplay st
  end.

Definition onResetReplay (st : ReplayState) : ReplayState :=
  {| replayStartIndex := None; currentReplayIndex := None;
     replayRunning := false; speed := speed st; autoFollow := autoFollow st |}.

(** The state updater run by the interval timer. *)
Definition tickUpdate (st : ReplayState) : ReplayState :=
  match currentReplayIndex st with
  | None => st
  | Some prev =>
      if Z.of_nat (length candles) - 1 <=? prev
      then {| replayStartIndex := replayStartIndex st;
              currentReplayIndex := Some prev;
              replayRunning := false; speed := speed st; autoFollow := autoFollow st |}
      else {| replayStartIndex := replayStartIndex st;
              currentReplayIndex := Some (prev + 1);
              replayRunning := replayRunning st; speed := speed st;
              autoFollow := autoFollow st |}
  end.

(** The timer only exists while replay is running with an index set. *)
Definition timerArmed (st : ReplayState) : bool :=
  replayRunning st && bool_decide (is_Some (currentReplayIndex st)).


Definition replayStep (st : ReplayState) (ev : ReplayEvent) : ReplayState :=
  match ev with
  | ClickReplayStart t => onReplayStartClick t st
  | StartReplay => onStartReplay st
  | PauseReplay => onPauseReplay st
  | ToggleReplay => onToggleReplay st
  | ResetReplay => onResetReplay st
  | TimerTick => if timerArmed st then tickUpdate st else st
  | SetSpeed s =>
      (* the select only offers the entries of SPEEDS *)
      if bool_decide (s ∈ SPEEDS)
      then {| replayStartIndex := replayStartIndex st;
              currentReplayIndex := currentReplayIndex st;
              replayRunning := replayRunning st; speed := s;
              autoFollow := autoFollow st |}
      else st
  | ToggleAutoFollow =>
      {| replayStartIndex := replayStartIndex st;
         currentReplayIndex := currentReplayIndex st;
         replayRunning := replayRunning st; speed := speed st;
         autoFollow := negb (autoFollow st) |}
  end.

End Replay.

(** The candles are state of the component as well. The load effect, run on
    mount and on every change of the interval, replaces them and resets the
    replay; [onSync] replaces them and leaves the replay as it is. A request
    that fails sets nothing. *)
Record AppState := mkApp { app_candles : list Candle; app_replay : ReplayState }.

Inductive AppEvent :=
  | Control (ev : ReplayEvent)
  | LoadDone (fetched : list Candle)
  | SyncDone (fetched : list Candle).

Definition onLoad (fetched : list Candle) (st : AppState) : AppState :=
  {| app_candles := fetched;
     app_replay :=
       {| replayStartIndex := None; currentReplayIndex := None; replayRunning := false;
          speed := speed (app_replay st); autoFollow := autoFollow (app_replay st) |} |}.

Definition onSync (fetched : list Candle) (st : AppState) : AppState :=
  {| app_candles := fetched; app_replay := app_replay st |}.

Definition appStep (st : AppState) (ev : AppEvent) : AppState :=
  match ev with
  | Control ev =>
      {| app_candles := app_candles st;
         app_replay := replayStep (app_candles st) (app_replay st) ev |}
  | LoadDone fetched => onLoad fetched st
  | SyncDone fetched => onSync fetched st
  end.

(** The component mounts with no candles and the replay switched off. *)
Definition initialApp : AppState :=
  {| app_candles := []; app_replay := initialReplay |}.

Definition replayRun (evs : list AppEvent) : AppState :=
  fold_left appStep evs initialApp.

(** ** Annotations *)

Inductive DrawingType := hline | rect | fibo | pricerange | longpos | shortpos.

#[global] Instance DrawingType_eq_dec : EqDecision DrawingType.
Proof. solve_decision. Defined.

Record DrawingPoint := mkPoint { time : Q; price : Q }.

(** The values a style bag holds: colours and tags, widths, level lists. *)
Inductive StyleValue := SString (s : string) | SNumber (q : Q) | SLevels (l : list Q).

Abbreviation Style := (gmap string StyleValue).

Record Drawing := mkDrawing {
  drawing_id : Z;
  drawing_symbol : string;
  type : DrawingType;
  points : list DrawingPoint;
  style : Style;
  created_at : Z;
  updated_at : Z
}.

Definition withStyle (d : Drawing) (s : Style) : Drawing :=
  {| drawing_id := drawing_id d; drawing_symbol := drawing_symbol d; type := type d;
     points := points d; style := s;
     created_at := created_at d; updated_at := updated_at d |}.

Definition withPoints (d : Drawing) (ps : list DrawingPoint) : Drawing :=
  {| drawing_id := drawing_id d; drawing_symbol := drawing_symbol d; type := type d;
     points := ps; style := style d;
     created_at := created_at d; updated_at := updated_at d |}.

Inductive PositionHandle := tp | sl | handle_time.

(** *** The client-side store *)

Definition SYMBOL : string := "BTCUSDT".

Record StoreState := mkStore {
  drawings : list Drawing;
  selectedDrawingId : option Z
}.

(** What an awaited request gives back: the response, or a thrown error. *)
Inductive ApiResult (A : Type) := ApiOk (a : A) | ApiError.
Arguments ApiOk {A} a.
Arguments ApiError {A}.

(** An async handler either runs to its end or rejects; both carry the
    store as the handler left it. *)
Inductive Outcome := Completed (st : StoreState) | Rejected (st : StoreState).

Definition storeOf (o : Outcome) : StoreState :=
  match o with Completed st | Rejected st => st end.

Record DrawingBody := mkBody {
  body_symbol : string;
  body_type : DrawingType;
  body_points : list DrawingPoint;
  body_style : Style
}.

Definition isPosition (t : DrawingType) : bool :=
  match t with longpos | shortpos => true | _ => false end.

(** The style defaults [saveDrawing] assigns per type. *)
Definition defaultStyle (t : DrawingType) : Style :=
  let base : Style :=
    <["color" := SString "#60a5fa"]>
      (<["lineWidth" := SNumber 2]> (<["lineStyle" := SString "solid"]> ∅)) in
  match t with
  | hline => base
  | rect => <["fillColor" := SString "rgba(96, 165, 250, 0.2)"]> base
  | fibo => <["levels" := SLevels [0; 1 # 4; 1 # 2; 3 # 4; 1]%Q]> base
  | pricerange => <["mode" := SString "tv"]> base
  | longpos | shortpos => <["mode" := SString "position"]> base
  end.

(** [drawings.find((d) => d.id === selectedDrawingId) ?? null], which the
    ref [selectedDrawingRef] mirrors. *)
Definition selectedDrawing (st : StoreState) : option Drawing :=
  match selectedDrawingId st with
  | None => None
  | Some sel => List.find (λ d, drawing_id d =? sel) (drawings st)
  end.

Section Store.
(** The HTTP collaborator as the client sees it. *)
Variable api_post : DrawingBody → ApiResult Drawing.
Variable api_put_style : Z → Style → ApiResult unit.
Variable api_put_points : Z → list DrawingPoint → ApiResult unit.
Variable api_delete : Z → ApiResult unit.
Variable chartInterval : Interval.

Definition saveDrawing (t : DrawingType) (pts : list DrawingPoint) (st : StoreState)
  : Outcome :=
  match api_post {| body_symbol := SYMBOL; body_type := t;
                    body_points := pts; body_style := defaultStyle t |} with
  | ApiError => Rejected st
  | ApiOk res =>
      Completed {| drawings := drawings st ++ [res];
                   selectedDrawingId := Some (drawing_id res) |}
  end.

Definition updateSelectedDrawingStyle (patch : Style) (st : StoreState) : Outcome :=
  match selectedDrawing st with
  | None => Completed st
  | Some selected =>
      (* { ...selected.style, ...patch }: the patch wins *)
      let nextStyle := patch ∪ style selected in
      let st' :=
        {| drawings :=
             map (λ d, if drawing_id d =? drawing_id selected
                       then withStyle d nextStyle else d) (drawings st);
           selectedDrawingId := selectedDrawingId st |} in
      match api_put_style (drawing_id selected) nextStyle with
      | ApiOk _ => Completed st'
      | ApiError => Rejected st'
      end
  end.

Definition onDeleteDrawing (id : Z) (st : StoreState) : Outcome :=
  match api_delete id with
  | ApiError => Rejected st
  | ApiOk _ =>
      Completed
        {| drawings := filter (λ d, drawing_id d ≠ id) (drawings st);
           selectedDrawingId :=
             match selectedDrawingId st with
             | Some prev => if prev =? id then None else Some prev
             | None => None
             end |}
  end.

(** The points of a selected position after a drag to [dragPoint]; none
    when the handler returns early on fewer than four points. *)
Definition dragPoints (h : PositionHandle) (dragPoint : DrawingPoint)
    (selectedPoints : list DrawingPoint) : option (list DrawingPoint) :=
  match selectedPoints with
  | p0 :: p1 :: p2 :: p3 :: rest =>
      Some
        match h with
        | tp => p0 :: p1 :: {| time := time p2; price := price dragPoint |} :: p3 :: rest
        | sl => p0 :: {| time := time p1; price := price dragPoint |} :: p2 :: p3 :: rest
        | handle_time =>
            let minTime := (time p0 + inject_Z (INTERVAL_MS chartInterval))%Q in
            p0 :: p1 :: p2
               :: {| time := Qmax minTime (time dragPoint); price := price p3 |} :: rest
        end
  | _ => None
  end.

(** The drag branch of [onCanvasMove]: [draggingHandle] is set, and
    [dragPoint] is what [getPointFromEvent] resolved (possibly nothing). *)
Definition onCanvasMove (draggingHandle : PositionHandle)
    (dragPoint : option DrawingPoint) (st : StoreState) : StoreState :=
  match selectedDrawing st with
  | Some selected =>
      if isPosition (type selected) then
        match dragPoint with
        | None => st
        | Some dp =>
            match dragPoints draggingHandle dp (points selected) with
            | None => st
            | Some nextPoints =>
                {| drawings :=
                     map (λ d, if drawing_id d =? drawing_id selected
                               then withPoints d nextPoints else d) (drawings st);
                   selectedDrawingId := selectedDrawingId st |}
            end
        end
      else st
  | None => st
  end.

(** [onCanvasMouseUp] while a handle is being dragged: it persists the
    points the drag left in the store. *)
Definition onCanvasMouseUp (st : StoreState) : Outcome :=
  match selectedDrawing st with
  | None => Completed st
  | Some selected =>
      match api_put_points (drawing_id selected) (points selected) with
      | ApiOk _ => Completed st
      | ApiError => Rejected st
      end
  end.

(** The four mutations of the annotation store. *)
Inductive Mutation :=
  | Create (t : DrawingType) (pts : list DrawingPoint)
  | PatchStyle (patch : Style)
  | PatchPoints (h : PositionHandle) (dragPoint : DrawingPoint)
  | Delete (id : Z).

Definition mutate (m : Mutation) (st : StoreState) : Outcome :=
  match m with
  | Create t pts => saveDrawing t pts st
  | PatchStyle patch => updateSelectedDrawingStyle patch st
  | PatchPoints h dp => onCanvasMouseUp (onCanvasMove h (Some dp) st)
  | Delete id => onDeleteDrawing id st
  end.
End Store.

(** ** Backend: the candles table and the sync endpoint *)

#[global] Instance Interval_eq_dec : EqDecision Interval.
Proof. solve_decision. Defined.

(** PRIMARY KEY (symbol, interval, open_time) *)
Definition candleKey (c : Candle) : string * Interval * Z :=
  (symbol c, interval c, openTime c).

(** The table is the list of its rows, in insertion order. *)
Abbreviation CandleTable := (list Candle).

(** INSERT ... ON CONFLICT (symbol, interval, open_time) DO NOTHING *)
Definition insertIgnore (tbl : CandleTable) (c : Candle) : CandleTable :=
  if bool_decide (candleKey c ∈ map candleKey tbl) then tbl else tbl ++ [c].

(** SELECT MAX(open_time) ... WHERE symbol = $1 AND interval = $2; NULL on
    no rows. *)
Definition maxOpenTimeOf (tbl : CandleTable) (sym : string) (iv : Interval) : option Z :=
  match filter (λ c, symbol c = sym ∧ interval c = iv) tbl with
  | [] => None
  | c0 :: rest => Some (fold_left (λ m c, Z.max m (openTime c)) rest (openTime c0))
  end.

(** One row of the upstream klines response. *)
Record Kline := mkKline {
  k_openTime : Z;
  k_open : Q;
  k_high : Q;
  k_low : Q;
  k_close : Q;
  k_volume : Q;
  k_closeTime : Z
}.

Definition twoYearsMs : Z := 2 * 365 * 24 * 60 * 60 * 1000.
Definition pageLimit : Z := 1000.

Definition initialCursor (now stepMs maxOpenTime : Z) : Z :=
  let twoYearsAgo := now - twoYearsMs in
  if 0 <? maxOpenTime then Z.max twoYearsAgo (maxOpenTime - stepMs) else twoYearsAgo.

(** What one turn of the fetch loop does after its guard [cursor < now]:
    it ends the loop, goes on with a new cursor, or throws on a transport
    error. *)
Inductive LoopStep :=
  | Break (cursor inserted : Z) (tbl : CandleTable)
  | Next (cursor inserted : Z) (tbl : CandleTable)
  | Throw (tbl : CandleTable).

Inductive SyncResult :=
  | SyncOk (inserted : Z) (tbl : CandleTable)
  | SyncFailed (tbl : CandleTable).

Definition tableOf (r : SyncResult) : CandleTable :=
  match r with SyncOk _ tbl | SyncFailed tbl => tbl end.

Section Sync.
(** The upstream market-data endpoint: symbol, interval, startTime,
    endTime and limit to the rows of the page, or nothing on a transport
    error. *)
Variable klines : string → Interval → Z → Z → Z → option (list Kline).

Definition fetchKlines (sym : string) (iv : Interval) (startTime endTime limit : Z)
  : option (list Candle) :=
  map (λ row, {| symbol := sym; interval := iv;
                 openTime := k_openTime row;
                 open := k_open row; high := k_high row; low := k_low row;
                 close := k_close row; volume := k_volume row;
                 closeTime := k_closeTime row |})
    <$> klines sym iv startTime endTime limit.

Section Run.
Variables (now : Z) (sym : string) (iv : Interval).

(** The rows of a page are upserted in one transaction; a row whose key is
    stored is skipped, and the database itself does not fail here. *)
Definition syncPage (cursor inserted : Z) (tbl : CandleTable) : LoopStep :=
  match fetchKlines sym iv cursor now pageLimit with
  | None => Throw tbl
  | Some batch =>
      match last batch with
      | None => Break cursor inserted tbl
      | Some lastFetched =>
          let tbl' := fold_left insertIgnore batch tbl in
          let inserted' := inserted + Z.of_nat (length batch) in
          let cursor' := openTime lastFetched + INTERVAL_MS iv in
          if Z.of_nat (length batch) <? pageLimit
          then Break cursor' inserted' tbl'
          else Next cursor' inserted' tbl'
      end
  end.

(** [while (cursor < now) { ... }]; the fuel bounds the number of pages,
    and running out of it answers nothing. *)
Fixpoint syncLoop (fuel : nat) (cursor inserted : Z) (tbl : CandleTable)
  : option SyncResult :=
  if cursor <? now then
    match fuel with
    | O => None
    | S fuel' =>
        match syncPage cursor inserted tbl with
        | Break _ inserted' tbl' => Some (SyncOk inserted' tbl')
        | Next cursor' inserted' tbl' => syncLoop fuel' cursor' inserted' tbl'
        | Throw tbl' => Some (SyncFailed tbl')
        end
    end
  else Some (SyncOk inserted tbl).

Definition syncCursor (tbl : CandleTable) : Z :=
  initialCursor now (INTERVAL_MS iv) (default 0 (maxOpenTimeOf tbl sym iv)).

(** POST /api/sync, after its body has been validated. *)
Definition sync (fuel : nat) (tbl : CandleTable) : option SyncResult :=
  syncLoop fuel (syncCursor tbl) 0 tbl.
End Run.
End Sync.

(** ** Backend: the drawings table and the update endpoint *)

(** A body accepted by [drawingsSchema.partial()] up to the length of
    [points]: every field is optional. *)
Record DrawingPatch := mkPatch {
  patch_symbol : option string;
  patch_type : option DrawingType;
  patch_points : option (list DrawingPoint);
  patch_style : option Style
}.

Inductive Response := Status400 | Status404 | Status200 (row : Drawing).

(** [points] must have at least one entry when present. *)
Definition patchValid (fields : DrawingPatch) : bool :=
  match patch_points fields with
  | Some [] => false
  | _ => true
  end.

(** A string is truthy when it is not empty. *)
Definition truthy (s : option string) : option string :=
  match s with
  | Some EmptyString => None
  | other => other
  end.

(** The SET clause built from the fields, applied to one row;
    [updated_at = NOW()] always. *)
Definition applySets (nowTs : Z) (fields : DrawingPatch) (d : Drawing) : Drawing :=
  {| drawing_id := drawing_id d;
     drawing_symbol := default (drawing_symbol d) (truthy (patch_symbol fields));
     type := default (type d) (patch_type fields);
     points := default (points d) (patch_points fields);
     style := default (style d) (patch_style fields);
     created_at := created_at d;
     updated_at := nowTs |}.

Definition noSets (fields : DrawingPatch) : bool :=
  match patch_type fields, patch_points fields, patch_style fields,
        truthy (patch_symbol fields) with
  | None, None, None, None => true
  | _, _, _, _ => false
  end.

(** PUT /api/drawings/:id with a finite id. *)
Definition putDrawing (nowTs id : Z) (fields : DrawingPatch) (tbl : list Drawing)
  : Response * list Drawing :=
  if negb (patchValid fields) then (Status400, tbl)
  else if noSets fields then (Status400, tbl)
  else
    let tbl' := map (λ d, if drawing_id d =? id then applySets nowTs fields d else d) tbl in
    match List.find (λ d, drawing_id d =? id) tbl' with
    | None => (Status404, tbl)
    | Some row => (Status200 row, tbl')
    end.

(** ** Vocabulary of the statements *)

(** A mapped time that exists and lies within one interval step of [t]. *)
Definition withinStep (iv : Interval) (r : option Z) (t : Q) : Prop :=
  ∃ ms, r = Some ms ∧ (Qabs (inject_Z ms - t) <= inject_Z (INTERVAL_MS iv))%Q.

(** The last displayed candle sits one step per hidden candle before the
    last loaded one; this is so in particular when nothing is hidden. *)
Definition alignedDisplay (cs : list Candle) (cur : option Z) (iv : Interval) : Prop :=
  match last (displayedCandles cs cur), last cs with
  | Some d, Some cl =>
      openTime d
      + (Z.of_nat (length cs) - Z.of_nat (length (displayedCandles cs cur))) * INTERVAL_MS iv
      = openTime cl
  | _, _ => False
  end.

(** The same up to half a step: the last displayed candle, moved on by one
    step per hidden candle, lands within half a step of the last loaded one. *)
Definition nearlyAligned (cs : list Candle) (cur : option Z) (iv : Interval) : Prop :=
  match last (displayedCandles cs cur), last cs with
  | Some d, Some cl =>
      2 * Z.abs (openTime d
                 + (Z.of_nat (length cs) - Z.of_nat (length (displayedCandles cs cur)))
                   * INTERVAL_MS iv
                 - openTime cl)
      ≤ INTERVAL_MS iv
  | _, _ => False
  end.

(** A five-minute bar opening at [t], for the worked examples. *)
Definition bar (t : Z) (h l c : Q) : Candle :=
  {| symbol := "BTCUSDT"; interval := I5m; openTime := t; closeTime := t + 299999;
     open := c; high := h; low := l; close := c; volume := 0 |}.


(** A rational that is a finite double: an integer of fewer than 54 bits
    times a power of two within the exponent range. *)
Definition isDouble (q : Q) : Prop :=
  ∃ m e : Z, (q == inject_Z m * pow2 e)%Q ∧ Z.abs m < 2 ^ 53 ∧ -1074 ≤ e ≤ 971.




(** A binary64 number of the proof assistant's kernel, read as a [number]. *)
Definition ofFloat (f : PrimFloat.float) : number :=
  match FloatOps.Prim2SF f with
  | SpecFloat.S754_zero _ => Fin 0
  | SpecFloat.S754_infinity negative => if negative then NegInf else PosInf
  | SpecFloat.S754_nan => NaN
  | SpecFloat.S754_finite negative m e =>
      Fin (Qred (inject_Z (if negative then Z.neg m else Z.pos m) * pow2 e))
  end.


(** The week a candle is bucketed under. *)
Definition weekOf (c : Candle) : Z := startOfUtcMonday (openTime c).

(** The bucket stored under a key, empty when the key is absent. *)
Fixpoint bucketOf (grouped : list (Z * list Candle)) (k : Z) : list Candle :=
  match grouped with
  | [] => []
  | (k', b) :: rest => if k' =? k then b else bucketOf rest k
  end.

(** The Monday candles of the week starting at [weekStart]. *)
Definition mondaysOf (displayed : list Candle) (weekStart : Z) : list Candle :=
  filter isMonday (filter (λ c, weekOf c = weekStart) displayed).

(** What a band says about the Monday candles [ms] of its week: its high is
    the largest high, its low the smallest low, and it ends one step before
    the next week. *)
Definition bandOver (stepMs : Z) (r : MondayRange) (ms : list Candle) : Prop :=
  (∃ c, c ∈ ms ∧ mondayHigh r = high c) ∧ (∀ c, c ∈ ms → (high c <= mondayHigh r)%Q) ∧
  (∃ c, c ∈ ms ∧ mondayLow r = low c) ∧ (∀ c, c ∈ ms → (mondayLow r <= low c)%Q) ∧
  weekEndMs r = weekStartMs r + oneWeekMs - stepMs.

(** The index of the last loaded candle. *)
Definition lastIndex (candles : list Candle) : Z := Z.of_nat (length candles) - 1.

(** What the replay controller keeps true of its speed and indices while
    the candles stay as they are. *)
Definition replayInv (candles : list Candle) (st : ReplayState) : Prop :=
  speed st ∈ SPEEDS ∧
  (∀ j, replayStartIndex st = Some j → 0 ≤ j ≤ lastIndex candles) ∧
  (∀ i, currentReplayIndex st = Some i → 0 ≤ i ≤ lastIndex candles).

(** A sync that hands back enough candles for the replay indices of the
    moment: neither the start nor the current index is past the last of
    them. *)
Definition keepsIndices (st : AppState) (ev : AppEvent) : Prop :=
  match ev with
  | SyncDone fetched =>
      (∀ j, replayStartIndex (app_replay st) = Some j → j ≤ lastIndex fetched) ∧
      (∀ i, currentReplayIndex (app_replay st) = Some i → i ≤ lastIndex fetched)
  | _ => True
  end.

(** Every sync of the run from state [st] does. *)
Fixpoint syncsKeepIndices (st : AppState) (evs : list AppEvent) : Prop :=
  match evs with
  | [] => True
  | ev :: rest => keepsIndices st ev ∧ syncsKeepIndices (appStep st ev) rest
  end.

(** The three five-minute bars of the worked examples, loaded on mount. *)
Definition threeBars : list Candle := [bar 0 0 0 0; bar 300000 0 0 0; bar 600000 0 0 0].

(** Two point lists that agree everywhere but at index [i]. *)
Definition samePointsExcept (i : nat) (a b : list DrawingPoint) : Prop :=
  length a = length b ∧ ∀ j, j ≠ i → a !! j = b !! j.

(** How the points [next] of a position relate to the points [prev] it had
    before a drag of handle [h] to [dragPoint]. *)
Definition draggedFrom (iv : Interval) (h : PositionHandle) (dragPoint : DrawingPoint)
    (prev next : list DrawingPoint) : Prop :=
  match h with
  | tp =>
      samePointsExcept 2 prev next ∧
      ∃ p2, prev !! 2%nat = Some p2 ∧
            next !! 2%nat = Some {| time := time p2; price := price dragPoint |}
  | sl =>
      samePointsExcept 1 prev next ∧
      ∃ p1, prev !! 1%nat = Some p1 ∧
            next !! 1%nat = Some {| time := time p1; price := price dragPoint |}
  | handle_time =>
      samePointsExcept 3 prev next ∧
      ∃ p0 p3, prev !! 0%nat = Some p0 ∧ prev !! 3%nat = Some p3 ∧
        let minTime := (time p0 + inject_Z (INTERVAL_MS iv))%Q in
        next !! 3%nat = Some {| time := Qmax minTime (time dragPoint); price := price p3 |} ∧
        ∃ n0 n3, next !! 0%nat = Some n0 ∧ next !! 3%nat = Some n3 ∧
                 (time n0 + inject_Z (INTERVAL_MS iv) <= time n3)%Q
  end.

(** A stored long position, for the worked examples. *)
Definition samplePosition : Drawing :=
  {| drawing_id := 7; drawing_symbol := SYMBOL; type := longpos;
     points := [ {| time := 0; price := 100 |}; {| time := 0; price := 99 |};
                 {| time := 0; price := 101 |}; {| time := 12000000; price := 100 |} ];
     style := defaultStyle longpos; created_at := 1; updated_at := 1 |}.

Definition sampleStore : StoreState :=
  {| drawings := [samplePosition]; selectedDrawingId := Some 7 |}.

(** The persistence call of a mutation fails. *)
Definition persistenceFails
    (api_post : DrawingBody → ApiResult Drawing)
    (api_put_style : Z → Style → ApiResult unit)
    (api_put_points : Z → list DrawingPoint → ApiResult unit)
    (api_delete : Z → ApiResult unit) (m : Mutation) : Prop :=
  match m with
  | Create t pts =>
      api_post {| body_symbol := SYMBOL; body_type := t;
                  body_points := pts; body_style := defaultStyle t |} = ApiError
  | PatchStyle _ => ∀ id s, api_put_style id s = ApiError
  | PatchPoints _ _ => ∀ id ps, api_put_points id ps = ApiError
  | Delete id => api_delete id = ApiError
  end.

(** Create and delete await the server before they touch the store. *)
Definition persistsFirst (m : Mutation) : bool :=
  match m with Create _ _ | Delete _ => true | PatchStyle _ | PatchPoints _ _ => false end.

(** The row stored under an id. *)
Definition rowOf (tbl : list Drawing) (id : Z) : option Drawing :=
  List.find (λ d, drawing_id d =? id) tbl.

(** A stored horizontal line, and a patch that names a type and a symbol. *)
Definition sampleLine : Drawing :=
  {| drawing_id := 3; drawing_symbol := SYMBOL; type := hline;
     points := [ {| time := 0; price := 100 |} ];
     style := defaultStyle hline; created_at := 1; updated_at := 1 |}.

Definition retypePatch : DrawingPatch :=
  {| patch_symbol := Some "ETHUSDT"; patch_type := Some rect;
     patch_points := None; patch_style := None |}.

(** The upstream honours [startTime]: no returned row opens before it. *)
Definition honoursStart (klines : string → Interval → Z → Z → Z → option (list Kline)) : Prop :=
  ∀ sym iv startTime endTime limit rows,
    klines sym iv startTime endTime limit = Some rows →
    Forall (λ row, startTime ≤ k_openTime row) rows.





(** An upstream row opening at [t]. *)
Definition kline (t : Z) : Kline :=
  {| k_openTime := t; k_open := 2; k_high := 2; k_low := 1; k_close := 2;
     k_volume := 0; k_closeTime := t + 299999 |}.

(** An upstream holding three five-minute bars and nothing else. *)
Definition sampleRows : list Kline := [kline 1200000; kline 1500000; kline 1800000].

Definition sampleKlines (_ : string) (_ : Interval) (startTime endTime limit : Z)
  : option (list Kline) :=
  Some (take (Z.to_nat limit)
          (filter (λ row, startTime ≤ k_openTime row ∧ k_openTime row ≤ endTime) sampleRows)).

(** The clock of the first run. *)
Definition sampleNow : Z := twoYearsMs + 1000000.



(** The table the first run leaves: the three upstream bars. *)
Definition sampleTable : list Candle :=
  [bar 1200000 2 1 2; bar 1500000 2 1 2; bar 1800000 2 1 2].

(** ** Further code: the overlay, the canvas click and the backend endpoints *)

(** *** Nearest candle, index and time *)

(** The distance of a candle's open time to a time. *)
Definition openDistance (c : Candle) (t : Q) : Q := Qabs (inject_Z (openTime c) - t).

(** Index [i] holds a candle nearest to [t], the first such. *)
Definition firstNearest (cs : list Candle) (t : Q) (i : nat) : Prop :=
  ∃ c, cs !! i = Some c ∧
    (∀ j c', cs !! j = Some c' → (openDistance c t <= openDistance c' t)%Q) ∧
    (∀ j c', (j < i)%nat → cs !! j = Some c' → (openDistance c t < openDistance c' t)%Q).

(** Candles in strictly ascending order of open time, as the backend lists
    them. *)
Definition ascending (cs : list Candle) : Prop :=
  StronglySorted (λ a b, openTime a < openTime b) cs.

(** *** Replay: more of what the controller keeps *)

(** Running needs an index, an index needs a start, and the index never
    falls behind the start. *)
Definition replayOrdered (st : ReplayState) : Prop :=
  (replayRunning st = true → is_Some (currentReplayIndex st)) ∧
  (∀ i, currentReplayIndex st = Some i →
     ∃ j, replayStartIndex st = Some j ∧ j ≤ i).

(** [n] timer ticks in a row. *)
Definition ticks (candles : list Candle) (n : nat) (st : ReplayState) : ReplayState :=
  fold_left (replayStep candles) (replicate n TimerTick) st.

(** *** Overlay: pixels, hit testing and the toolbar *)

(** A chart time: a UTC timestamp in seconds, or a business day, which the
    overlay does not convert. *)
Inductive Time := UtcSeconds (s : Z) | BusinessDay.

(** What the overlay uses of the chart: its time scale and the price scale
    of the candle series. The two refs are set and cleared together. *)
Record ChartApi := mkChart {
  timeToCoordinate : Z → option Q;
  logicalToCoordinate : Q → option Q;
  coordinateToTime : Q → option Time;
  coordinateToLogical : Q → option Q;
  priceToCoordinate : Q → option Q;
  coordinateToPrice : Q → option Q
}.

Definition FIB_LEVELS : list Q := [0; 1 # 4; 1 # 2; 3 # 4; 1]%Q.

(** [toUtcTimestamp] on a time that need not be a whole number. *)
Definition toUtcTimestampOf (ms : Q) : Z := Qfloor (ms / 1000).

Definition timeToMs (time : option Time) : option Z :=
  match time with
  | Some (UtcSeconds s) => Some (s * 1000)
  | _ => None
  end.

(** [lo - tol <= v && v <= hi + tol] *)
Definition padded (v lo hi tol : Q) : bool :=
  Qle_bool (lo - tol) v && Qle_bool v (hi + tol).

Section Overlay.
Variable chart : option ChartApi.
Variable candles : list Candle.
Variable currentReplayIdx : option Z.
Variable chartInterval : Interval.

Definition timeMsToX (timeMs : Q) : option Q :=
  match chart with
  | None => None
  | Some api =>
      match timeToCoordinate api (toUtcTimestampOf timeMs) with
      | Some direct => Some direct
      | None =>
          match timeMsToLogical candles chartInterval (Fin timeMs) with
          | None => None
          | Some logical => logicalToCoordinate api logical
          end
      end
  end.

Definition getPointFromCoordinates (x y : Q) : option DrawingPoint :=
  match chart with
  | None => None
  | Some api =>
      let price := coordinateToPrice api y in
      let ms :=
        match timeToMs (coordinateToTime api x) with
        | Some ms => Some ms
        | None =>
            match coordinateToLogical api x with
            | Some logical => logicalToTimeMs candles currentReplayIdx chartInterval (Fin logical)
            | None => None
            end
        end in
      match price, ms with
      | Some p, Some t => Some {| time := inject_Z t; price := p |}
      | _, _ => None
      end
  end.

(** The levels of a fibonacci drawing: the list under [levels] in its style,
    else the default levels. *)
Definition fiboLevels (d : Drawing) : list Q :=
  match style d !! "levels" with
  | Some (SLevels l) => l
  | _ => FIB_LEVELS
  end.

(** One turn of the loop of [hitTestDrawing]: does the drawing catch the
    pixel. *)
Definition hits (api : ChartApi) (x y : Q) (d : Drawing) : bool :=
  let tol : Q := 7%Q in
  match type d with
  | hline =>
      match priceToCoordinate api (match points d with p0 :: _ => price p0 | [] => 0%Q end) with
      | Some yLine => Qle_bool (Qabs (y - yLine)) tol
      | None => false
      end
  | longpos | shortpos =>
      match points d with
      | p0 :: p1 :: p2 :: p3 :: _ =>
          match timeMsToX (time p0), timeMsToX (time p3),
                priceToCoordinate api (price p2), priceToCoordinate api (price p1),
                priceToCoordinate api (price p0) with
          | Some xStart, Some xEnd, Some yTp, Some ySl, Some yEntry =>
              padded x (Qmin xStart xEnd) (Qmax xStart xEnd) tol
              && padded y (Qmin (Qmin yTp ySl) yEntry) (Qmax (Qmax yTp ySl) yEntry) tol
          | _, _, _, _, _ => false
          end
      | _ => false
      end
  | rect | pricerange | fibo =>
      match points d with
      | p0 :: p1 :: _ =>
          match timeMsToX (time p0), priceToCoordinate api (price p0),
                timeMsToX (time p1), priceToCoordinate api (price p1) with
          | Some x1, Some y1, Some x2, Some y2 =>
              let left := Qmin x1 x2 in
              let right := Qmax x1 x2 in
              match type d with
              | fibo =>
                  existsb
                    (λ level,
                       let levelPrice :=
                         (Qmin (price p0) (price p1) + Qabs (price p0 - price p1) * level)%Q in
                       match priceToCoordinate api levelPrice with
                       | None => false
                       | Some yLevel => padded x left right tol && Qle_bool (Qabs (y - yLevel)) tol
                       end)
                    (fiboLevels d)
              | _ => padded x left right tol && padded y (Qmin y1 y2) (Qmax y1 y2) tol
              end
          | _, _, _, _ => false
          end
      | _ => false
      end
  end.

(** The loop runs from the last drawing to the first. *)
Fixpoint hitLoop (api : ChartApi) (x y : Q) (topFirst : list Drawing) : option Drawing :=
  match topFirst with
  | [] => None
  | d :: below => if hits api x y d then Some d else hitLoop api x y below
  end.

Definition hitTestDrawing (x y : Q) (items : list Drawing) : option Drawing :=
  match chart with
  | None => None
  | Some api => hitLoop api x y (reverse items)
  end.

Definition hitTestPositionHandle (x y : Q) (selected : option Drawing) : option PositionHandle :=
  match selected, chart with
  | Some sel, Some api =>
      if isPosition (type sel) then
        match points sel with
        | p0 :: p1 :: p2 :: p3 :: _ =>
            match timeMsToX (time p3), priceToCoordinate api (price p2),
                  priceToCoordinate api (price p1), priceToCoordinate api (price p0) with
            | Some xEnd, Some yTp, Some ySl, Some yEntry =>
                let tol : Q := 10%Q in
                let nearX := Qle_bool (Qabs (x - xEnd)) tol in
                if nearX && Qle_bool (Qabs (y - yTp)) tol then Some tp
                else if nearX && Qle_bool (Qabs (y - ySl)) tol then Some sl
                else if nearX && Qle_bool (Qabs (y - yEntry)) tol then Some handle_time
                else None
            | _, _, _, _ => None
            end
        | _ => None
        end
      else None
  | _, _ => None
  end.
End Overlay.

(** [clampToolbarPos]: the wrapper's client size, the toolbar's offset size
    when it is mounted, and the wanted position. *)
Definition clampToolbarPos (wrap : option (Q * Q)) (toolbar : option (Q * Q)) (x y : Q)
  : option (Q * Q) :=
  match wrap with
  | None => None
  | Some (wrapW, wrapH) =>
      let pad : Q := 8%Q in
      let toolbarW := match toolbar with Some (w, _) => w | None => 420%Q end in
      let toolbarH := match toolbar with Some (_, h) => h | None => 42%Q end in
      Some (Qmin (Qmax pad x) (Qmax pad (wrapW - toolbarW - pad)),
            Qmin (Qmax pad y) (Qmax pad (wrapH - toolbarH - pad)))
  end.

(** The point of a position that carries a handle. *)
Definition handlePoint (h : PositionHandle) (p0 p1 p2 : DrawingPoint) : DrawingPoint :=
  match h with tp => p2 | sl => p1 | handle_time => p0 end.

(** A chart whose time scale puts second [s] at column [s] and whose price
    scale puts price [p] at row [-p], for the worked examples. *)
Definition sampleChart : ChartApi :=
  {| timeToCoordinate := λ s, Some (inject_Z s);
     logicalToCoordinate := λ _, None;
     coordinateToTime := λ x, Some (UtcSeconds (Qfloor x));
     coordinateToLogical := λ _, None;
     priceToCoordinate := λ p, Some (- p)%Q;
     coordinateToPrice := λ y, Some (- y)%Q |}.

(** *** The canvas click *)

Inductive Tool := ToolNone | ToolDraw (t : DrawingType) | ToolReplayStart.

Record UiState := mkUi {
  store : StoreState;
  tool : Tool;
  pendingPoint : option DrawingPoint;
  hoverPoint : option DrawingPoint;
  replay : ReplayState
}.

Inductive ClickOutcome := ClickDone (st : UiState) | ClickRejected (st : UiState).

Definition uiOf (o : ClickOutcome) : UiState :=
  match o with ClickDone st | ClickRejected st => st end.

Definition withStore (st : UiState) (s : StoreState) : UiState :=
  {| store := s; tool := tool st; pendingPoint := pendingPoint st;
     hoverPoint := hoverPoint st; replay := replay st |}.

(** The four points of a position placed at [point]: entry, stop-loss,
    take-profit and the end of its extent. *)
Definition newPositionPoints (long : bool) (iv : Interval) (point : DrawingPoint)
  : list DrawingPoint :=
  let stepMs := inject_Z (INTERVAL_MS iv) in
  let defaultRisk := (price point * (1 # 100))%Q in
  let endTime := (time point + stepMs * 40)%Q in
  let slPrice := if long then (price point - defaultRisk)%Q else (price point + defaultRisk)%Q in
  let tpPrice := if long then (price point + defaultRisk)%Q else (price point - defaultRisk)%Q in
  [ {| time := time point; price := price point |};
    {| time := time point; price := slPrice |};
    {| time := time point; price := tpPrice |};
    {| time := endTime; price := price point |} ].

Section Click.
Variable api_post : DrawingBody → ApiResult Drawing.
Variable chart : option ChartApi.
Variable candles : list Candle.
Variable chartInterval : Interval.

(** [await saveDrawing(...)] and, when it did not throw, what the handler
    does to the tool state afterwards. *)
Definition saveThen (t : DrawingType) (pts : list DrawingPoint)
    (after : UiState → UiState) (st : UiState) : ClickOutcome :=
  match saveDrawing api_post t pts (store st) with
  | Completed s => ClickDone (after (withStore st s))
  | Rejected s => ClickRejected (withStore st s)
  end.

Definition toolOff (st : UiState) : UiState :=
  {| store := store st; tool := ToolNone; pendingPoint := pendingPoint st;
     hoverPoint := hoverPoint st; replay := replay st |}.

Definition shapeDone (st : UiState) : UiState :=
  {| store := store st; tool := ToolNone; pendingPoint := None;
     hoverPoint := None; replay := replay st |}.

(** [onCanvasClick] at canvas pixel [(x, y)]. The handler runs on the canvas
    itself, so the canvas ref is set. *)
Definition onCanvasClick (x y : Q) (st : UiState) : ClickOutcome :=
  match tool st with
  | ToolNone =>
      let hit := hitTestDrawing chart candles chartInterval x y (drawings (store st)) in
      ClickDone (withStore st {| drawings := drawings (store st);
                                 selectedDrawingId := drawing_id <$> hit |})
  | ToolReplayStart =>
      match getPointFromCoordinates chart candles (currentReplayIndex (replay st))
              chartInterval x y with
      | None => ClickDone st
      | Some point =>
          ClickDone {| store := store st; tool := tool st; pendingPoint := pendingPoint st;
                       hoverPoint := hoverPoint st;
                       replay := onReplayStartClick candles (time point) (replay st) |}
      end
  | ToolDraw t =>
      match getPointFromCoordinates chart candles (currentReplayIndex (replay st))
              chartInterval x y with
      | None => ClickDone st
      | Some point =>
          match t with
          | hline => saveThen hline [point] toolOff st
          | longpos => saveThen longpos (newPositionPoints true chartInterval point) toolOff st
          | shortpos => saveThen shortpos (newPositionPoints false chartInterval point) toolOff st
          | rect | fibo | pricerange =>
              match pendingPoint st with
              | None =>
                  ClickDone {| store := store st; tool := tool st; pendingPoint := Some point;
                               hoverPoint := hoverPoint st; replay := replay st |}
              | Some pending => saveThen t [pending; point] shapeDone st
              end
          end
      end
  end.
End Click.

(** The number of points a drawing of a type is made with. *)
Definition pointCount (t : DrawingType) : nat :=
  match t with
  | hline => 1
  | rect | fibo | pricerange => 2
  | longpos | shortpos => 4
  end.

(** The server answers a create with the drawing it was sent. *)
Definition echoes (api_post : DrawingBody → ApiResult Drawing) : Prop :=
  ∀ body d, api_post body = ApiOk d → type d = body_type body ∧ points d = body_points body.

(** A UI with the horizontal-line tool armed over the sample store. *)
Definition sampleUi : UiState :=
  {| store := sampleStore; tool := ToolDraw hline; pendingPoint := None;
     hoverPoint := None; replay := initialReplay |}.

(** A server that stores what it is sent under id 9. *)
Definition echoPost (body : DrawingBody) : ApiResult Drawing :=
  ApiOk {| drawing_id := 9; drawing_symbol := body_symbol body; type := body_type body;
           points := body_points body; style := body_style body;
           created_at := 2; updated_at := 2 |}.

(** *** Backend: the candle listing *)

(** ORDER BY open_time ASC *)
Definition byOpenTime (a b : Candle) : Prop := openTime a ≤ openTime b.

#[global] Instance byOpenTime_dec a b : Decision (byOpenTime a b) :=
  Z_le_dec (openTime a) (openTime b).

(** GET /api/candles: the query parameters as parsed, an interval outside
    the enumeration being none; answers nothing for status 400. *)
Definition getCandles (nowTs : Z) (symbolParam : option string) (intervalParam : option Interval)
    (fromParam toParam : option Z) (tbl : CandleTable) : option (list Candle) :=
  let sym := default "BTCUSDT" (truthy symbolParam) in
  match intervalParam with
  | None => None
  | Some iv =>
      let from := default 0 fromParam in
      let to := default nowTs toParam in
      Some (merge_sort byOpenTime
              (filter (λ c, symbol c = sym ∧ interval c = iv ∧
                            from ≤ openTime c ∧ openTime c ≤ to) tbl))
  end.

(** *** Backend: the drawings endpoints *)

(** The drawings table with the sequence behind its BIGSERIAL id. *)
Record DrawingsDb := mkDb { rows : list Drawing; nextId : Z }.

(** A body for POST /api/drawings: symbol and style may be left out. *)
Record DrawingRequest := mkRequest {
  req_symbol : option string;
  req_type : DrawingType;
  req_points : list DrawingPoint;
  req_style : option Style
}.

Inductive PostResponse := Post201 (row : Drawing) | Post400.
Inductive DeleteResponse := Delete204 | Delete404.

Definition postDrawing (nowTs : Z) (req : DrawingRequest) (db : DrawingsDb)
  : PostResponse * DrawingsDb :=
  match req_points req with
  | [] => (Post400, db)
  | _ :: _ =>
      let row := {| drawing_id := nextId db;
                    drawing_symbol := default "BTCUSDT" (req_symbol req);
                    type := req_type req;
                    points := req_points req;
                    style := default ∅ (req_style req);
                    created_at := nowTs; updated_at := nowTs |} in
      (Post201 row, {| rows := rows db ++ [row]; nextId := nextId db + 1 |})
  end.

Definition putDrawingDb (nowTs id : Z) (fields : DrawingPatch) (db : DrawingsDb)
  : Response * DrawingsDb :=
  let '(res, rows') := putDrawing nowTs id fields (rows db) in
  (res, {| rows := rows'; nextId := nextId db |}).

(** DELETE /api/drawings/:id with a finite id; the row count of the
    statement decides between 204 and 404. *)
Definition deleteDrawing (id : Z) (db : DrawingsDb) : DeleteResponse * DrawingsDb :=
  let rowCount := length (filter (λ d, drawing_id d = id) (rows db)) in
  if (rowCount =? 0)%nat
  then (Delete404, db)
  else (Delete204, {| rows := filter (λ d, drawing_id d ≠ id) (rows db);
                      nextId := nextId db |}).

(** ORDER BY created_at ASC *)
Definition byCreatedAt (a b : Drawing) : Prop := created_at a ≤ created_at b.

#[global] Instance byCreatedAt_dec a b : Decision (byCreatedAt a b) :=
  Z_le_dec (created_at a) (created_at b).

(** GET /api/drawings *)
Definition getDrawings (symbolParam : option string) (db : DrawingsDb) : list Drawing :=
  let sym := default "BTCUSDT" (truthy symbolParam) in
  merge_sort byCreatedAt (filter (λ d, drawing_symbol d = sym) (rows db)).

(** The requests that write to the drawings table. *)
Inductive DrawingsOp :=
  | OpPost (nowTs : Z) (req : DrawingRequest)
  | OpPut (nowTs id : Z) (fields : DrawingPatch)
  | OpDelete (id : Z).

Definition applyOp (db : DrawingsDb) (op : DrawingsOp) : DrawingsDb :=
  match op with
  | OpPost nowTs req => snd (postDrawing nowTs req db)
  | OpPut nowTs id fields => snd (putDrawingDb nowTs id fields db)
  | OpDelete id => snd (deleteDrawing id db)
  end.

(** The table as init.sql creates it. *)
Definition emptyDb : DrawingsDb := {| rows := []; nextId := 1 |}.

(** Ids are unique and below the next value of the sequence. *)
Definition dbOk (db : DrawingsDb) : Prop :=
  NoDup (map drawing_id (rows db)) ∧ 1 ≤ nextId db ∧
  ∀ d, d ∈ rows db → 1 ≤ drawing_id d < nextId db.

(** ** Theorems *)

Lemma INTERVAL_MS_pos i : 0 < INTERVAL_MS i.
Proof. destruct i; reflexivity. Qed.

Lemma Math_round_bounds (x : Q) :
  (x - (1 # 2) < inject_Z (Math_round x) /\ inject_Z (Math_round x) <= x + (1 # 2))%Q.
Proof.
  unfold Math_round. split.
  - pose proof (Qlt_floor (x + (1 # 2))) as H.
    rewrite inject_Z_plus in H.
    set (r := inject_Z (Qfloor (x + (1 # 2)))) in *.
    change (inject_Z 1) with 1%Q in H. lra.
  - apply Qfloor_le.
Qed.

(** C9: with zero candles loaded, and for any non-finite input, both mappings
    answer none (never a default coordinate). *)
Theorem mapper_none_when_unresolvable cs cur iv n :
  cs = [] \/ isFinite n = false ->
  timeMsToLogical cs iv n = None /\ logicalToTimeMs cs cur iv n = None.
Proof.
  intros [-> | Hn].
  - split; [reflexivity |].
    destruct n as [l| | |]; try reflexivity.
    unfold logicalToTimeMs, displayedCandles. simpl.
    destruct cur; [unfold slice0; rewrite take_nil |]; reflexivity.
  - destruct n; try discriminate; (split; [destruct cs |]; reflexivity).
Qed.

Lemma mapper_none_when_unresolvable_witness :
  timeMsToLogical [] I15m (Fin 0) = None /\
  logicalToTimeMs [] (Some 3) I15m (Fin 0) = None.
Proof. apply (mapper_none_when_unresolvable [] (Some 3) I15m (Fin 0)). left. reflexivity. Defined.

(** *** Coordinate mapper: the round trip *)

Lemma round_scale (l s : Q) :
  (0 < s)%Q ->
  (Qabs (inject_Z (Math_round l) * s - l * s) <= s * (1 # 2))%Q.
Proof.
  intros Hs. destruct (Math_round_bounds l) as [H1 H2].
  set (r := inject_Z (Math_round l)) in *.
  apply Qabs_Qle_condition. split; nra.
Qed.

Lemma Qle_bool_false (a b : Q) : Qle_bool a b = false -> (b < a)%Q.
Proof.
  intros H. apply Qnot_le_lt. intros Hle. apply Qle_bool_iff in Hle. congruence.
Qed.

Lemma List_last_stdpp {A} (l : list A) (d x : A) :
  last l = Some x -> List.last l d = x.
Proof.
  induction l as [|a [|b l'] IH]; intros H; simplify_eq/=; [done|].
  apply IH. exact H.
Qed.

Lemma lookup_last_index {A} (l : list A) (x : A) :
  last l = Some x -> l !! Z.to_nat (Z.of_nat (length l) - 1) = Some x.
Proof.
  intros H. rewrite last_lookup in H.
  replace (Z.to_nat (Z.of_nat (length l) - 1)) with (pred (length l)) by lia.
  exact H.
Qed.

Lemma displayed_head cs cur c0 d :
  head cs = Some c0 -> last (displayedCandles cs cur) = Some d ->
  head (displayedCandles cs cur) = Some c0.
Proof.
  unfold displayedCandles. destruct cur as [idx|]; [|done].
  unfold slice0. intros Hc Hd.
  destruct cs as [|c cs']; [done|]. simplify_eq/=.
  destruct (Z.to_nat _) eqn:E; [done|]. reflexivity.
Qed.

Lemma alignedDisplay_no_replay cs iv : cs ≠ [] → alignedDisplay cs None iv.
Proof.
  intros Hne. unfold alignedDisplay, displayedCandles.
  destruct (last cs) as [cl|] eqn:E; [lia|].
  apply last_None in E. done.
Qed.

Lemma alignedDisplay_nearly cs cur iv : alignedDisplay cs cur iv → nearlyAligned cs cur iv.
Proof.
  unfold alignedDisplay, nearlyAligned.
  destruct (last (displayedCandles cs cur)) as [d|]; [|done].
  destruct (last cs) as [cl|]; [|done].
  intros ->. pose proof (INTERVAL_MS_pos iv). lia.
Qed.

(** C4 (as amended): for a non-empty loaded series, mapping a time to a
    logical index and back lands within one interval step
    - for every time at or before the first loaded candle, whatever the
      replay hides, as long as a candle is displayed (or the time is within
      half a step of the first candle);
    - for a time after the first and at or after the last loaded candle,
      provided the time is less than half a step after the last candle or the
      last displayed candle, moved on by one step per hidden candle, lands
      within half a step of the last loaded one (it lands on it when no
      replay is in progress). *)
Theorem roundTrip_within_step cs cur iv c0 cl (t : Q) :
  head cs = Some c0 -> last cs = Some cl ->
  (t <= inject_Z (openTime c0) ∧
     (displayedCandles cs cur ≠ [] ∨
      inject_Z (openTime c0) - inject_Z (INTERVAL_MS iv) / 2 <= t))%Q ∨
  (inject_Z (openTime c0) < t ∧ inject_Z (openTime cl) <= t ∧
     (t < inject_Z (openTime cl) + inject_Z (INTERVAL_MS iv) / 2 ∨
      nearlyAligned cs cur iv))%Q ->
  withinStep iv (roundTrip cs cur iv (Fin t)) t.
Proof.
  intros Hhd Hlast Ht.
  pose proof (INTERVAL_MS_pos iv) as Hstep.
  assert (Hs : (0 < inject_Z (INTERVAL_MS iv))%Q).
  { change 0%Q with (inject_Z 0). rewrite <- Zlt_Qlt. exact Hstep. }
  set (s := inject_Z (INTERVAL_MS iv)) in *.
  assert (Hhs : (s / 2 == s * (1 # 2))%Q) by (field).
  assert (Hlen : 0 < Z.of_nat (length cs)). { destruct cs; [done|]. simpl. lia. }
  unfold roundTrip, timeMsToLogical.
  destruct cs as [|c cs'] eqn:Ecs; [done|]. rewrite <- Ecs in *.
  assert (c = c0) as -> by (rewrite Ecs in Hhd; simplify_eq/=; done).
  rewrite (List_last_stdpp cs c0 cl Hlast).
  fold s.
  destruct (Qle_bool t (inject_Z (openTime c0))) eqn:E1.
  - (* at or before the first candle *)
    apply Qle_bool_iff in E1. destruct Ht as [[_ Hdisp]|[Hlt _]]; [|lra]. simpl.
    set (l := ((t - inject_Z (openTime c0)) / s)%Q).
    assert (Hl : (l * s == t - inject_Z (openTime c0))%Q).
    { unfold l. field. lra. }
    pose proof (round_scale l s Hs) as Hr.
    pose proof (Math_round_bounds l) as [Hb1 Hb2].
    assert (Hl0 : (l <= 0)%Q).
    { apply Qnot_lt_le. intros Hpos. assert (0 < l * s)%Q by nra. lra. }
    unfold logicalToTimeMs.
    set (r := Math_round l) in *.
    assert (Hr0 : r <= 0).
    { destruct (Z_le_gt_dec r 0) as [|Hgt]; [done|].
      assert (1 <= r) as Hge by lia. rewrite Zle_Qle in Hge.
      change (inject_Z 1) with 1%Q in Hge. lra. }
    destruct ((0 <? Z.of_nat (length cs)) && (0 <=? r) && (r <? Z.of_nat (length cs))) eqn:G.
    + assert (r = 0) as Hz by lia. rewrite Hz in *.
      rewrite Ecs. simpl. exists (openTime c0). split; [done|].
      apply Qabs_Qle_condition in Hr. apply Qabs_Qle_condition.
      change (inject_Z 0) with 0%Q in Hr. fold s. lra.
    + assert (r < 0) as Hneg by lia.
      assert (Hne : displayedCandles cs cur ≠ []).
      { destruct Hdisp as [Hne|Hnear]; [exact Hne|]. exfalso.
        assert (Hhalf : (- (1 # 2) <= l)%Q).
        { apply Qnot_lt_le. intros Hlow. assert (l * s < - (1 # 2) * s)%Q by nra. lra. }
        assert (r + 1 <= 0) as Hge by lia. rewrite Zle_Qle, inject_Z_plus in Hge.
        change (inject_Z 1) with 1%Q in Hge. change (inject_Z 0) with 0%Q in Hge. lra. }
      apply last_is_Some in Hne as [d Hd].
      pose proof (displayed_head cs cur c0 d Hhd Hd) as Hdh.
      destruct (displayedCandles cs cur) as [|d0 ds] eqn:Edisp; [done|].
      simpl in Hdh. simplify_eq.
      destruct (r <? 0) eqn:G2; [|lia].
      eexists. split; [done|].
      rewrite inject_Z_plus, inject_Z_mult. fold s.
      apply Qabs_Qle_condition in Hr. apply Qabs_Qle_condition. fold s. lra.
  - (* after the first and at or after the last candle *)
    apply Qle_bool_false in E1.
    destruct Ht as [[Ht _]|(_ & Ht & Hal)]; [lra|].
    assert (E2 : Qle_bool (inject_Z (openTime cl)) t = true) by (apply Qle_bool_iff; done).
    rewrite E2. simpl.
    set (n1 := inject_Z (Z.of_nat (length cs) - 1)).
    set (l := (n1 + (t - inject_Z (openTime cl)) / s)%Q).
    assert (Hl : (l * s == n1 * s + (t - inject_Z (openTime cl)))%Q).
    { unfold l. field. lra. }
    pose proof (round_scale l s Hs) as Hr.
    pose proof (Math_round_bounds l) as [Hb1 Hb2].
    assert (Hl0 : (n1 <= l)%Q).
    { apply Qnot_lt_le. intros Hlt. assert ((n1 - l) * s > 0)%Q by nra. lra. }
    unfold logicalToTimeMs.
    set (r := Math_round l) in *.
    assert (Hrn : Z.of_nat (length cs) - 1 <= r).
    { destruct (Z_le_gt_dec (Z.of_nat (length cs) - 1) r) as [|Hgt]; [done|].
      assert (r + 1 <= Z.of_nat (length cs) - 1) as Hge by lia. rewrite Zle_Qle in Hge.
      rewrite inject_Z_plus in Hge. fold n1 in Hge.
      change (inject_Z 1) with 1%Q in Hge. lra. }
    destruct ((0 <? Z.of_nat (length cs)) && (0 <=? r) && (r <? Z.of_nat (length cs))) eqn:G.
    + assert (r = Z.of_nat (length cs) - 1) as Hz by lia.
      rewrite Hz, (lookup_last_index cs cl Hlast). simpl.
      exists (openTime cl). split; [done|].
      rewrite Hz in Hr. fold n1 in Hr.
      apply Qabs_Qle_condition in Hr. apply Qabs_Qle_condition. fold s. lra.
    + assert (Z.of_nat (length cs) <= r) as Hbig by lia.
      destruct Hal as [Hnear|Hal].
      { exfalso.
        assert (Hhalf : (l < n1 + (1 # 2))%Q).
        { apply Qnot_le_lt. intros Hhigh. assert ((n1 + (1 # 2)) * s <= l * s)%Q by nra. lra. }
        assert (Z.of_nat (length cs) - 1 + 1 <= r) as Hge by lia.
        rewrite Zle_Qle, inject_Z_plus in Hge. fold n1 in Hge.
        change (inject_Z 1) with 1%Q in Hge. lra. }
      unfold nearlyAligned in Hal. rewrite Hlast in Hal.
      destruct (last (displayedCandles cs cur)) as [d|] eqn:Hd; [|done].
      destruct (displayedCandles cs cur) as [|d0 ds] eqn:Edisp; [done|].
      destruct (r <? 0) eqn:G2; [lia|].
      rewrite (List_last_stdpp _ d0 d Hd).
      eexists. split; [done|].
      set (off := openTime d
                  + (Z.of_nat (length cs) - Z.of_nat (length (d0 :: ds))) * INTERVAL_MS iv
                  - openTime cl) in *.
      replace (openTime d + (r - (Z.of_nat (length (d0 :: ds)) - 1)) * INTERVAL_MS iv)
        with (off + (openTime cl + (r - (Z.of_nat (length cs) - 1)) * INTERVAL_MS iv))
        by (unfold off; lia).
      assert (Hoff : (- (s * (1 # 2)) <= inject_Z off <= s * (1 # 2))%Q).
      { assert (H1 : - INTERVAL_MS iv ≤ 2 * off) by lia.
        assert (H2 : 2 * off ≤ INTERVAL_MS iv) by lia.
        rewrite Zle_Qle, inject_Z_mult in H2. rewrite Zle_Qle, inject_Z_opp, inject_Z_mult in H1.
        fold s in H1, H2. change (inject_Z 2) with 2%Q in H1, H2. lra. }
      rewrite !inject_Z_plus, inject_Z_mult.
      replace (r - (Z.of_nat (length cs) - 1)) with (r + - (Z.of_nat (length cs) - 1)) by lia.
      rewrite inject_Z_plus, inject_Z_opp. fold s n1.
      apply Qabs_Qle_condition in Hr. apply Qabs_Qle_condition. fold s.
      set (o := inject_Z off) in *. clearbody o. lra.
Qed.

Lemma roundTrip_within_step_witness :
  withinStep I5m (roundTrip threeBars (Some 0) I5m (Fin (- (1000000)))) (- (1000000)) ∧
  withinStep I5m (roundTrip threeBars (Some 0) I5m (Fin 1000000)) 1000000.
Proof.
  split.
  - apply (roundTrip_within_step threeBars (Some 0) I5m (bar 0 0 0 0) (bar 600000 0 0 0)).
    + reflexivity.
    + reflexivity.
    + left. split; [vm_compute; discriminate|]. left. vm_compute. discriminate.
  - apply (roundTrip_within_step threeBars (Some 0) I5m (bar 0 0 0 0) (bar 600000 0 0 0)).
    + reflexivity.
    + reflexivity.
    + right. split; [reflexivity|]. split; [vm_compute; discriminate|].
      right. vm_compute. discriminate.
Defined.

(** C4 as stated fails while a replay hides candles behind a gap in the
    series: the back mapping extrapolates from the last displayed candle. *)
Lemma roundTrip_replay_gap_counterexample :
  let cs := [bar 0 0 0 0; bar 300000 0 0 0; bar 10000000 0 0 0] in
  cs ≠ [] ∧ (inject_Z 10000000 <= 10300000)%Q ∧
  roundTrip cs (Some 0) I5m (Fin 10300000) = Some 900000 ∧
  ¬ withinStep I5m (roundTrip cs (Some 0) I5m (Fin 10300000)) 10300000.
Proof.
  simpl. split; [done|]. split; [vm_compute; discriminate|].
  assert (H : roundTrip [bar 0 0 0 0; bar 300000 0 0 0; bar 10000000 0 0 0]
                (Some 0) I5m (Fin 10300000) = Some 900000) by (vm_compute; reflexivity).
  split; [exact H|].
  rewrite H. intros (ms & Hms & Hle). injection Hms as <-.
  vm_compute in Hle. apply Hle. reflexivity.
Qed.

(** *** Binary64 rounding: the doubles are its fixed points *)

Lemma pow2_pos k : (0 < pow2 k)%Q.
Proof. unfold pow2. apply Qpower_0_lt. reflexivity. Qed.

Lemma pow2_add a b : (pow2 (a + b) == pow2 a * pow2 b)%Q.
Proof. unfold pow2. apply Qpower_plus. discriminate. Qed.

Lemma pow2_Z k : 0 ≤ k → (pow2 k == inject_Z (2 ^ k))%Q.
Proof. intros Hk. unfold pow2. rewrite Zpower_Qpower by done. reflexivity. Qed.

Lemma pow2_ge_1 k : 0 ≤ k → (1 <= pow2 k)%Q.
Proof.
  intros Hk. rewrite (pow2_Z k Hk). change 1%Q with (inject_Z 1). rewrite <- Zle_Qle.
  pose proof (Z.pow_pos_nonneg 2 k). lia.
Qed.

Lemma pow2_le a b : a ≤ b → (pow2 a <= pow2 b)%Q.
Proof.
  intros Hab. replace b with (a + (b - a)) by lia. rewrite pow2_add.
  pose proof (pow2_pos a). pose proof (pow2_ge_1 (b - a)).
  set (x := pow2 a) in *. set (y := pow2 (b - a)) in *. clearbody x y.
  assert (1 <= y)%Q by (apply H0; lia). nra.
Qed.

Lemma pow2_lt_inv a b : (pow2 a < pow2 b)%Q → a < b.
Proof.
  intros H. destruct (Z_lt_le_dec a b) as [|Hle]; [done|].
  apply pow2_le in Hle. lra.
Qed.

Lemma floorLog2_le (x : Q) : (0 < x)%Q → (pow2 (floorLog2 x) <= x)%Q.
Proof.
  intros Hx. unfold floorLog2.
  set (k := Z.log2 (Qnum x) - Z.log2 (Z.pos (Qden x))).
  destruct (Qle_bool (pow2 k) x) eqn:E; [by apply Qle_bool_iff|].
  destruct x as [n d]. cbn [Qnum Qden] in *.
  assert (Hn : 0 < n). { unfold Qlt in Hx. cbn in Hx. lia. }
  pose proof (Z.log2_spec n Hn) as [Hn1 _].
  pose proof (Z.log2_spec (Z.pos d) (Pos2Z.is_pos d)) as [_ Hd2].
  pose proof (Z.log2_nonneg n). pose proof (Z.log2_nonneg (Z.pos d)).
  assert (Hk : (pow2 (k - 1) * pow2 (Z.succ (Z.log2 (Z.pos d))) == pow2 (Z.log2 n))%Q).
  { rewrite <- pow2_add. unfold k. by replace (_ + _) with (Z.log2 n) by lia. }
  rewrite (pow2_Z (Z.succ _)), (pow2_Z (Z.log2 n)) in Hk by lia.
  pose proof (pow2_pos (k - 1)) as Hp.
  set (p := pow2 (k - 1)) in *. clearbody p.
  assert (Hd : (inject_Z (Z.pos d) <= inject_Z (2 ^ Z.succ (Z.log2 (Z.pos d))))%Q).
  { rewrite <- Zle_Qle. lia. }
  assert (Hnq : (inject_Z (2 ^ Z.log2 n) <= inject_Z n)%Q) by (by rewrite <- Zle_Qle).
  assert (Hxd : (n # d == inject_Z n / inject_Z (Z.pos d))%Q) by apply Qmake_Qdiv.
  assert (Hdpos : (0 < inject_Z (Z.pos d))%Q).
  { change 0%Q with (inject_Z 0). rewrite <- Zlt_Qlt. lia. }
  rewrite Hxd. apply Qle_shift_div_l; [done|].
  set (a := inject_Z (Z.pos d)) in *. set (b := inject_Z (2 ^ Z.succ _)) in *.
  set (c := inject_Z (2 ^ Z.log2 n)) in *. set (nn := inject_Z n) in *.
  clearbody a b c nn. nra.
Qed.

Lemma floorLog2_lt (x : Q) (k : Z) : (0 < x)%Q → (x < pow2 k)%Q → floorLog2 x < k.
Proof.
  intros Hx Hk. apply pow2_lt_inv. pose proof (floorLog2_le x Hx). lra.
Qed.

Lemma roundHalfEven_Z (x : Q) (n : Z) : (x == inject_Z n)%Q → roundHalfEven x = n.
Proof.
  intros Hx. unfold roundHalfEven.
  rewrite (Qfloor_comp _ _ Hx), Qfloor_Z.
  destruct (Qcompare_spec (x - inject_Z n) (1 # 2)) as [H|H|H]; [lra|done|lra].
Qed.

Lemma Qnum_sgn (x : Q) (m : Z) (p : Q) :
  (0 < p)%Q → (x == inject_Z m * p)%Q → Z.sgn (Qnum x) = Z.sgn m.
Proof.
  intros Hp Hx.
  assert (Hs : ∀ y : Q, (0 < y)%Q ↔ 0 < Qnum y).
  { intros y. unfold Qlt. cbn. lia. }
  assert (Hn : ∀ y : Q, (y < 0)%Q ↔ Qnum y < 0).
  { intros y. unfold Qlt. cbn. lia. }
  destruct (Z.lt_trichotomy m 0) as [Hm|[->|Hm]].
  - assert (inject_Z m < 0)%Q by (change 0%Q with (inject_Z 0); by rewrite <- Zlt_Qlt).
    assert (x < 0)%Q by nra. apply Hn in H0. lia.
  - assert (x == 0)%Q by (rewrite Hx; ring). unfold Qeq in H. cbn in H. lia.
  - assert (0 < inject_Z m)%Q by (change 0%Q with (inject_Z 0); by rewrite <- Zlt_Qlt).
    assert (0 < x)%Q by nra. apply Hs in H0. lia.
Qed.

Lemma Qabs_inject_Z (m : Z) : (Qabs (inject_Z m) == inject_Z (Z.abs m))%Q.
Proof. symmetry. apply (Zabs_Qabs m 1). Qed.

Lemma round64_exact (q : Q) : isDouble q → round64 q = Fin (Qred q).
Proof.
  intros (M & E & Hq & HM & HE). unfold round64.
  set (x := Qred q). assert (Hx : (x == q)%Q) by apply Qred_correct.
  destruct (Qeq_bool x 0) eqn:E0.
  - apply Qeq_bool_iff in E0. f_equal.
    unfold x in *. rewrite <- (Qred_complete _ _ (Qred_correct q)).
    by rewrite (Qred_complete _ _ E0).
  - apply Qeq_bool_neq in E0.
    pose proof (pow2_pos E) as HpE.
    assert (HxM : (x == inject_Z M * pow2 E)%Q) by (by rewrite Hx).
    assert (Habs : (Qabs x == inject_Z (Z.abs M) * pow2 E)%Q).
    { rewrite HxM, Qabs_Qmult, (Qabs_pos (pow2 E)), Qabs_inject_Z by lra. reflexivity. }
    assert (Hpos : (0 < Qabs x)%Q).
    { pose proof (Qabs_nonneg x). destruct (Qlt_le_dec 0 (Qabs x)) as [|Hle]; [done|].
      exfalso. apply E0. apply Qabs_Qle_condition in Hle. lra. }
    assert (Hlt : (Qabs x < pow2 (53 + E))%Q).
    { rewrite Habs, pow2_add, (pow2_Z 53) by lia.
      assert (inject_Z (Z.abs M) < inject_Z (2 ^ 53))%Q by (by rewrite <- Zlt_Qlt).
      set (a := inject_Z (Z.abs M)) in *. set (b := inject_Z (2 ^ 53)) in *.
      set (p := pow2 E) in *. clearbody a b p. nra. }
    pose proof (floorLog2_lt _ _ Hpos Hlt) as Hfl.
    cbv zeta.
    set (e := Z.max (-1074) (floorLog2 (Qabs x) - 52)).
    assert (He : e ≤ E) by (unfold e; lia).
    pose proof (pow2_pos e) as Hpe.
    assert (HEe : (pow2 E == pow2 e * inject_Z (2 ^ (E - e)))%Q).
    { rewrite <- pow2_Z, <- pow2_add by lia. by replace (e + (E - e)) with E by lia. }
    set (N := Z.abs M * 2 ^ (E - e)).
    assert (Hm : roundHalfEven (Qabs x / pow2 e) = N).
    { apply roundHalfEven_Z. rewrite Habs, HEe. unfold N. rewrite inject_Z_mult.
      field. lra. }
    rewrite Hm.
    assert (Hinner : (inject_Z (Z.sgn (Qnum x) * N) * pow2 e == x)%Q).
    { rewrite (Qnum_sgn x M (pow2 E) HpE HxM). unfold N.
      replace (Z.sgn M * (Z.abs M * 2 ^ (E - e))) with (M * 2 ^ (E - e))
        by (rewrite Z.mul_assoc; f_equal; by destruct M).
      rewrite HxM, HEe, inject_Z_mult. ring. }
    rewrite (Qred_complete _ _ Hinner).
    assert (Hno : Qle_bool (pow2 1024) (Qabs (Qred x)) = false).
    { destruct (Qle_bool _ _) eqn:Eo; [|done]. exfalso.
      apply Qle_bool_iff in Eo. rewrite (Qred_correct x) in Eo.
      assert (pow2 (53 + E) <= pow2 1024)%Q by (apply pow2_le; lia). lra. }
    rewrite Hno. f_equal. apply Qred_complete. exact Hx.
Qed.


Lemma round64_comp (x y : Q) : (x == y)%Q → round64 x = round64 y.
Proof. intros H. unfold round64. by rewrite (Qred_complete x y H). Qed.

Lemma round64_0 (x : Q) : (x == 0)%Q → round64 x = Fin 0.
Proof. intros H. by rewrite (round64_comp x 0 H). Qed.

Lemma roundHalfEven_bounds (x : Q) :
  (x - (1 # 2) <= inject_Z (roundHalfEven x) <= x + (1 # 2))%Q.
Proof.
  unfold roundHalfEven.
  pose proof (Qfloor_le x) as F1. pose proof (Qlt_floor x) as F2.
  rewrite inject_Z_plus in F2. change (inject_Z 1) with 1%Q in F2.
  set (f := Qfloor x) in *.
  destruct (Qcompare_spec (x - inject_Z f) (1 # 2)) as [H|H|H].
  - destruct (Z.even f); [|rewrite inject_Z_plus; change (inject_Z 1) with 1%Q]; lra.
  - lra.
  - rewrite inject_Z_plus. change (inject_Z 1) with 1%Q. lra.
Qed.

(** What rounding makes of a positive rational: the nearest number [r]
    with 53 bits, within half a unit in the last place, the unit being
    2^-1074 or at most 2^-52 times the rational; and plus infinity in its
    place from 2^1024 on. *)
Lemma round64_pos (x : Q) :
  (0 < x)%Q →
  ∃ r e, round64 x = (if Qle_bool (pow2 1024) r then PosInf else Fin r) ∧
         (0 <= r)%Q ∧ (x - pow2 e / 2 <= r)%Q ∧ (r <= x + pow2 e / 2)%Q ∧
         (e = -1074 ∨ (pow2 (e + 52) <= x)%Q) ∧
         ∀ k, (x < pow2 k)%Q → e ≤ Z.max (-1074) (k - 53).
Proof.
  intros Hx. unfold round64.
  assert (Hr : (Qred x == x)%Q) by apply Qred_correct.
  assert (E0 : Qeq_bool (Qred x) 0 = false).
  { destruct (Qeq_bool (Qred x) 0) eqn:E; [|done]. apply Qeq_bool_iff in E. lra. }
  rewrite E0. cbv zeta.
  set (y := Qabs (Qred x)).
  assert (Hy : (y == x)%Q) by (unfold y; rewrite Hr; apply Qabs_pos; lra).
  assert (Hypos : (0 < y)%Q) by lra.
  pose proof (floorLog2_le y Hypos) as Hfl.
  set (e := Z.max (-1074) (floorLog2 y - 52)).
  pose proof (pow2_pos e) as Hpe.
  pose proof (roundHalfEven_bounds (y / pow2 e)) as [Hm1 Hm2].
  set (m := roundHalfEven (y / pow2 e)) in *.
  assert (Hnum : 0 < Qnum (Qred x)).
  { assert (H : (0 < Qred x)%Q) by lra. unfold Qlt in H. cbn in H. lia. }
  assert (Hsgn : Z.sgn (Qnum (Qred x)) = 1) by lia.
  rewrite Hsgn, Z.mul_1_l, (proj2 (Z.ltb_lt _ _) Hnum).
  set (r := Qred (inject_Z m * pow2 e)).
  assert (Hrm : (r == inject_Z m * pow2 e)%Q) by apply Qred_correct.
  assert (Hdiv : (y / pow2 e * pow2 e == x)%Q) by (rewrite <- Hy; field; lra).
  assert (Hhalf : (pow2 e / 2 == pow2 e * (1 # 2))%Q) by field.
  assert (Hlo : (x - pow2 e / 2 <= r)%Q).
  { rewrite Hrm, Hhalf. set (q := (y / pow2 e)%Q) in *. set (p := pow2 e) in *.
    set (mm := inject_Z m) in *. clearbody q p mm. nra. }
  assert (Hhi : (r <= x + pow2 e / 2)%Q).
  { rewrite Hrm, Hhalf. set (q := (y / pow2 e)%Q) in *. set (p := pow2 e) in *.
    set (mm := inject_Z m) in *. clearbody q p mm. nra. }
  assert (Hrpos : (0 <= r)%Q).
  { rewrite Hrm. assert (0 <= inject_Z m)%Q.
    { assert (-1 < m); [|change 0%Q with (inject_Z 0); rewrite <- Zle_Qle; lia].
      rewrite Zlt_Qlt. change (inject_Z (-1)) with (-1)%Q.
      assert (0 < y / pow2 e)%Q by (apply Qlt_shift_div_l; lra). lra. }
    set (mm := inject_Z m) in *. set (p := pow2 e) in *. clearbody mm p. nra. }
  exists r, e. split.
  - assert (Ha : Qle_bool (pow2 1024) (Qabs r) = Qle_bool (pow2 1024) r); [|by rewrite Ha].
    destruct (Qle_bool (pow2 1024) r) eqn:E1.
    + apply Qle_bool_iff. apply Qle_bool_iff in E1. by rewrite (Qabs_pos r Hrpos).
    + destruct (Qle_bool (pow2 1024) (Qabs r)) eqn:E2; [|done].
      apply Qle_bool_iff in E2. rewrite (Qabs_pos r Hrpos) in E2.
      apply Qle_bool_iff in E2. congruence.
  - split; [done|]. split; [done|]. split; [done|]. split.
    + destruct (Z.max_spec (-1074) (floorLog2 y - 52)) as [[_ E]|[_ E]]; fold e in E.
      * right. rewrite E. replace (floorLog2 y - 52 + 52) with (floorLog2 y) by lia. lra.
      * by left.
    + intros k Hk. assert (floorLog2 y < k) by (apply floorLog2_lt; lra). unfold e. lia.
Qed.

Lemma round64_ge_one (x : Q) :
  (1 <= x)%Q → round64 x = PosInf ∨ ∃ r, round64 x = Fin r ∧ (x / 2 <= r)%Q.
Proof.
  intros Hx. destruct (round64_pos x) as (r & e & -> & _ & Hlo & _ & He & _); [lra|].
  destruct (Qle_bool (pow2 1024) r); [by left|right]. exists r. split; [done|].
  assert (Hp : (pow2 e <= x)%Q).
  { destruct He as [->|He].
    - assert (pow2 (-1074) <= pow2 0)%Q by (apply pow2_le; lia).
      change (pow2 0) with 1%Q in H. lra.
    - assert (pow2 e <= pow2 (e + 52))%Q by (apply pow2_le; lia). lra. }
  assert (Hh1 : (pow2 e / 2 == pow2 e * (1 # 2))%Q) by field.
  assert (Hh2 : (x / 2 == x * (1 # 2))%Q) by field.
  lra.
Qed.

Lemma round64_small (y : Q) : (0 < y)%Q → (y <= 4)%Q → ∃ r, round64 y = Fin r.
Proof.
  intros Hy H4. destruct (round64_pos y Hy) as (r & e & -> & _ & _ & Hhi & _ & He).
  assert (e ≤ Z.max (-1074) (3 - 53)) as Hle.
  { apply He. change (pow2 3) with 8%Q. lra. }
  assert (Hp : (pow2 e <= 1)%Q).
  { change 1%Q with (pow2 0). apply pow2_le. lia. }
  assert (Hh1 : (pow2 e / 2 == pow2 e * (1 # 2))%Q) by field.
  assert (Hbig : (8 <= pow2 1024)%Q).
  { change 8%Q with (pow2 3). apply pow2_le. lia. }
  exists r. destruct (Qle_bool (pow2 1024) r) eqn:E; [|done].
  apply Qle_bool_iff in E. lra.
Qed.

(** *** Derived series: EMA with period 1 *)

Lemma Qfloor_unique (x : Q) (n : Z) :
  (inject_Z n <= x)%Q → (x < inject_Z n + 1)%Q → Qfloor x = n.
Proof.
  intros H1 H2.
  pose proof (Qfloor_le x) as F1. pose proof (Qlt_floor x) as F2.
  rewrite inject_Z_plus in F2. change (inject_Z 1) with 1%Q in F2.
  assert (n < Qfloor x + 1) as A.
  { rewrite Zlt_Qlt, inject_Z_plus. change (inject_Z 1) with 1%Q. lra. }
  assert (Qfloor x < n + 1) as B.
  { rewrite Zlt_Qlt, inject_Z_plus. change (inject_Z 1) with 1%Q. lra. }
  lia.
Qed.

(** The first turn of the loop: the running average starts at the close,
    and the difference to itself is zero whatever the multiplier. *)
Lemma ema_first_step (c m : Q) :
  isDouble c →
  fadd (fmul (fsub (jsNumber c) (jsNumber c)) (Fin m)) (jsNumber c) = Fin (Qred c).
Proof.
  intros Hc. unfold jsNumber. rewrite (round64_exact c Hc).
  cbn [fsub fneg fadd]. rewrite (round64_0 (Qred c + - Qred c)) by ring.
  cbn [fmul]. rewrite (round64_0 (0 * m)) by ring.
  cbn [fadd]. rewrite (round64_comp (0 + Qred c) c) by (rewrite Qred_correct; ring).
  by apply round64_exact.
Qed.







(** Rounding as defined here against the binary64 numbers of the kernel,
    which are those of the hardware: a quotient, the two ways of a tie, and
    the cancellation of the second counterexample below step by step. *)
Module Binary64Check.
Import PrimFloat.

Example binary64_agrees :
  let small := (25 / 100000)%float in
  let large := (9700012 / 100)%float in
  ofFloat (1 / 3)%float = round64 (1 # 3) ∧
  ofFloat (9007199254740992 + 1)%float = fadd (Fin 9007199254740992) (Fin 1) ∧
  ofFloat (9007199254740994 + 1)%float = fadd (Fin 9007199254740994) (Fin 1) ∧
  ofFloat small = jsNumber (25 # 100000) ∧
  ofFloat large = jsNumber (9700012 # 100) ∧
  ofFloat (small - large)%float = fsub (jsNumber (25 # 100000)) (jsNumber (9700012 # 100)) ∧
  ofFloat ((small - large) * 1 + large)%float
  = fadd (fmul (fsub (jsNumber (25 # 100000)) (jsNumber (9700012 # 100))) (Fin 1))
      (jsNumber (9700012 # 100)).
Proof. vm_compute. repeat split; reflexivity. Qed.

End Binary64Check.


(** *** Derived series: Monday bands *)

Lemma Qltb_true a b : Qltb a b = true <-> (a < b)%Q.
Proof.
  unfold Qltb. rewrite negb_true_iff. split.
  - apply Qle_bool_false.
  - intros H. destruct (Qle_bool b a) eqn:E; [|done].
    apply Qle_bool_iff in E. lra.
Qed.

Lemma Qltb_false a b : Qltb a b = false <-> (b <= a)%Q.
Proof.
  unfold Qltb. rewrite negb_false_iff. apply Qle_bool_iff.
Qed.

(** The week start is a Monday midnight, at most a week before the time. *)
Lemma startOfUtcMonday_spec t :
  getUTCDay (startOfUtcMonday t) = 1 ∧
  startOfUtcMonday t mod msPerDay = 0 ∧
  startOfUtcMonday t ≤ t < startOfUtcMonday t + oneWeekMs.
Proof.
  unfold startOfUtcMonday, getUTCDay, oneWeekMs, msPerDay.
  change (24 * 60 * 60 * 1000) with 86400000.
  change (7 * 86400000) with 604800000.
  set (q := t / 86400000).
  assert (Hq : 86400000 * q ≤ t < 86400000 * q + 86400000).
  { unfold q. pose proof (Z.mul_div_le t 86400000).
    pose proof (Z.mul_succ_div_gt t 86400000). lia. }
  set (diff := ((q + 4) mod 7 + 6) mod 7).
  assert (Hd : 0 ≤ diff < 7) by (apply Z.mod_pos_bound; lia).
  assert (Hm : (q - diff + 4) mod 7 = 1).
  { unfold diff. clear.
    pose proof (Z.mod_pos_bound (q + 4) 7).
    pose proof (Z.div_mod (q + 4) 7).
    pose proof (Z.mod_pos_bound ((q + 4) mod 7 + 6) 7).
    pose proof (Z.div_mod ((q + 4) mod 7 + 6) 7).
    pose proof (Z.mod_pos_bound (q - ((q + 4) mod 7 + 6) mod 7 + 4) 7).
    pose proof (Z.div_mod (q - ((q + 4) mod 7 + 6) mod 7 + 4) 7).
    lia. }
  replace (q * 86400000 - diff * 86400000) with ((q - diff) * 86400000) by lia.
  rewrite Z.div_mul by lia. rewrite Z.mod_mul by lia.
  split; [exact Hm|]. split; [done|]. lia.
Qed.

Lemma bucket_push_keys g k c :
  map fst (bucket_push g k c) = map fst g ++ (if decide (k ∈ map fst g) then [] else [k]).
Proof.
  induction g as [|[k' b] g IH].
  - cbn [bucket_push map app fst]. case_decide as H; [by apply elem_of_nil in H|done].
  - cbn [bucket_push map fst]. destruct (k' =? k) eqn:E.
    + apply Z.eqb_eq in E as ->. cbn [map fst]. rewrite decide_True by left.
      by rewrite app_nil_r.
    + apply Z.eqb_neq in E. cbn [map fst]. rewrite IH. cbn [app]. f_equal.
      destruct (decide (k ∈ map fst g)) as [Hin|Hn].
      * rewrite decide_True; [done|]. by right.
      * rewrite decide_False; [done|]. intros Hin. apply elem_of_cons in Hin as [->|]; done.
Qed.

Lemma bucket_push_bucketOf g k c k' :
  bucketOf (bucket_push g k c) k' =
  if k' =? k then bucketOf g k ++ [c] else bucketOf g k'.
Proof.
  induction g as [|[k0 b] g IH]; simpl.
  - rewrite (Z.eqb_sym k k'). by destruct (k' =? k).
  - destruct (k0 =? k) eqn:E; simpl.
    + apply Z.eqb_eq in E as ->. rewrite (Z.eqb_sym k k').
      by destruct (k' =? k) eqn:E'.
    + destruct (k0 =? k') eqn:E'; [|exact IH].
      apply Z.eqb_eq in E' as ->. by rewrite E.
Qed.

Lemma bucketOf_elem g k b :
  NoDup (map fst g) -> (k, b) ∈ g -> bucketOf g k = b.
Proof.
  induction g as [|[k' b'] g IH]; simpl; intros Hnd Hin.
  - by apply elem_of_nil in Hin.
  - apply NoDup_cons in Hnd as [Hk Hnd].
    apply elem_of_cons in Hin as [Heq|Hin].
    + simplify_eq. by rewrite Z.eqb_refl.
    + destruct (k' =? k) eqn:E; [|by apply IH].
      apply Z.eqb_eq in E as ->. exfalso. apply Hk.
      apply (list_elem_of_fmap_2 fst) in Hin. exact Hin.
Qed.

Lemma groupByWeek_snoc cs c :
  groupByWeek (cs ++ [c]) = bucket_push (groupByWeek cs) (weekOf c) c.
Proof. unfold groupByWeek. by rewrite fold_left_app. Qed.

Lemma groupByWeek_spec cs :
  NoDup (map fst (groupByWeek cs)) ∧
  (∀ k, bucketOf (groupByWeek cs) k = filter (λ c, weekOf c = k) cs) ∧
  (∀ k, k ∈ map fst (groupByWeek cs) ↔ ∃ c, c ∈ cs ∧ weekOf c = k).
Proof.
  induction cs as [|c cs (Hnd & Hb & Hk)] using rev_ind.
  - split; [constructor|]. split; [done|]. intros k. split.
    + intros H. by apply elem_of_nil in H.
    + intros (c & H & _). by apply elem_of_nil in H.
  - rewrite groupByWeek_snoc. split; [|split].
    + rewrite bucket_push_keys. destruct (decide _) as [Hin|Hn].
      * by rewrite app_nil_r.
      * apply NoDup_app. split; [done|]. split; [|apply NoDup_singleton].
        intros x Hx Hx'. apply list_elem_of_singleton in Hx' as ->. done.
    + intros k. rewrite bucket_push_bucketOf, filter_app, !Hb.
      destruct (k =? weekOf c) eqn:E.
      * apply Z.eqb_eq in E as ->. rewrite filter_cons_True, filter_nil; done.
      * apply Z.eqb_neq in E. rewrite filter_cons_False, filter_nil by done.
        by rewrite app_nil_r.
    + intros k. rewrite bucket_push_keys, elem_of_app, Hk. split.
      * intros [(c' & Hc' & Hw)|Hin].
        -- exists c'. split; [|done]. apply elem_of_app. by left.
        -- destruct (decide _); [by apply elem_of_nil in Hin|].
           apply list_elem_of_singleton in Hin as ->. exists c. split; [|done].
           apply elem_of_app. right. by apply list_elem_of_singleton.
      * intros (c' & Hc' & Hw). apply elem_of_app in Hc' as [Hc'|Hc'].
        -- left. by exists c'.
        -- apply list_elem_of_singleton in Hc' as ->.
           destruct (decide (weekOf c ∈ map fst (groupByWeek cs))) as [Hin|Hn].
           ++ left. apply Hk in Hin. by rewrite <- Hw.
           ++ right. rewrite <- Hw. by apply list_elem_of_singleton.
Qed.

Lemma highLow_fold (ms : list Candle) (h0 l0 : Q) :
  let hl := fold_left highLowStep ms (h0, l0) in
  ((h0 <= fst hl)%Q ∧ (∀ c, c ∈ ms → (high c <= fst hl)%Q) ∧
   (fst hl = h0 ∨ ∃ c, c ∈ ms ∧ fst hl = high c)) ∧
  ((snd hl <= l0)%Q ∧ (∀ c, c ∈ ms → (snd hl <= low c)%Q) ∧
   (snd hl = l0 ∨ ∃ c, c ∈ ms ∧ snd hl = low c)).
Proof.
  revert h0 l0. induction ms as [|m ms IH]; intros h0 l0 hl.
  - subst hl. cbn [fold_left fst snd]. repeat split; try apply Qle_refl; try (by left);
      intros c Hc; by apply elem_of_nil in Hc.
  - specialize (IH (fst (highLowStep (h0, l0) m)) (snd (highLowStep (h0, l0) m))).
    cbv zeta in IH. rewrite <- surjective_pairing in IH.
    change (fold_left highLowStep ms (highLowStep (h0, l0) m)) with hl in IH.
    cbn [highLowStep fst snd] in IH.
    set (h1 := if Qltb h0 (high m) then high m else h0) in *.
    set (l1 := if Qltb (low m) l0 then low m else l0) in *.
    destruct IH as [(Hh1 & Hh2 & Hh3) (Hl1 & Hl2 & Hl3)].
    assert (Hh : (h0 <= h1)%Q ∧ (high m <= h1)%Q ∧ (h1 = h0 ∨ h1 = high m)).
    { unfold h1. destruct (Qltb h0 (high m)) eqn:E.
      - apply Qltb_true in E. repeat split; [lra|lra|by right].
      - apply Qltb_false in E. repeat split; [lra|lra|by left]. }
    assert (Hl : (l1 <= l0)%Q ∧ (l1 <= low m)%Q ∧ (l1 = l0 ∨ l1 = low m)).
    { unfold l1. destruct (Qltb (low m) l0) eqn:E.
      - apply Qltb_true in E. repeat split; [lra|lra|by right].
      - apply Qltb_false in E. repeat split; [lra|lra|by left]. }
    destruct Hh as (Ha & Hb & Hc). destruct Hl as (La & Lb & Lc).
    clearbody hl h1 l1.
    split; (split; [lra|split]).
    + intros c Hin. apply elem_of_cons in Hin as [->|Hin]; [lra|by apply Hh2].
    + destruct Hh3 as [E|(c & Hin & E)].
      * destruct Hc as [E'|E']; [left; congruence|].
        right. exists m. split; [left|congruence].
      * right. exists c. split; [by right|done].
    + intros c Hin. apply elem_of_cons in Hin as [->|Hin]; [lra|by apply Hl2].
    + destruct Hl3 as [E|(c & Hin & E)].
      * destruct Lc as [E'|E']; [left; congruence|].
        right. exists m. split; [left|congruence].
      * right. exists c. split; [by right|done].
Qed.

Lemma weekBand_spec stepMs k b :
  match weekBand stepMs (k, b) with
  | None => filter isMonday b = []
  | Some r => weekStartMs r = k ∧ bandOver stepMs r (filter isMonday b)
  end.
Proof.
  unfold weekBand. cbn [fst snd].
  destruct (filter isMonday b) as [|m0 ms] eqn:E; [done|].
  pose proof (highLow_fold (m0 :: ms) (high m0) (low m0)) as H. cbv zeta in H.
  destruct H as [(_ & Hh2 & Hh3) (_ & Hl2 & Hl3)].
  split; [done|]. unfold bandOver. cbn [mondayHigh mondayLow weekEndMs weekStartMs].
  split; [|split; [exact Hh2|split; [|split; [exact Hl2|done]]]].
  - destruct Hh3 as [->|H]; [|exact H]. exists m0. split; [left|done].
  - destruct Hl3 as [->|H]; [|exact H]. exists m0. split; [left|done].
Qed.

#[local] Instance byWeekStart_total : Total byWeekStart.
Proof. intros a b. unfold byWeekStart. lia. Qed.

#[local] Instance byWeekStart_trans : Transitive byWeekStart.
Proof. intros a b c. unfold byWeekStart. lia. Qed.

Lemma omap_weekBand_keys stepMs g :
  map weekStartMs (omap (weekBand stepMs) g) `sublist_of` map fst g.
Proof.
  induction g as [|[k b] g IH]; [done|].
  cbn [omap list_omap map fst].
  pose proof (weekBand_spec stepMs k b) as H.
  destruct (weekBand stepMs (k, b)) as [r|].
  - destruct H as [<- _]. cbn [map]. by apply sublist_skip.
  - by apply sublist_cons.
Qed.

Lemma StronglySorted_strict (rs : list MondayRange) :
  StronglySorted byWeekStart rs → NoDup (map weekStartMs rs) →
  StronglySorted (λ a b, weekStartMs a < weekStartMs b) rs.
Proof.
  induction 1 as [|r rs Hs IH Hall]; intros Hnd; constructor.
  - apply IH. by apply NoDup_cons in Hnd as [_ ?].
  - apply NoDup_cons in Hnd as [Hr _].
    apply Forall_forall. intros x Hx.
    rewrite Forall_forall in Hall. specialize (Hall x Hx). unfold byWeekStart in Hall.
    assert (weekStartMs r ≠ weekStartMs x).
    { intros E. apply Hr. rewrite E. by apply list_elem_of_fmap_2. }
    lia.
Qed.

(** C6: the bands come sorted by ascending week start, one per week; every
    band belongs to a week that has Monday candles, its high and low are the
    largest high and smallest low of that week's Monday candles only, and it
    spans from the week start to one interval step before the next week;
    every week with a Monday candle has its band, so exactly the weeks without
    one are left out. *)
Theorem mondayRanges_spec (displayed : list Candle) (iv : Interval) :
  let rs := mondayRanges displayed iv in
  StronglySorted (λ a b, weekStartMs a < weekStartMs b) rs ∧
  (∀ r, r ∈ rs →
     mondaysOf displayed (weekStartMs r) ≠ [] ∧
     bandOver (INTERVAL_MS iv) r (mondaysOf displayed (weekStartMs r))) ∧
  (∀ k, mondaysOf displayed k ≠ [] → ∃ r, r ∈ rs ∧ weekStartMs r = k).
Proof.
  cbv zeta. unfold mondayRanges.
  destruct displayed as [|c0 cs0] eqn:E.
  { split; [constructor|]. split.
    - intros r Hr. by apply elem_of_nil in Hr.
    - intros k Hk. done. }
  rewrite <- E. clear E c0 cs0.
  destruct (groupByWeek_spec displayed) as (Hnd & Hb & Hk).
  set (g := groupByWeek displayed) in *.
  set (ranges := omap (weekBand (INTERVAL_MS iv)) g).
  pose proof (merge_sort_Permutation byWeekStart ranges) as Hperm.
  split; [|split].
  - apply StronglySorted_strict; [apply StronglySorted_merge_sort; apply _|].
    rewrite Hperm. eapply sublist_NoDup; [exact Hnd|apply omap_weekBand_keys].
  - intros r Hr. rewrite Hperm in Hr.
    apply list_elem_of_omap in Hr as ([k b] & Hin & Hw).
    pose proof (weekBand_spec (INTERVAL_MS iv) k b) as Hs. rewrite Hw in Hs.
    destruct Hs as [Hk' Hband]. unfold mondaysOf.
    rewrite Hk', <- Hb, (bucketOf_elem g k b Hnd Hin).
    split; [|subst k; exact Hband].
    destruct Hband as ((c & Hc & _) & _). intros Hnil. rewrite Hnil in Hc.
    by apply elem_of_nil in Hc.
  - intros k Hne. unfold mondaysOf in Hne. rewrite <- Hb in Hne.
    assert (∃ b, (k, b) ∈ g ∧ bucketOf g k = b) as (b & Hin & Hbk).
    { clear -Hne. induction g as [|[k' b'] g IH]; [done|].
      cbn [bucketOf] in Hne |- *. destruct (k' =? k) eqn:Ek.
      - apply Z.eqb_eq in Ek as ->. exists b'. split; [left|done].
      - destruct (IH Hne) as (b & Hin & Hb). exists b. split; [by right|done]. }
    pose proof (weekBand_spec (INTERVAL_MS iv) k b) as Hs.
    rewrite Hbk in Hne.
    destruct (weekBand (INTERVAL_MS iv) (k, b)) as [r|] eqn:Hw; [|done].
    exists r. split; [|by destruct Hs].
    rewrite Hperm. apply list_elem_of_omap. by exists (k, b).
Qed.

(** *** Replay controller *)

Lemma nearest_loop_range cs target i best bestDiff :
  nearest_loop cs target i best bestDiff = best ∨
  i ≤ nearest_loop cs target i best bestDiff < i + Z.of_nat (length cs).
Proof.
  revert i best bestDiff. induction cs as [|c cs IH]; intros i best bestDiff.
  - by left.
  - cbn [nearest_loop length]. destruct (Qltb _ _).
    + right. destruct (IH (i + 1) i (Qabs (inject_Z (openTime c) - target))) as [->|H]; lia.
    + destruct (IH (i + 1) best bestDiff) as [->|H]; [by left|right; lia].
Qed.

Lemma nearestCandleIndex_range cs target :
  0 ≤ nearestCandleIndex cs target → 0 ≤ nearestCandleIndex cs target ≤ lastIndex cs.
Proof.
  unfold nearestCandleIndex, lastIndex. destruct cs as [|c0 rest]; [lia|].
  intros _. cbn [length].
  destruct (nearest_loop_range rest target 1 0
              (Qabs (inject_Z (openTime c0) - target))) as [->|H]; lia.
Qed.

Lemma replayRun_snoc evs ev :
  replayRun (evs ++ [ev]) = appStep (replayRun evs) ev.
Proof. unfold replayRun. by rewrite fold_left_app. Qed.

Lemma replayStep_inv candles st ev :
  replayInv candles st → replayInv candles (replayStep candles st ev).
Proof.
  intros Hinv. pose proof Hinv as (Hsp & Hst & Hcur). destruct ev; cbn [replayStep].
  - unfold onReplayStartClick. destruct (0 <=? _) eqn:E; [|done].
    apply Z.leb_le in E. split; [done|]. split; cbn; [|done].
    intros j [= <-]. by apply nearestCandleIndex_range.
  - unfold onStartReplay. destruct (replayStartIndex st) as [s0|] eqn:Es; [|done].
    split; [done|]. split; cbn.
    + intros j [= <-]. by apply Hst.
    + destruct (currentReplayIndex st) as [c|] eqn:Ec; intros i [= <-]; [by apply Hcur|by apply Hst].
  - done.
  - unfold onToggleReplay. destruct (replayStartIndex st) as [s0|] eqn:Es; [|done].
    destruct (replayRunning st); [done|].
    unfold onStartReplay. rewrite Es. split; [done|]. split; cbn.
    + intros j [= <-]. by apply Hst.
    + destruct (currentReplayIndex st) as [c|] eqn:Ec; intros i [= <-]; [by apply Hcur|by apply Hst].
  - split; [done|]. split; cbn; done.
  - destruct (timerArmed st); [|done]. unfold tickUpdate.
    destruct (currentReplayIndex st) as [prev|] eqn:Ec; [|done].
    specialize (Hcur prev eq_refl). fold (lastIndex candles).
    destruct (lastIndex candles <=? prev) eqn:E; (split; [done|]; split; cbn; [done|]);
      intros i [= <-]; [lia|]. apply Z.leb_gt in E. lia.
  - case_bool_decide; [|done]. split; [done|]. split; done.
  - split; [done|]. split; done.
Qed.

Lemma appStep_inv st ev :
  replayInv (app_candles st) (app_replay st) →
  keepsIndices st ev →
  replayInv (app_candles (appStep st ev)) (app_replay (appStep st ev)).
Proof.
  intros Hinv Hkeep. destruct ev as [ev|fetched|fetched]; cbn [appStep onLoad onSync app_candles app_replay].
  - by apply replayStep_inv.
  - destruct Hinv as (Hsp & _ & _). split; [done|]. split; cbn; done.
  - destruct Hinv as (Hsp & Hst & Hcur). destruct Hkeep as [Kst Kcur].
    split; [done|]. split.
    + intros j Hj. specialize (Hst j Hj). specialize (Kst j Hj). lia.
    + intros i Hi. specialize (Hcur i Hi). specialize (Kcur i Hi). lia.
Qed.

Lemma appRun_inv evs : ∀ st,
  replayInv (app_candles st) (app_replay st) →
  syncsKeepIndices st evs →
  replayInv (app_candles (fold_left appStep evs st)) (app_replay (fold_left appStep evs st)).
Proof.
  induction evs as [|ev evs IH]; intros st Hinv Hkeep; [done|].
  destruct Hkeep as [Hev Hrest]. cbn [fold_left]. apply IH; [|done].
  by apply appStep_inv.
Qed.

Lemma replayRun_inv evs :
  syncsKeepIndices initialApp evs →
  replayInv (app_candles (replayRun evs)) (app_replay (replayRun evs)).
Proof.
  intros Hkeep. apply appRun_inv; [|done].
  split; [|split; cbn; done]. cbn. unfold SPEEDS. set_solver.
Qed.

(** Whatever the candles become, the speed is one of the offered ones and
    the indices are never negative. *)
Lemma replayStep_nonneg candles st ev :
  (speed st ∈ SPEEDS ∧ (∀ j, replayStartIndex st = Some j → 0 ≤ j) ∧
   (∀ i, currentReplayIndex st = Some i → 0 ≤ i)) →
  let st' := replayStep candles st ev in
  speed st' ∈ SPEEDS ∧ (∀ j, replayStartIndex st' = Some j → 0 ≤ j) ∧
  (∀ i, currentReplayIndex st' = Some i → 0 ≤ i).
Proof.
  intros (Hsp & Hst & Hcur). cbv zeta.
  destruct ev; cbn [replayStep];
    unfold onReplayStartClick, onToggleReplay, onStartReplay, onPauseReplay,
      onResetReplay, tickUpdate;
    repeat case_match; cbn; split_and!; try done; try (intros k Hk; simplify_eq; auto).
  - by apply Z.leb_le.
  - match goal with |- 0 ≤ ?z + 1 => assert (0 ≤ z) by auto; lia end.
  - by case_bool_decide.
Qed.

Lemma replayRun_nonneg evs :
  let st := app_replay (replayRun evs) in
  speed st ∈ SPEEDS ∧ (∀ j, replayStartIndex st = Some j → 0 ≤ j) ∧
  (∀ i, currentReplayIndex st = Some i → 0 ≤ i).
Proof.
  cbv zeta. induction evs as [|ev evs IH] using rev_ind.
  - split; [|split; cbn; done]. cbn. unfold SPEEDS. set_solver.
  - rewrite replayRun_snoc. destruct ev as [ev|fetched|fetched]; cbn [appStep onLoad onSync app_replay].
    + by apply replayStep_nonneg.
    + destruct IH as (Hsp & _ & _). split; [done|]. split; cbn; done.
    + done.
Qed.




(** The scenario of three one-step candles: start on the first, two ticks
    reach the last, the third tick pauses there. *)
Example replay_three_candles :
  let run evs := app_replay (replayRun (LoadDone threeBars :: map Control evs)) in
  currentReplayIndex (run [ClickReplayStart 0; StartReplay]) = Some 0 ∧
  currentReplayIndex (run [ClickReplayStart 0; StartReplay; TimerTick]) = Some 1 ∧
  run [ClickReplayStart 0; StartReplay; TimerTick; TimerTick; TimerTick]
  = {| replayStartIndex := Some 0; currentReplayIndex := Some 2;
       replayRunning := false; speed := 2; autoFollow := true |} ∧
  timerDelay 1 = 1000 ∧ timerDelay 10 = 100.
Proof. vm_compute. repeat split; reflexivity. Qed.

(** *** Dragging the handles of a position *)

Lemma dragPoints_spec iv h dp prev :
  (4 ≤ length prev)%nat →
  ∃ next, dragPoints iv h dp prev = Some next ∧ draggedFrom iv h dp prev next.
Proof.
  intros Hlen.
  destruct prev as [|p0 [|p1 [|p2 [|p3 rest]]]]; cbn [length] in Hlen; try lia.
  cbn [dragPoints]. eexists. split; [reflexivity|].
  destruct h; cbn [draggedFrom].
  - split; [|by exists p2]. split; [done|].
    intros [|[|[|j]]] Hj; done.
  - split; [|by exists p1]. split; [done|].
    intros [|[|j]] Hj; done.
  - split.
    + split; [done|]. intros [|[|[|[|j]]]] Hj; done.
    + exists p0, p3. split; [done|]. split; [done|]. cbv zeta. split; [done|].
      eexists _, _. split; [done|]. split; [done|]. cbn [time].
      apply Q.le_max_l.
Qed.

Lemma find_map_by_id (id : Z) (f : Drawing → Drawing) (ds : list Drawing) :
  (∀ x, drawing_id (f x) = drawing_id x) →
  List.find (λ x, drawing_id x =? id) (map (λ x, if drawing_id x =? id then f x else x) ds)
  = f <$> List.find (λ x, drawing_id x =? id) ds.
Proof.
  intros Hf. induction ds as [|x ds IH]; [done|]. cbn [List.find map].
  destruct (drawing_id x =? id) eqn:E.
  - by rewrite Hf, E.
  - by rewrite E.
Qed.

(** C10: dragging a handle of the selected long or short position (four
    points) changes only the price of the third point for the take-profit
    handle and only the price of the second point for the stop-loss handle;
    the time handle sets the time of the fourth point to
    max(entry time + interval step, pointer time), so that afterwards the
    fourth point is at least one step after the first. *)
Theorem position_drag_spec iv h dp st selected :
  selectedDrawing st = Some selected →
  isPosition (type selected) = true →
  (4 ≤ length (points selected))%nat →
  ∃ moved, selectedDrawing (onCanvasMove iv h (Some dp) st) = Some moved ∧
           draggedFrom iv h dp (points selected) (points moved).
Proof.
  intros Hsel Hpos Hlen.
  destruct (dragPoints_spec iv h dp (points selected) Hlen) as (next & Hnext & Hrel).
  unfold onCanvasMove. rewrite Hsel, Hpos, Hnext.
  exists (withPoints selected next). split; [|exact Hrel].
  unfold selectedDrawing in *. cbn [selectedDrawingId drawings].
  destruct (selectedDrawingId st) as [sel|]; [|done].
  pose proof (find_some _ _ Hsel) as [_ Hid]. apply Z.eqb_eq in Hid. rewrite Hid.
  rewrite (find_map_by_id sel (λ d, withPoints d next)) by done.
  by rewrite Hsel.
Qed.

Lemma position_drag_spec_witness :
  ∃ moved,
    selectedDrawing (onCanvasMove I5m handle_time (Some {| time := 5; price := 3 |}) sampleStore)
      = Some moved ∧
    draggedFrom I5m handle_time {| time := 5; price := 3 |} (points samplePosition) (points moved).
Proof.
  apply (position_drag_spec I5m handle_time {| time := 5; price := 3 |} sampleStore samplePosition).
  - reflexivity.
  - reflexivity.
  - simpl. lia.
Defined.

(** *** The annotation store and its persistence *)

(** C2 (as amended): create and delete touch the in-memory drawings only
    after the persistence call succeeded: when it fails the store is unchanged
    and the handler rejects. Style patches and drag edits of points are applied
    to the local copy before the call, so after a failed call the drawings
    are those a successful call leaves. *)
Theorem store_commit_after_persist post put_style put_points del iv m st :
  persistenceFails post put_style put_points del m →
  if persistsFirst m
  then mutate post put_style put_points del iv m st = Rejected st
  else ∀ put_style' put_points',
         drawings (storeOf (mutate post put_style put_points del iv m st)) =
         drawings (storeOf (mutate post put_style' put_points' del iv m st)).
Proof.
  intros Hfail. destruct m as [t pts|patch|h dp|id]; cbn [persistsFirst mutate].
  - unfold saveDrawing. cbn [persistenceFails] in Hfail. by rewrite Hfail.
  - intros put_style' put_points'. unfold updateSelectedDrawingStyle.
    destruct (selectedDrawing st) as [selected|]; [|done].
    destruct (put_style _ _), (put_style' _ _); done.
  - intros put_style' put_points'. unfold onCanvasMouseUp.
    destruct (selectedDrawing _) as [selected|]; [|done].
    destruct (put_points _ _), (put_points' _ _); done.
  - unfold onDeleteDrawing. cbn [persistenceFails] in Hfail. by rewrite Hfail.
Qed.

Lemma store_commit_after_persist_witness :
  mutate (λ _, ApiError) (λ _ _, ApiError) (λ _ _, ApiError) (λ _, ApiError) I5m
    (Delete 7) sampleStore = Rejected sampleStore.
Proof.
  apply (store_commit_after_persist (λ _, ApiError) (λ _ _, ApiError) (λ _ _, ApiError)
           (λ _, ApiError) I5m (Delete 7) sampleStore).
  reflexivity.
Defined.

(** C2 as stated fails for a style patch: the persistence call fails and the
    local drawing has the new colour all the same. *)
Lemma style_patch_failure_counterexample :
  let failing_post : DrawingBody → ApiResult Drawing := λ _, ApiError in
  let failing_put_style : Z → Style → ApiResult unit := λ _ _, ApiError in
  let failing_put_points : Z → list DrawingPoint → ApiResult unit := λ _ _, ApiError in
  let failing_delete : Z → ApiResult unit := λ _, ApiError in
  let m := PatchStyle {[ "color" := SString "#ff0000" ]} in
  persistenceFails failing_post failing_put_style failing_put_points failing_delete m ∧
  drawings (storeOf (mutate failing_post failing_put_style failing_put_points failing_delete
                       I5m m sampleStore))
    ≠ drawings sampleStore.
Proof.
  cbv zeta. split; [done|]. intros H.
  apply (f_equal (λ ds, (λ d, style d !! "color") <$> head ds)) in H.
  vm_compute in H. discriminate.
Qed.

(** *** The update endpoint of the drawings *)

(** C3 (as amended): after an accepted patch the stored type is the type
    named in the patch body when there is one and the previous type otherwise,
    and likewise the symbol for a non-empty symbol in the body. *)
Theorem putDrawing_type_symbol nowTs id fields tbl d row tbl' :
  rowOf tbl id = Some d →
  putDrawing nowTs id fields tbl = (Status200 row, tbl') →
  rowOf tbl' id = Some row ∧
  type row = default (type d) (patch_type fields) ∧
  drawing_symbol row = default (drawing_symbol d) (truthy (patch_symbol fields)).
Proof.
  unfold rowOf, putDrawing. intros Hd.
  destruct (negb (patchValid fields)); [done|].
  destruct (noSets fields); [done|].
  rewrite (find_map_by_id id (applySets nowTs fields)) by done.
  rewrite Hd. cbn [fmap option_fmap option_map]. intros [= <- <-].
  rewrite (find_map_by_id id (applySets nowTs fields)) by done.
  rewrite Hd. done.
Qed.

(** C3 as stated fails for a patch body that names a type and a symbol. *)
Lemma putDrawing_retype_counterexample :
  ∃ row tbl',
    rowOf [sampleLine] 3 = Some sampleLine ∧
    putDrawing 2 3 retypePatch [sampleLine] = (Status200 row, tbl') ∧
    type row ≠ type sampleLine ∧ drawing_symbol row ≠ drawing_symbol sampleLine.
Proof.
  eexists _, _. split; [reflexivity|]. split; [reflexivity|].
  split; cbn; discriminate.
Qed.

Lemma putDrawing_type_symbol_witness :
  let row := applySets 2 retypePatch sampleLine in
  rowOf [row] 3 = Some row ∧
  type row = default (type sampleLine) (patch_type retypePatch) ∧
  drawing_symbol row = default (drawing_symbol sampleLine) (truthy (patch_symbol retypePatch)).
Proof.
  apply (putDrawing_type_symbol 2 3 retypePatch [sampleLine] sampleLine); reflexivity.
Defined.

(** *** The sync run: cursor and termination *)

Lemma maxOpenTimeOf_spec tbl sym iv :
  match maxOpenTimeOf tbl sym iv with
  | None => ∀ c, c ∈ tbl → ¬ (symbol c = sym ∧ interval c = iv)
  | Some m =>
      (∃ c, c ∈ tbl ∧ symbol c = sym ∧ interval c = iv ∧ openTime c = m) ∧
      (∀ c, c ∈ tbl → symbol c = sym → interval c = iv → openTime c ≤ m)
  end.
Proof.
  unfold maxOpenTimeOf.
  set (P := λ c : Candle, symbol c = sym ∧ interval c = iv).
  assert (Hfold : ∀ rest m0,
    let m := fold_left (λ m c, Z.max m (openTime c)) rest m0 in
    m0 ≤ m ∧ (∀ c, c ∈ rest → openTime c ≤ m) ∧ (m = m0 ∨ ∃ c, c ∈ rest ∧ openTime c = m)).
  { induction rest as [|x rest IH]; intros m0; cbn [fold_left].
    - split; [lia|]. split; [|by left]. intros c Hc. by apply elem_of_nil in Hc.
    - destruct (IH (Z.max m0 (openTime x))) as (H1 & H2 & H3). split; [lia|]. split.
      + intros c Hc. apply elem_of_cons in Hc as [->|Hc]; [lia|by apply H2].
      + destruct H3 as [H3|(c & Hc & H3)].
        * destruct (Z.max_spec m0 (openTime x)) as [[_ E]|[_ E]].
          -- right. exists x. split; [left|]. lia.
          -- left. lia.
        * right. exists c. split; [by right|done]. }
  destruct (filter P tbl) as [|c0 rest] eqn:E.
  - intros c Hc HP. assert (c ∈ filter P tbl) as Hin by (apply list_elem_of_filter; done).
    rewrite E in Hin. by apply elem_of_nil in Hin.
  - destruct (Hfold rest (openTime c0)) as (H1 & H2 & H3).
    assert (Hsub : ∀ c, c ∈ c0 :: rest → c ∈ tbl ∧ P c).
    { intros c Hc. rewrite <- E in Hc. apply list_elem_of_filter in Hc. tauto. }
    split.
    + destruct H3 as [H3|(c & Hc & H3)].
      * exists c0. destruct (Hsub c0) as (? & ? & ?); [left|]. done.
      * exists c. destruct (Hsub c) as (? & ? & ?); [by right|]. done.
    + intros c Hc Hs Hi.
      assert (c ∈ c0 :: rest) as Hin.
      { rewrite <- E. apply list_elem_of_filter. done. }
      apply elem_of_cons in Hin as [->|Hin]; [lia|by apply H2].
Qed.

Lemma fetchKlines_honours klines sym iv startTime endTime limit batch :
  honoursStart klines →
  fetchKlines klines sym iv startTime endTime limit = Some batch →
  Forall (λ c, startTime ≤ openTime c) batch.
Proof.
  intros Hk. unfold fetchKlines.
  destruct (klines sym iv startTime endTime limit) as [rows|] eqn:E; [|done].
  intros [= <-]. apply Forall_fmap. eapply Forall_impl; [exact (Hk _ _ _ _ _ _ E)|].
  by intros row Hrow.
Qed.

Lemma syncPage_Next klines now sym iv cursor inserted tbl c' i' t' :
  syncPage klines now sym iv cursor inserted tbl = Next c' i' t' →
  ∃ batch lastFetched,
    fetchKlines klines sym iv cursor now pageLimit = Some batch ∧
    last batch = Some lastFetched ∧
    pageLimit ≤ Z.of_nat (length batch) ∧
    c' = openTime lastFetched + INTERVAL_MS iv ∧
    i' = inserted + Z.of_nat (length batch) ∧
    t' = fold_left insertIgnore batch tbl.
Proof.
  unfold syncPage. destruct (fetchKlines _ _ _ _ _ _) as [batch|] eqn:Hf; [|done].
  destruct (last batch) as [lastFetched|] eqn:Hl; [|done].
  destruct (_ <? pageLimit) eqn:E; [done|]. apply Z.ltb_ge in E.
  intros [= <- <- <-]. by exists batch, lastFetched.
Qed.








Lemma sampleKlines_honoursStart : honoursStart sampleKlines.
Proof.
  intros sym iv startTime endTime limit rows [= <-].
  apply Forall_take, Forall_forall. intros row Hrow.
  apply list_elem_of_filter in Hrow. tauto.
Qed.




(** *** The sync run: upsert and the reported count *)

Lemma insertIgnore_NoDup tbl c :
  NoDup (map candleKey tbl) → NoDup (map candleKey (insertIgnore tbl c)).
Proof.
  intros Hnd. unfold insertIgnore. case_bool_decide as Hin; [done|].
  rewrite map_app. apply NoDup_app. split; [done|]. split; [|apply NoDup_singleton].
  intros k Hk Hk'. apply list_elem_of_singleton in Hk' as ->. done.
Qed.

Lemma insertIgnore_present tbl c :
  candleKey c ∈ map candleKey tbl → insertIgnore tbl c = tbl.
Proof. intros Hin. unfold insertIgnore. by rewrite bool_decide_eq_true_2. Qed.

Lemma insertIgnore_prefix tbl c : tbl `prefix_of` insertIgnore tbl c.
Proof.
  unfold insertIgnore. case_bool_decide; [done|]. by apply prefix_app_r.
Qed.

Lemma upsert_batch_NoDup batch tbl :
  NoDup (map candleKey tbl) → NoDup (map candleKey (fold_left insertIgnore batch tbl)).
Proof.
  revert tbl. induction batch as [|c batch IH]; intros tbl Hnd; [done|].
  cbn [fold_left]. apply IH. by apply insertIgnore_NoDup.
Qed.

Lemma upsert_batch_prefix batch tbl : tbl `prefix_of` fold_left insertIgnore batch tbl.
Proof.
  revert tbl. induction batch as [|c batch IH]; intros tbl; [done|].
  cbn [fold_left]. etrans; [apply insertIgnore_prefix|apply IH].
Qed.

Lemma upsert_batch_present batch tbl :
  (∀ c, c ∈ batch → candleKey c ∈ map candleKey tbl) →
  fold_left insertIgnore batch tbl = tbl.
Proof.
  induction batch as [|c batch IH]; intros Hall; [done|].
  cbn [fold_left]. rewrite insertIgnore_present by (apply Hall; left).
  apply IH. intros c' Hc'. apply Hall. by right.
Qed.

Lemma syncPage_table klines now sym iv cursor inserted tbl :
  match syncPage klines now sym iv cursor inserted tbl with
  | Break _ _ tbl' | Next _ _ tbl' | Throw tbl' =>
      tbl `prefix_of` tbl' ∧ (NoDup (map candleKey tbl) → NoDup (map candleKey tbl'))
  end.
Proof.
  unfold syncPage. destruct (fetchKlines _ _ _ _ _ _) as [batch|]; [|done].
  destruct (last batch); [|done].
  destruct (_ <? pageLimit); (split; [apply upsert_batch_prefix|apply upsert_batch_NoDup]).
Qed.

Lemma syncLoop_table klines now sym iv fuel cursor inserted tbl r :
  syncLoop klines now sym iv fuel cursor inserted tbl = Some r →
  tbl `prefix_of` tableOf r ∧ (NoDup (map candleKey tbl) → NoDup (map candleKey (tableOf r))).
Proof.
  revert cursor inserted tbl. induction fuel as [|fuel IH]; intros cursor inserted tbl;
    cbn [syncLoop]; destruct (cursor <? now); try done.
  - by intros [= <-].
  - pose proof (syncPage_table klines now sym iv cursor inserted tbl) as Hp.
    destruct (syncPage klines now sym iv cursor inserted tbl) as [c' i' t'|c' i' t'|t'].
    + by intros [= <-].
    + intros Hr. destruct (IH _ _ _ Hr) as [H1 H2]. destruct Hp as [P1 P2].
      split; [by etrans|auto].
    + by intros [= <-].
  - by intros [= <-].
Qed.

(** One row per key after any run, and no stored row is touched. *)
Lemma sync_keys_unique klines now sym iv fuel tbl r :
  NoDup (map candleKey tbl) →
  sync klines now sym iv fuel tbl = Some r →
  NoDup (map candleKey (tableOf r)) ∧ tbl `prefix_of` tableOf r.
Proof.
  intros Hnd Hr. apply syncLoop_table in Hr as [H1 H2]. auto.
Qed.

(** A page whose rows are all stored already leaves the table as it is and
    still adds its length to the count. *)
Lemma syncPage_refetch klines now sym iv cursor inserted tbl batch :
  fetchKlines klines sym iv cursor now pageLimit = Some batch →
  batch ≠ [] →
  (∀ c, c ∈ batch → candleKey c ∈ map candleKey tbl) →
  ∃ cursor',
    (syncPage klines now sym iv cursor inserted tbl
       = Break cursor' (inserted + Z.of_nat (length batch)) tbl ∨
     syncPage klines now sym iv cursor inserted tbl
       = Next cursor' (inserted + Z.of_nat (length batch)) tbl).
Proof.
  intros Hf Hne Hall. unfold syncPage. rewrite Hf.
  destruct (last batch) as [lastFetched|] eqn:Hl.
  - rewrite (upsert_batch_present batch tbl Hall).
    exists (openTime lastFetched + INTERVAL_MS iv).
    destruct (_ <? pageLimit); [by left|by right].
  - apply last_None in Hl. done.
Qed.

(** C1, evaluated: a first run stores the three upstream bars and reports 3;
    a second run a minute later, with nothing new upstream, leaves the table
    as it is, one row per key, yet reports [inserted] = 2 for the two bars it
    fetched again. *)
Theorem sync_twice_reports_refetched_rows :
  sync sampleKlines sampleNow "BTCUSDT" I5m 1 [] = Some (SyncOk 3 sampleTable) ∧
  NoDup (map candleKey sampleTable) ∧
  sync sampleKlines (sampleNow + 60000) "BTCUSDT" I5m 1 sampleTable
    = Some (SyncOk 2 sampleTable).
Proof.
  assert (H1 : sync sampleKlines sampleNow "BTCUSDT" I5m 1 [] = Some (SyncOk 3 sampleTable)).
  { vm_compute. reflexivity. }
  split; [exact H1|]. split.
  - exact (proj1 (sync_keys_unique sampleKlines sampleNow "BTCUSDT" I5m 1 []
                    (SyncOk 3 sampleTable) (NoDup_nil_2) H1)).
  - vm_compute. reflexivity.
Qed.

(** ** Further properties of the code *)

(** *** Nearest candle, the mapper on an ascending series, and the replay index *)

Lemma nearest_loop_spec rest : ∀ pre t b cb,
  pre !! b = Some cb →
  (∀ j c', pre !! j = Some c' → (openDistance cb t <= openDistance c' t)%Q) →
  (∀ j c', (j < b)%nat → pre !! j = Some c' → (openDistance cb t < openDistance c' t)%Q) →
  ∃ i, nearest_loop rest t (Z.of_nat (length pre)) (Z.of_nat b) (openDistance cb t) = Z.of_nat i ∧
       firstNearest (pre ++ rest) t i.
Proof.
  induction rest as [|c rest IH]; intros pre t b cb Hb Hmin Hfirst.
  - exists b. split; [done|]. rewrite app_nil_r. by exists cb.
  - cbn [nearest_loop]. fold (openDistance c t).
    replace (Z.of_nat (length pre) + 1) with (Z.of_nat (length (pre ++ [c])))
      by (rewrite length_app; cbn; lia).
    rewrite (cons_middle c pre rest), app_assoc.
    destruct (Qltb (openDistance c t) (openDistance cb t)) eqn:E.
    + apply Qltb_true in E.
      apply (IH (pre ++ [c]) t (length pre) c).
      * rewrite lookup_app_r by lia. by rewrite Nat.sub_diag.
      * intros j c' Hj. apply lookup_app_Some in Hj as [Hj|[_ Hj]].
        -- specialize (Hmin j c' Hj). lra.
        -- destruct (j - length pre)%nat; simplify_eq/=; lra.
      * intros j c' Hlt Hj. rewrite lookup_app_l in Hj by done.
        specialize (Hmin j c' Hj). lra.
    + apply Qltb_false in E.
      apply (IH (pre ++ [c]) t b cb).
      * apply lookup_app_l_Some. done.
      * intros j c' Hj. apply lookup_app_Some in Hj as [Hj|[_ Hj]].
        -- by apply (Hmin j).
        -- destruct (j - length pre)%nat; simplify_eq/=; lra.
      * intros j c' Hlt Hj. apply lookup_app_Some in Hj as [Hj|[Hge _]].
        -- by apply (Hfirst j).
        -- apply lookup_lt_Some in Hb. lia.
Qed.

Lemma nearestCandleIndex_firstNearest (cs : list Candle) (t : Q) :
  match cs with
  | [] => nearestCandleIndex cs t = -1
  | _ :: _ => ∃ i, nearestCandleIndex cs t = Z.of_nat i ∧ firstNearest cs t i
  end.
Proof.
  destruct cs as [|c0 rest]; [reflexivity|].
  unfold nearestCandleIndex. fold (openDistance c0 t).
  apply (nearest_loop_spec rest [c0] t 0%nat c0).
  - done.
  - intros [|j] c' Hj; simplify_eq/=. lra.
  - intros j c' Hlt. lia.
Qed.

(** X1: on an empty series the nearest index is -1; otherwise it is the index
    of a candle whose open time is nearest to the target, the first one
    when several are equally near. *)
Theorem nearestCandleIndex_nearest (cs : list Candle) (t : Q) :
  (cs = [] → nearestCandleIndex cs t = -1) ∧
  (cs ≠ [] → ∃ i, nearestCandleIndex cs t = Z.of_nat i ∧ firstNearest cs t i).
Proof.
  pose proof (nearestCandleIndex_firstNearest cs t) as H.
  destruct cs; split; try done.
Qed.

Lemma ascending_lookup cs i j a b :
  ascending cs → cs !! i = Some a → cs !! j = Some b → (i < j)%nat → openTime a < openTime b.
Proof.
  intros Hs. revert i j. induction Hs as [|x l Hs IH Hall]; intros i j Hi Hj Hlt; [done|].
  destruct j as [|j]; [lia|]. cbn in Hj. destruct i as [|i].
  - cbn in Hi. simplify_eq. rewrite Forall_forall in Hall. apply Hall.
    by eapply list_elem_of_lookup_2.
  - cbn in Hi. apply (IH i j); [done|done|lia].
Qed.

Lemma ascending_index cs i j a b :
  ascending cs → cs !! i = Some a → cs !! j = Some b → openTime a = openTime b → i = j.
Proof.
  intros Hs Hi Hj Heq. destruct (Nat.lt_trichotomy i j) as [H|[H|H]]; [|done|].
  - pose proof (ascending_lookup cs i j a b Hs Hi Hj H). lia.
  - pose proof (ascending_lookup cs j i b a Hs Hj Hi H). lia.
Qed.

Lemma Math_round_integer (n : Z) : Math_round (inject_Z n) = n.
Proof.
  unfold Math_round. apply Qfloor_unique; lra.
Qed.

Lemma logicalToTimeMs_index cs cur iv i c :
  cs !! i = Some c →
  logicalToTimeMs cs cur iv (Fin (inject_Z (Z.of_nat i))) = Some (openTime c).
Proof.
  intros Hi. unfold logicalToTimeMs. rewrite Math_round_integer.
  pose proof (lookup_lt_Some _ _ _ Hi) as Hlt.
  rewrite (proj2 (Z.ltb_lt 0 _)) by lia.
  rewrite (proj2 (Z.leb_le 0 _)) by lia.
  rewrite (proj2 (Z.ltb_lt _ _)) by lia.
  cbn [andb]. rewrite Nat2Z.id, Hi. done.
Qed.

Lemma openDistance_self c : (openDistance c (inject_Z (openTime c)) == 0)%Q.
Proof.
  unfold openDistance.
  apply Qle_antisym; [|apply Qabs_nonneg].
  apply Qabs_Qle_condition. split; lra.
Qed.

Lemma openDistance_zero_inv c c' :
  (openDistance c (inject_Z (openTime c')) <= 0)%Q → openTime c = openTime c'.
Proof.
  unfold openDistance. intros H. apply Qabs_Qle_condition in H as [H1 H2].
  assert (inject_Z (openTime c) == inject_Z (openTime c'))%Q as E' by lra.
  by apply inject_Z_injective.
Qed.

Lemma first_is_least cs c0 i c :
  ascending cs → head cs = Some c0 → cs !! i = Some c → openTime c0 ≤ openTime c.
Proof.
  intros Hs Hh Hi. destruct cs as [|x l]; [done|]. cbn in Hh. simplify_eq.
  destruct i as [|i]; [cbn in Hi; simplify_eq; lia|].
  pose proof (ascending_lookup (c0 :: l) 0 (S i) c0 c Hs eq_refl Hi). lia.
Qed.

Lemma last_is_greatest cs cl i c :
  ascending cs → last cs = Some cl → cs !! i = Some c → openTime c ≤ openTime cl.
Proof.
  intros Hs Hl Hi. rewrite last_lookup in Hl.
  pose proof (lookup_lt_Some _ _ _ Hi).
  destruct (decide (i = pred (length cs))) as [->|Hne]; [simplify_eq; lia|].
  pose proof (ascending_lookup cs i (pred (length cs)) c cl Hs Hi Hl). lia.
Qed.

(** X2: on a strictly ascending series, an index in range maps to the open
    time of its candle, and that open time maps back to the index. *)
Theorem index_time_round_trip cs cur iv i c :
  ascending cs →
  cs !! i = Some c →
  logicalToTimeMs cs cur iv (Fin (inject_Z (Z.of_nat i))) = Some (openTime c) ∧
  ∃ l, timeMsToLogical cs iv (Fin (inject_Z (openTime c))) = Some l ∧
       (l == inject_Z (Z.of_nat i))%Q.
Proof.
  intros Hs Hi. split; [by apply logicalToTimeMs_index|].
  pose proof (INTERVAL_MS_pos iv) as Hstep.
  assert (Hsq : (0 < inject_Z (INTERVAL_MS iv))%Q).
  { change 0%Q with (inject_Z 0). by rewrite <- Zlt_Qlt. }
  unfold timeMsToLogical.
  destruct cs as [|c0 cs'] eqn:Ecs; [done|]. rewrite <- Ecs in *.
  assert (Hh : head cs = Some c0) by (by rewrite Ecs).
  destruct (last cs) as [cl|] eqn:Hl; [|apply last_None in Hl; congruence].
  rewrite (List_last_stdpp cs c0 cl Hl).
  pose proof (first_is_least cs c0 i c Hs Hh Hi) as Hlo.
  pose proof (last_is_greatest cs cl i c Hs Hl Hi) as Hhi.
  destruct (Qle_bool (inject_Z (openTime c)) (inject_Z (openTime c0))) eqn:E1.
  - apply Qle_bool_iff in E1. rewrite <- Zle_Qle in E1.
    assert (i = 0)%nat as ->.
    { apply (ascending_index cs i 0 c c0 Hs Hi); [by rewrite Ecs|lia]. }
    assert (c = c0) as -> by (rewrite Ecs in Hi; by simplify_eq/=).
    eexists. split; [done|]. cbn. field. lra.
  - apply Qle_bool_false in E1. rewrite <- Zlt_Qlt in E1.
    destruct (Qle_bool (inject_Z (openTime cl)) (inject_Z (openTime c))) eqn:E2.
    + apply Qle_bool_iff in E2. rewrite <- Zle_Qle in E2.
      rewrite last_lookup in Hl.
      assert (i = pred (length cs)).
      { apply (ascending_index cs i _ c cl Hs Hi Hl). lia. }
      assert (c = cl) as -> by (subst i; congruence).
      eexists. split; [done|].
      pose proof (lookup_lt_Some _ _ _ Hi).
      replace (Z.of_nat (length cs) - 1) with (Z.of_nat i) by lia. field. lra.
    + pose proof (nearestCandleIndex_firstNearest cs (inject_Z (openTime c))) as Hn.
      rewrite Ecs in Hn. rewrite <- Ecs in Hn.
      destruct Hn as (k & Hk & ck & Hck & Hmin & _).
      rewrite Hk. rewrite (proj2 (Z.leb_le 0 _)) by lia.
      eexists. split; [done|].
      specialize (Hmin i c Hi). pose proof (openDistance_self c) as H0.
      assert (openTime ck = openTime c) as Heq by (apply openDistance_zero_inv; lra).
      by rewrite (ascending_index cs k i ck c Hs Hck Hi Heq).
Qed.

(** X3: strictly between the first and the last loaded candle, a time maps to
    the index of the first nearest candle, and back to that candle's open
    time, whatever the replay hides. *)
Theorem interior_time_snaps_to_nearest cs cur iv c0 cl (t : Q) :
  head cs = Some c0 → last cs = Some cl →
  (inject_Z (openTime c0) < t)%Q → (t < inject_Z (openTime cl))%Q →
  ∃ i c, firstNearest cs t i ∧ cs !! i = Some c ∧
         timeMsToLogical cs iv (Fin t) = Some (inject_Z (Z.of_nat i)) ∧
         roundTrip cs cur iv (Fin t) = Some (openTime c).
Proof.
  intros Hh Hl H1 H2.
  pose proof (nearestCandleIndex_firstNearest cs t) as Hn.
  destruct cs as [|c cs'] eqn:Ecs; [done|]. rewrite <- Ecs in *.
  assert (c = c0) as -> by (rewrite Ecs in Hh; by simplify_eq/=).
  destruct Hn as (i & Hi & Hfn). pose proof Hfn as (ci & Hci & _).
  exists i, ci. split; [done|]. split; [done|].
  assert (Ht : timeMsToLogical cs iv (Fin t) = Some (inject_Z (Z.of_nat i))).
  { unfold timeMsToLogical. rewrite Ecs. rewrite <- Ecs.
    rewrite (List_last_stdpp cs c0 cl Hl).
    destruct (Qle_bool t (inject_Z (openTime c0))) eqn:E1.
    { apply Qle_bool_iff in E1. lra. }
    destruct (Qle_bool (inject_Z (openTime cl)) t) eqn:E2.
    { apply Qle_bool_iff in E2. lra. }
    rewrite Hi. by rewrite (proj2 (Z.leb_le 0 _)) by lia. }
  split; [done|]. unfold roundTrip. rewrite Ht. cbn.
  by apply logicalToTimeMs_index.
Qed.

Lemma interior_time_snaps_to_nearest_witness :
  ∃ i c, firstNearest [bar 0 0 0 0; bar 300000 0 0 0; bar 600000 0 0 0] 400000 i ∧
         [bar 0 0 0 0; bar 300000 0 0 0; bar 600000 0 0 0] !! i = Some c ∧
         timeMsToLogical [bar 0 0 0 0; bar 300000 0 0 0; bar 600000 0 0 0] I5m (Fin 400000)
           = Some (inject_Z (Z.of_nat i)) ∧
         roundTrip [bar 0 0 0 0; bar 300000 0 0 0; bar 600000 0 0 0] (Some 0) I5m (Fin 400000)
           = Some (openTime c).
Proof.
  apply (interior_time_snaps_to_nearest _ (Some 0) I5m (bar 0 0 0 0) (bar 600000 0 0 0)).
  - reflexivity.
  - reflexivity.
  - reflexivity.
  - reflexivity.
Defined.

Lemma index_time_round_trip_witness :
  logicalToTimeMs [bar 0 0 0 0; bar 300000 0 0 0; bar 600000 0 0 0] None I5m
    (Fin (inject_Z (Z.of_nat 1))) = Some (openTime (bar 300000 0 0 0)) ∧
  ∃ l, timeMsToLogical [bar 0 0 0 0; bar 300000 0 0 0; bar 600000 0 0 0] I5m
         (Fin (inject_Z (openTime (bar 300000 0 0 0)))) = Some l ∧
       (l == inject_Z (Z.of_nat 1))%Q.
Proof.
  apply (index_time_round_trip [bar 0 0 0 0; bar 300000 0 0 0; bar 600000 0 0 0] None I5m 1
           (bar 300000 0 0 0)).
  - repeat constructor; cbn; lia.
  - reflexivity.
Defined.

Lemma replayStep_ordered candles st ev :
  replayOrdered st → replayOrdered (replayStep candles st ev).
Proof.
  intros Hinv. pose proof Hinv as (Hrun & Hcur).
  assert (Hstart : ∀ s0, replayStartIndex st = Some s0 → replayOrdered (onStartReplay st)).
  { intros s0 Es. unfold onStartReplay. rewrite Es. split; cbn.
    - intros _. destruct (currentReplayIndex st); eauto.
    - destruct (currentReplayIndex st) as [c|] eqn:Ec; intros i [= <-].
      + destruct (Hcur c eq_refl) as (j & Hj & Hle). exists s0. split; [done|]. congruence.
      + exists s0. split; [done|lia]. }
  destruct ev; cbn [replayStep].
  - unfold onReplayStartClick. destruct (0 <=? _); [|done]. split; cbn; done.
  - unfold onStartReplay. destruct (replayStartIndex st) as [s0|] eqn:Es; [|done].
    specialize (Hstart s0 eq_refl). unfold onStartReplay in Hstart. by rewrite Es in Hstart.
  - split; cbn; done.
  - unfold onToggleReplay. destruct (replayStartIndex st) as [s0|] eqn:Es; [|done].
    destruct (replayRunning st); [split; cbn; [done|by rewrite Es]|]. by apply (Hstart s0).
  - split; cbn; done.
  - destruct (timerArmed st) eqn:Ht; [|done]. unfold tickUpdate.
    destruct (currentReplayIndex st) as [prev|] eqn:Ec; [|done].
    destruct (Hcur prev eq_refl) as (j & Hj & Hle).
    destruct (_ <=? prev).
    + split; cbn; [done|]. intros i [= <-]. eauto.
    + split; cbn.
      * intros _. eauto.
      * intros i [= <-]. exists j. split; [done|lia].
  - case_bool_decide; [|done]. split; cbn; done.
  - split; cbn; done.
Qed.

(** X4: in every state the component reaches, whatever loads and syncs
    replace the candles, a running replay has its index set, an index in turn
    has a start, and the start is at or before the index. *)
Theorem replay_index_ordered (evs : list AppEvent) :
  replayOrdered (app_replay (replayRun evs)).
Proof.
  induction evs as [|ev evs IH] using rev_ind.
  - split; cbn; done.
  - rewrite replayRun_snoc.
    destruct ev as [ev|fetched|fetched]; cbn [appStep onLoad onSync app_replay].
    + by apply replayStep_ordered.
    + split; cbn; done.
    + exact IH.
Qed.

Lemma ticks_S candles n st :
  ticks candles (S n) st = ticks candles n (replayStep candles st TimerTick).
Proof. reflexivity. Qed.

Lemma ticks_advance candles n : ∀ st i,
  replayRunning st = true → currentReplayIndex st = Some i →
  i + Z.of_nat n ≤ lastIndex candles →
  replayRunning (ticks candles n st) = true ∧
  currentReplayIndex (ticks candles n st) = Some (i + Z.of_nat n) ∧
  replayStartIndex (ticks candles n st) = replayStartIndex st.
Proof.
  induction n as [|n IH]; intros st i Hrun Hi Hle.
  - cbn. rewrite Z.add_0_r. done.
  - rewrite ticks_S.
    assert (Hstep : replayStep candles st TimerTick =
      {| replayStartIndex := replayStartIndex st; currentReplayIndex := Some (i + 1);
         replayRunning := true; speed := speed st; autoFollow := autoFollow st |}).
    { cbn [replayStep]. unfold timerArmed. rewrite Hrun, Hi.
      rewrite bool_decide_eq_true_2 by eauto. cbn [andb]. unfold tickUpdate. rewrite Hi.
      fold (lastIndex candles). rewrite (proj2 (Z.leb_gt _ _)) by lia. by rewrite Hrun. }
    rewrite Hstep.
    match goal with |- context [ticks candles n ?s] => 
      destruct (IH s (i + 1)) as (H1 & H2 & H3); [reflexivity|reflexivity|lia|] end.
    split; [done|]. split; [|done]. rewrite H2. f_equal. lia.
Qed.

(** X5: a running replay at index [i] reaches the last candle after
    [last - i] ticks, still running, and the tick after that pauses it
    there; later ticks change nothing. *)
Theorem replay_runs_to_the_end candles st i :
  replayRunning st = true → currentReplayIndex st = Some i →
  0 ≤ i ≤ lastIndex candles →
  let remaining := Z.to_nat (lastIndex candles - i) in
  currentReplayIndex (ticks candles remaining st) = Some (lastIndex candles) ∧
  replayRunning (ticks candles remaining st) = true ∧
  ∀ more, currentReplayIndex (ticks candles (remaining + S more) st) = Some (lastIndex candles) ∧
          replayRunning (ticks candles (remaining + S more) st) = false.
Proof.
  intros Hrun Hi Hb remaining.
  destruct (ticks_advance candles remaining st i Hrun Hi) as (H1 & H2 & _); [lia|].
  replace (i + Z.of_nat remaining) with (lastIndex candles) in H2 by lia.
  split; [done|]. split; [done|].
  intros more. unfold ticks. rewrite replicate_add, fold_left_app.
  fold (ticks candles remaining st).
  set (s1 := ticks candles remaining st) in *.
  cbn [replicate fold_left].
  assert (Hp : replayStep candles s1 TimerTick =
    {| replayStartIndex := replayStartIndex s1; currentReplayIndex := Some (lastIndex candles);
       replayRunning := false; speed := speed s1; autoFollow := autoFollow s1 |}).
  { cbn [replayStep]. unfold timerArmed. rewrite H1, H2.
    rewrite bool_decide_eq_true_2 by eauto. cbn [andb]. unfold tickUpdate. rewrite H2.
    fold (lastIndex candles). by rewrite Z.leb_refl. }
  rewrite Hp. clear. induction more as [|more IH]; [done|]. cbn [replicate fold_left].
  exact IH.
Qed.

Lemma replay_runs_to_the_end_witness :
  let cs := [bar 0 0 0 0; bar 300000 0 0 0; bar 600000 0 0 0] in
  let st := app_replay (replayRun [LoadDone cs; Control (ClickReplayStart 0);
                                   Control StartReplay]) in
  currentReplayIndex (ticks cs 2 st) = Some 2 ∧
  replayRunning (ticks cs 2 st) = true ∧
  ∀ more, currentReplayIndex (ticks cs (2 + S more) st) = Some 2 ∧
          replayRunning (ticks cs (2 + S more) st) = false.
Proof.
  apply (replay_runs_to_the_end [bar 0 0 0 0; bar 300000 0 0 0; bar 600000 0 0 0]
           (app_replay (replayRun [LoadDone [bar 0 0 0 0; bar 300000 0 0 0; bar 600000 0 0 0];
                                   Control (ClickReplayStart 0); Control StartReplay])) 0).
  - reflexivity.
  - reflexivity.
  - vm_compute. split; discriminate.
Defined.

(** X6: whenever the component has a current replay index, the index is not
    negative and the displayed candles are the loaded ones up to and
    including that index, as far as there are that many. With the index at
    most the last candle index they are never empty and end with the candle
    at the index; with the index at or past the last candle index (a sync may
    have left fewer candles) all loaded candles are displayed. As long as no
    sync hands back too few candles for the replay indices of the moment, the
    index is at most the last candle index. *)
Theorem displayed_during_replay (evs : list AppEvent) i :
  let candles := app_candles (replayRun evs) in
  currentReplayIndex (app_replay (replayRun evs)) = Some i →
  0 ≤ i ∧
  displayedCandles candles (Some i) = take (S (Z.to_nat i)) candles ∧
  (i ≤ lastIndex candles →
     length (displayedCandles candles (Some i)) = S (Z.to_nat i) ∧
     last (displayedCandles candles (Some i)) = candles !! Z.to_nat i ∧
     is_Some (candles !! Z.to_nat i)) ∧
  (lastIndex candles ≤ i → displayedCandles candles (Some i) = candles) ∧
  (syncsKeepIndices initialApp evs → i ≤ lastIndex candles).
Proof.
  intros candles Hi. destruct (replayRun_nonneg evs) as (_ & _ & Hcur).
  specialize (Hcur i Hi). split; [done|].
  assert (Hd : displayedCandles candles (Some i) = take (S (Z.to_nat i)) candles).
  { unfold displayedCandles, slice0. rewrite (proj2 (Z.ltb_ge _ _)) by lia.
    destruct (Z.min_spec (i + 1) (Z.of_nat (length candles))) as [[Hlt ->]|[Hge ->]].
    - f_equal. lia.
    - rewrite Nat2Z.id, !take_ge by lia. done. }
  rewrite Hd. split; [done|]. unfold lastIndex. split; [|split].
  - intros Hle.
    assert (Hlen : length (take (S (Z.to_nat i)) candles) = S (Z.to_nat i)).
    { rewrite length_take. lia. }
    split; [done|]. split.
    + rewrite last_lookup, Hlen. cbn [pred]. rewrite lookup_take_lt by lia. done.
    + apply lookup_lt_is_Some. lia.
  - intros Hge. apply take_ge. lia.
  - intros Hkeep. destruct (replayRun_inv evs Hkeep) as (_ & _ & Hle).
    destruct (Hle i Hi) as [_ H]. exact H.
Qed.

Lemma displayed_during_replay_witness :
  let evs := [LoadDone threeBars; Control (ClickReplayStart 0); Control StartReplay;
              Control TimerTick] in
  currentReplayIndex (app_replay (replayRun evs)) = Some 1 ∧
  0 ≤ 1 ∧
  displayedCandles threeBars (Some 1) = take (S (Z.to_nat 1)) threeBars ∧
  (1 ≤ lastIndex threeBars →
     length (displayedCandles threeBars (Some 1)) = S (Z.to_nat 1) ∧
     last (displayedCandles threeBars (Some 1)) = threeBars !! Z.to_nat 1 ∧
     is_Some (threeBars !! Z.to_nat 1)) ∧
  (lastIndex threeBars ≤ 1 → displayedCandles threeBars (Some 1) = threeBars) ∧
  (syncsKeepIndices initialApp evs → 1 ≤ lastIndex threeBars).
Proof.
  split; [reflexivity|].
  apply (displayed_during_replay
           [LoadDone threeBars; Control (ClickReplayStart 0); Control StartReplay;
            Control TimerTick] 1).
  reflexivity.
Defined.

(** *** The EMA line and the weekly bands *)

Lemma ema_loop_times m e cs :
  map ld_time (ema_loop m e cs) = map (λ c, toUtcTimestamp (openTime c)) cs.
Proof.
  revert e. induction cs as [|c cs IH]; intros e; [done|]. cbn. f_equal. apply IH.
Qed.

(** X7: the EMA line has one point per candle, at the candle's open time in
    whole seconds and in the candles' order; a period of zero or less gives
    no line at all. *)
Theorem computeEma_points (cs : list Candle) (period : Z) :
  map ld_time (computeEma cs period) =
    (if period <=? 0 then [] else map (λ c, toUtcTimestamp (openTime c)) cs) ∧
  length (computeEma cs period) = (if period <=? 0 then 0%nat else length cs).
Proof.
  assert (H : map ld_time (computeEma cs period) =
    (if period <=? 0 then [] else map (λ c, toUtcTimestamp (openTime c)) cs)).
  { unfold computeEma. destruct cs as [|c0 cs']; [by destruct (period <=? 0)|].
    destruct (period <=? 0); [done|]. apply ema_loop_times. }
  split; [exact H|].
  apply (f_equal length) in H. rewrite length_map in H. rewrite H.
  destruct (period <=? 0); [done|]. by rewrite length_map.
Qed.

Lemma emaMultiplier_finite (period : Z) : 1 ≤ period → ∃ m, emaMultiplier period = Fin m.
Proof.
  intros Hp. unfold emaMultiplier.
  assert (H1 : (1 <= inject_Z period)%Q).
  { change 1%Q with (inject_Z 1). by rewrite <- Zle_Qle. }
  destruct (round64_ge_one _ H1) as [->|(r & -> & Hr)]; [by exists 0%Q|].
  cbn [fadd].
  assert (Hh : (inject_Z period / 2 == inject_Z period * (1 # 2))%Q) by field.
  assert (H2 : (1 <= r + 1)%Q) by lra.
  destruct (round64_ge_one _ H2) as [->|(d & -> & Hd)]; [by exists 0%Q|].
  assert (Hh2 : ((r + 1) / 2 == (r + 1) * (1 # 2))%Q) by field.
  assert (Hdpos : (3 # 4 <= d)%Q) by lra.
  apply round64_small.
  - apply Qlt_shift_div_l; lra.
  - apply Qle_shift_div_r; lra.
Qed.

Lemma ema_loop_flat (m c : Q) (cs : list Candle) :
  isDouble c → (∀ x, x ∈ cs → (close x == c)%Q) →
  ∀ o, o ∈ ema_loop (Fin m) (jsNumber c) cs → value o = toFixed4N (jsNumber c).
Proof.
  intros Hc. induction cs as [|x cs IH]; intros Hall o Ho.
  - by apply elem_of_nil in Ho.
  - cbn [ema_loop] in Ho.
    assert (Hx : jsNumber (close x) = jsNumber c).
    { apply round64_comp, Hall. left. }
    rewrite Hx, (ema_first_step c m Hc) in Ho.
    assert (Hj : jsNumber c = Fin (Qred c)) by (by apply round64_exact).
    rewrite <- Hj in Ho.
    apply elem_of_cons in Ho as [->|Ho]; [done|].
    apply IH; [|done]. intros y Hy. apply Hall. by right.
Qed.

(** X8: over a series whose closes are all the same double, the EMA line of
    every period of one or more is flat: each value is that close rounded to
    four decimals. *)
Theorem computeEma_flat (cs : list Candle) (period : Z) (c : Q) :
  1 ≤ period → isDouble c → (∀ x, x ∈ cs → (close x == c)%Q) →
  ∀ o, o ∈ computeEma cs period → value o = toFixed4N (jsNumber c).
Proof.
  intros Hp Hc Hall o Ho. unfold computeEma in Ho.
  destruct cs as [|c0 rest]; [by apply elem_of_nil in Ho|].
  rewrite (proj2 (Z.leb_gt _ _)) in Ho by lia.
  destruct (emaMultiplier_finite period Hp) as [m Hm]. rewrite Hm in Ho.
  assert (H0 : jsNumber (close c0) = jsNumber c) by (apply round64_comp, Hall; left).
  rewrite H0 in Ho. by apply (ema_loop_flat m c (c0 :: rest)).
Qed.

Lemma computeEma_flat_witness :
  let cs := [bar 0 0 0 (301 # 2); bar 300000 0 0 (301 # 2); bar 600000 0 0 (301 # 2)] in
  1 ≤ 20 ∧ isDouble (301 # 2) ∧
  ∀ o, o ∈ computeEma cs 20 → value o = toFixed4N (jsNumber (301 # 2)).
Proof.
  assert (Hd : isDouble (301 # 2)) by (by exists 301, (-1)).
  split; [lia|]. split; [exact Hd|].
  apply (computeEma_flat _ 20 (301 # 2)); [lia|exact Hd|].
  intros x Hx. repeat (apply elem_of_cons in Hx as [->|Hx]; [reflexivity|]).
  by apply elem_of_nil in Hx.
Defined.

(** X9: the week start is the midnight that opens a UTC Monday, at or before
    the time and less than a week before it; a week start is its own week
    start, and later times never get an earlier week. *)
Theorem startOfUtcMonday_week (t t' : Z) :
  getUTCDay (startOfUtcMonday t) = 1 ∧
  startOfUtcMonday t mod msPerDay = 0 ∧
  startOfUtcMonday t ≤ t < startOfUtcMonday t + oneWeekMs ∧
  startOfUtcMonday (startOfUtcMonday t) = startOfUtcMonday t ∧
  (t ≤ t' → startOfUtcMonday t ≤ startOfUtcMonday t').
Proof.
  destruct (startOfUtcMonday_spec t) as (H1 & H2 & H3).
  split; [done|]. split; [done|]. split; [done|].
  assert (Hform : ∀ u, ∃ k, startOfUtcMonday u = (7 * k - 3) * 86400000 ∧
                            (7 * k - 3) * 86400000 ≤ u < (7 * k + 4) * 86400000).
  { intros u. unfold startOfUtcMonday, getUTCDay, msPerDay.
    change (24 * 60 * 60 * 1000) with 86400000.
    set (q := u / 86400000).
    assert (Hq : 86400000 * q ≤ u < 86400000 * q + 86400000).
    { unfold q. pose proof (Z.mul_div_le u 86400000).
      pose proof (Z.mul_succ_div_gt u 86400000). lia. }
    exists ((q + 3) / 7).
    pose proof (Z.mod_pos_bound (q + 4) 7).
    pose proof (Z.div_mod (q + 4) 7).
    pose proof (Z.mod_pos_bound ((q + 4) mod 7 + 6) 7).
    pose proof (Z.div_mod ((q + 4) mod 7 + 6) 7).
    pose proof (Z.mod_pos_bound (q + 3) 7).
    pose proof (Z.div_mod (q + 3) 7).
    lia. }
  assert (Huniq : ∀ u k, (7 * k - 3) * 86400000 ≤ u < (7 * k + 4) * 86400000 →
                         startOfUtcMonday u = (7 * k - 3) * 86400000).
  { intros u k Hk. destruct (Hform u) as (k' & -> & Hk'). assert (k' = k) by lia. by subst. }
  split.
  - destruct (Hform t) as (k & Hk & Hb). rewrite Hk. apply Huniq. lia.
  - intros Hle. destruct (Hform t) as (k & -> & Hb). destruct (Hform t') as (k' & -> & Hb').
    assert (k ≤ k') by lia. lia.
Qed.

Lemma mondayRanges_from_bucket displayed iv r :
  r ∈ mondayRanges displayed iv →
  ∃ k, weekBand (INTERVAL_MS iv) (k, filter (λ c, weekOf c = k) displayed) = Some r.
Proof.
  unfold mondayRanges. destruct displayed as [|c0 cs0] eqn:E.
  { intros H. by apply elem_of_nil in H. }
  rewrite <- E. clear E c0 cs0.
  rewrite merge_sort_Permutation. intros Hr.
  apply list_elem_of_omap in Hr as ([k b] & Hin & Hw).
  destruct (groupByWeek_spec displayed) as (Hnd & Hb & _).
  exists k. by rewrite <- Hb, (bucketOf_elem _ k b Hnd Hin).
Qed.

(** X10: when no displayed candle has its low above its high, no band has
    its low above its high. *)
Theorem mondayRanges_low_below_high displayed iv :
  (∀ c, c ∈ displayed → (low c <= high c)%Q) →
  ∀ r, r ∈ mondayRanges displayed iv → (mondayLow r <= mondayHigh r)%Q.
Proof.
  intros Hall r Hr.
  destruct (mondayRanges_from_bucket displayed iv r Hr) as (k & Hw).
  pose proof (weekBand_spec (INTERVAL_MS iv) k (filter (λ c, weekOf c = k) displayed)) as Hs.
  rewrite Hw in Hs. destruct Hs as (_ & (c & Hc & _) & Hhi & _ & Hlo & _).
  specialize (Hhi c Hc). specialize (Hlo c Hc).
  apply list_elem_of_filter in Hc as [_ Hc]. apply list_elem_of_filter in Hc as [_ Hc].
  specialize (Hall c Hc). lra.
Qed.

Lemma mondayRanges_low_below_high_witness :
  let r := {| weekStartMs := 345600000; weekEndMs := 950100000;
              mondayHigh := 12; mondayLow := 3 |} in
  r ∈ mondayRanges [bar 345600000 12 3 5; bar 345900000 10 5 6] I5m ∧
  (mondayLow r <= mondayHigh r)%Q.
Proof.
  split; [vm_compute; left|].
  apply (mondayRanges_low_below_high [bar 345600000 12 3 5; bar 345900000 10 5 6] I5m).
  - intros c Hc. repeat (apply elem_of_cons in Hc as [->|Hc]; [vm_compute; discriminate|]).
    by apply elem_of_nil in Hc.
  - vm_compute. left.
Defined.

(** X11: every band is one week minus one interval step long; its end is at
    or after its start for every interval but the monthly one, whose step is
    longer than the week. *)
Theorem mondayRanges_extent displayed iv r :
  r ∈ mondayRanges displayed iv →
  weekEndMs r - weekStartMs r = oneWeekMs - INTERVAL_MS iv ∧
  (weekStartMs r ≤ weekEndMs r ↔ iv ≠ I1M).
Proof.
  intros Hr.
  destruct (mondayRanges_from_bucket displayed iv r Hr) as (k & Hw).
  pose proof (weekBand_spec (INTERVAL_MS iv) k (filter (λ c, weekOf c = k) displayed)) as Hs.
  rewrite Hw in Hs. destruct Hs as (_ & _ & _ & _ & _ & He).
  split; [lia|]. rewrite He. unfold oneWeekMs.
  destruct iv; cbn [INTERVAL_MS]; split; intros H; try lia; try done.
Qed.

Lemma mondayRanges_extent_witness :
  let r := {| weekStartMs := 345600000; weekEndMs := 950100000;
              mondayHigh := 12; mondayLow := 3 |} in
  weekEndMs r - weekStartMs r = oneWeekMs - INTERVAL_MS I5m ∧
  (weekStartMs r ≤ weekEndMs r ↔ I5m ≠ I1M).
Proof.
  apply (mondayRanges_extent [bar 345600000 12 3 5; bar 345900000 10 5 6] I5m).
  vm_compute. left.
Defined.

(** *** Hit testing, handles and the toolbar *)

Lemma Qle_bool_comp (a a' b b' : Q) : (a == a')%Q → (b == b')%Q → Qle_bool a b = Qle_bool a' b'.
Proof.
  intros Ha Hb. destruct (Qle_bool a b) eqn:E1, (Qle_bool a' b') eqn:E2; try reflexivity.
  - apply Qle_bool_iff in E1. rewrite Ha, Hb in E1. apply Qle_bool_iff in E1. congruence.
  - apply Qle_bool_iff in E2. rewrite <- Ha, <- Hb in E2. apply Qle_bool_iff in E2. congruence.
Qed.

Lemma padded_comp (v lo lo' hi hi' tol : Q) :
  (lo == lo')%Q → (hi == hi')%Q → padded v lo hi tol = padded v lo' hi' tol.
Proof.
  intros Hlo Hhi. unfold padded. f_equal; apply Qle_bool_comp; try reflexivity.
  - by rewrite Hlo.
  - by rewrite Hhi.
Qed.

Lemma padded_true (v lo hi tol : Q) :
  padded v lo hi tol = true ↔ (lo - tol <= v)%Q ∧ (v <= hi + tol)%Q.
Proof. unfold padded. rewrite andb_true_iff, !Qle_bool_iff. done. Qed.

Lemma hitLoop_spec api chart cs iv x y (l : list Drawing) :
  match hitLoop chart cs iv api x y l with
  | Some d => ∃ above below, l = above ++ d :: below ∧ hits chart cs iv api x y d = true ∧
                             Forall (λ d', hits chart cs iv api x y d' = false) above
  | None => Forall (λ d, hits chart cs iv api x y d = false) l
  end.
Proof.
  induction l as [|d l IH]; cbn [hitLoop]; [constructor|].
  destruct (hits chart cs iv api x y d) eqn:E.
  - exists [], l. split; [done|]. split; [done|constructor].
  - destruct (hitLoop chart cs iv api x y l) as [d'|].
    + destruct IH as (above & below & -> & Hd & Hab).
      exists (d :: above), below. split; [done|]. split; [done|]. by constructor.
    + by constructor.
Qed.

(** X12: the hit test answers with the topmost drawing that catches the
    pixel: a drawing of the list that catches it, with no drawing after it in
    the list catching it too; it answers none exactly when the chart is not
    there or no drawing catches the pixel. *)
Theorem hitTestDrawing_topmost chart cs iv x y (items : list Drawing) :
  match hitTestDrawing chart cs iv x y items with
  | Some d =>
      ∃ api below above, chart = Some api ∧ items = below ++ d :: above ∧
        hits chart cs iv api x y d = true ∧
        Forall (λ d', hits chart cs iv api x y d' = false) above
  | None =>
      chart = None ∨
      ∃ api, chart = Some api ∧ Forall (λ d, hits chart cs iv api x y d = false) items
  end.
Proof.
  unfold hitTestDrawing. destruct chart as [api|] eqn:Ec; [|by left].
  rewrite <- Ec. pose proof (hitLoop_spec api chart cs iv x y (reverse items)) as H.
  destruct (hitLoop chart cs iv api x y (reverse items)) as [d|].
  - destruct H as (above & below & Hrev & Hd & Hab).
    exists api, (reverse below), (reverse above). split; [done|].
    split; [|split; [done|by apply Forall_reverse]].
    rewrite <- (reverse_involutive items), Hrev, reverse_app, reverse_cons.
    by rewrite <- app_assoc.
  - right. exists api. split; [done|]. rewrite <- (reverse_involutive items).
    by apply Forall_reverse.
Qed.

(** X13: a horizontal line whose price has a pixel row is caught on every
    column within 7 pixels of that row and, drawn last, is then the answer of
    the hit test; farther from the row the hit test never answers with it. *)
Theorem hline_hit_any_column api cs iv x y d p0 rest y0 (items : list Drawing) :
  type d = hline → points d = p0 :: rest →
  priceToCoordinate api (price p0) = Some y0 →
  ((Qabs (y - y0) <= 7)%Q → hitTestDrawing (Some api) cs iv x y (items ++ [d]) = Some d) ∧
  (hitTestDrawing (Some api) cs iv x y items = Some d → (Qabs (y - y0) <= 7)%Q).
Proof.
  intros Ht Hp Hy.
  assert (Hhit : hits (Some api) cs iv api x y d = Qle_bool (Qabs (y - y0)) 7).
  { unfold hits. by rewrite Ht, Hp, Hy. }
  split.
  - intros Hle. unfold hitTestDrawing. rewrite reverse_app. cbn [reverse app hitLoop].
    rewrite reverse_singleton. cbn [app hitLoop]. rewrite Hhit.
    by rewrite (proj2 (Qle_bool_iff _ _) Hle).
  - unfold hitTestDrawing. intros Hres.
    pose proof (hitLoop_spec api (Some api) cs iv x y (reverse items)) as H.
    rewrite Hres in H. destruct H as (above & below & _ & Hd & _).
    rewrite Hhit in Hd. by apply Qle_bool_iff.
Qed.

(** X14: for a rectangle or a price range the hit test does not depend on
    the order of its two corner points. *)
Theorem rect_hit_corner_order chart cs iv api x y d p0 p1 rest :
  type d = rect ∨ type d = pricerange →
  points d = p0 :: p1 :: rest →
  hits chart cs iv api x y (withPoints d (p1 :: p0 :: rest)) = hits chart cs iv api x y d.
Proof.
  intros Ht Hp. unfold hits. cbn [type points withPoints]. rewrite Hp.
  assert (Hsym : ∀ x1 y1 x2 y2 : Q,
    padded x (Qmin x2 x1) (Qmax x2 x1) 7 && padded y (Qmin y2 y1) (Qmax y2 y1) 7 =
    padded x (Qmin x1 x2) (Qmax x1 x2) 7 && padded y (Qmin y1 y2) (Qmax y1 y2) 7).
  { intros. f_equal; apply padded_comp; auto using Q.min_comm, Q.max_comm. }
  destruct Ht as [-> | ->];
    destruct (timeMsToX chart cs iv (time p0)) as [x1|],
             (priceToCoordinate api (price p0)) as [y1|],
             (timeMsToX chart cs iv (time p1)) as [x2|],
             (priceToCoordinate api (price p1)) as [y2|]; try reflexivity; apply Hsym.
Qed.

Lemma rect_hit_corner_order_witness :
  let api := {| timeToCoordinate := λ s, Some (inject_Z s);
                logicalToCoordinate := λ _, None;
                coordinateToTime := λ _, None; coordinateToLogical := λ _, None;
                priceToCoordinate := λ p, Some (- p)%Q; coordinateToPrice := λ _, None |} in
  let d := {| drawing_id := 1; drawing_symbol := SYMBOL; type := rect;
              points := [ {| time := 1000; price := 5 |}; {| time := 9000; price := 9 |} ];
              style := defaultStyle rect; created_at := 1; updated_at := 1 |} in
  hits (Some api) [] I5m api 4 (-7)
    (withPoints d [ {| time := 9000; price := 9 |}; {| time := 1000; price := 5 |} ])
  = hits (Some api) [] I5m api 4 (-7) d.
Proof.
  cbv zeta.
  apply (rect_hit_corner_order _ [] I5m _ 4 (-7) _
           {| time := 1000; price := 5 |} {| time := 9000; price := 9 |} []).
  - left. reflexivity.
  - reflexivity.
Defined.

(** X15: a handle is only ever found on a selected position with four
    points, within 10 pixels of the position's end column and of the handle's
    own price row; so whenever a handle is found, dragging it changes the
    position's points. *)
Theorem handle_hit_is_near chart cs iv x y selected h :
  hitTestPositionHandle chart cs iv x y selected = Some h →
  ∃ sel api p0 p1 p2 p3 rest xEnd yHandle,
    selected = Some sel ∧ chart = Some api ∧ isPosition (type sel) = true ∧
    points sel = p0 :: p1 :: p2 :: p3 :: rest ∧
    timeMsToX chart cs iv (time p3) = Some xEnd ∧
    priceToCoordinate api (price (handlePoint h p0 p1 p2)) = Some yHandle ∧
    (Qabs (x - xEnd) <= 10)%Q ∧ (Qabs (y - yHandle) <= 10)%Q ∧
    ∀ dragPoint, is_Some (dragPoints iv h dragPoint (points sel)).
Proof.
  unfold hitTestPositionHandle. intros H.
  destruct selected as [sel|]; [|done]. destruct chart as [api|] eqn:Ec; [|done].
  rewrite <- Ec in *.
  destruct (isPosition (type sel)) eqn:Hpos; [|done].
  destruct (points sel) as [|p0 [|p1 [|p2 [|p3 rest]]]] eqn:Hp; try done.
  destruct (timeMsToX chart cs iv (time p3)) as [xEnd|] eqn:Hx; [|done].
  destruct (priceToCoordinate api (price p2)) as [yTp|] eqn:H2; [|done].
  destruct (priceToCoordinate api (price p1)) as [ySl|] eqn:H1; [|done].
  destruct (priceToCoordinate api (price p0)) as [yEntry|] eqn:H0; [|done].
  cbv zeta in H.
  assert (Hdrag : ∀ h' dragPoint, is_Some (dragPoints iv h' dragPoint (p0 :: p1 :: p2 :: p3 :: rest))).
  { intros h' dragPoint. cbn [dragPoints]. eauto. }
  destruct (Qle_bool (Qabs (x - xEnd)) 10) eqn:Ex; cbn [andb] in H; [|done].
  apply Qle_bool_iff in Ex.
  destruct (Qle_bool (Qabs (y - yTp)) 10) eqn:E2.
  { injection H as <-. apply Qle_bool_iff in E2.
    exists sel, api, p0, p1, p2, p3, rest, xEnd, yTp. repeat split; try done. rewrite Hp. apply Hdrag. }
  destruct (Qle_bool (Qabs (y - ySl)) 10) eqn:E1.
  { injection H as <-. apply Qle_bool_iff in E1.
    exists sel, api, p0, p1, p2, p3, rest, xEnd, ySl. repeat split; try done. rewrite Hp. apply Hdrag. }
  destruct (Qle_bool (Qabs (y - yEntry)) 10) eqn:E0; [|done].
  injection H as <-. apply Qle_bool_iff in E0.
  exists sel, api, p0, p1, p2, p3, rest, xEnd, yEntry. repeat split; try done. rewrite Hp. apply Hdrag.
Qed.

(** X16: the clamped toolbar position is at least 8 pixels inside the
    wrapper's left and top edge; when the toolbar fits, its right and bottom
    edge stay 8 pixels inside too; and clamping a clamped position changes
    nothing. *)
Theorem clampToolbarPos_inside (wrapW wrapH : Q) (toolbar : option (Q * Q)) (x y : Q) :
  let toolbarW := match toolbar with Some (w, _) => w | None => 420%Q end in
  let toolbarH := match toolbar with Some (_, h) => h | None => 42%Q end in
  ∃ x' y',
    clampToolbarPos (Some (wrapW, wrapH)) toolbar x y = Some (x', y') ∧
    (8 <= x')%Q ∧ (8 <= y')%Q ∧
    (toolbarW + 16 <= wrapW → x' + toolbarW + 8 <= wrapW)%Q ∧
    (toolbarH + 16 <= wrapH → y' + toolbarH + 8 <= wrapH)%Q ∧
    ∃ x'' y'',
      clampToolbarPos (Some (wrapW, wrapH)) toolbar x' y' = Some (x'', y'') ∧
      (x'' == x')%Q ∧ (y'' == y')%Q.
Proof.
  intros toolbarW toolbarH. unfold clampToolbarPos. fold toolbarW toolbarH.
  assert (Hc : ∀ v lim : Q,
    let v' := Qmin (Qmax 8 v) (Qmax 8 lim) in
    (8 <= v')%Q ∧ (v' <= Qmax 8 lim)%Q ∧ (Qmin (Qmax 8 v') (Qmax 8 lim) == v')%Q).
  { intros v lim v'. subst v'.
    pose proof (Q.max_spec 8 v) as M1. pose proof (Q.max_spec 8 lim) as M2.
    set (m1 := Qmax 8 v) in *. set (L := Qmax 8 lim) in *.
    pose proof (Q.min_spec m1 L) as M3. set (v' := Qmin m1 L) in *.
    pose proof (Q.max_spec 8 v') as M4. set (m2 := Qmax 8 v') in *.
    pose proof (Q.min_spec m2 L) as M5. set (r := Qmin m2 L) in *.
    clearbody r m2 v' L m1.
    destruct M1 as [[? ?]|[? ?]], M2 as [[? ?]|[? ?]], M3 as [[? ?]|[? ?]],
             M4 as [[? ?]|[? ?]], M5 as [[? ?]|[? ?]]; repeat split; lra. }
  eexists _, _. split; [reflexivity|].
  destruct (Hc x (wrapW - toolbarW - 8)%Q) as (Hx1 & Hx2 & Hx3).
  destruct (Hc y (wrapH - toolbarH - 8)%Q) as (Hy1 & Hy2 & Hy3).
  split; [done|]. split; [done|]. split; [|split].
  - intros Hfit. pose proof (Q.max_spec 8 (wrapW - toolbarW - 8)) as M.
    set (L := Qmax 8 (wrapW - toolbarW - 8)) in *.
    set (x' := Qmin (Qmax 8 x) L) in *. clearbody x' L.
    destruct M as [[? ?]|[? ?]]; lra.
  - intros Hfit. pose proof (Q.max_spec 8 (wrapH - toolbarH - 8)) as M.
    set (L := Qmax 8 (wrapH - toolbarH - 8)) in *.
    set (y' := Qmin (Qmax 8 y) L) in *. clearbody y' L.
    destruct M as [[? ?]|[? ?]]; lra.
  - eexists _, _. split; [reflexivity|]. done.
Qed.

Lemma handle_hit_is_near_witness :
  ∃ sel api p0 p1 p2 p3 rest xEnd yHandle,
    Some samplePosition = Some sel ∧ Some sampleChart = Some api ∧
    isPosition (type sel) = true ∧
    points sel = p0 :: p1 :: p2 :: p3 :: rest ∧
    timeMsToX (Some sampleChart) [] I5m (time p3) = Some xEnd ∧
    priceToCoordinate api (price (handlePoint tp p0 p1 p2)) = Some yHandle ∧
    (Qabs (12003 - xEnd) <= 10)%Q ∧ (Qabs (-(99) - yHandle) <= 10)%Q ∧
    ∀ dragPoint, is_Some (dragPoints I5m tp dragPoint (points sel)).
Proof.
  apply (handle_hit_is_near (Some sampleChart) [] I5m 12003 (-(99)) (Some samplePosition) tp).
  vm_compute. reflexivity.
Defined.

Lemma hline_hit_any_column_witness :
  ((Qabs (-(95) - -(100)) <= 7)%Q →
     hitTestDrawing (Some sampleChart) [] I5m 12345 (-(95)) ([] ++ [sampleLine]) = Some sampleLine) ∧
  (hitTestDrawing (Some sampleChart) [] I5m 12345 (-(95)) [] = Some sampleLine →
     (Qabs (-(95) - -(100)) <= 7)%Q).
Proof.
  apply (hline_hit_any_column sampleChart [] I5m 12345 (-(95)) sampleLine
           {| time := 0; price := 100 |} [] (-(100))%Q []); reflexivity.
Defined.

(** X17: without a chart nothing has a pixel column; with no candles loaded,
    a time the chart cannot place has no column either, and a pixel the
    chart cannot date gives no point. *)
Theorem overlay_none_without_candles :
  (∀ cs iv t, timeMsToX None cs iv t = None) ∧
  (∀ api iv t, timeToCoordinate api (toUtcTimestampOf t) = None →
               timeMsToX (Some api) [] iv t = None) ∧
  (∀ api cur iv x y, timeToMs (coordinateToTime api x) = None →
                     getPointFromCoordinates (Some api) [] cur iv x y = None).
Proof.
  split; [done|]. split.
  - intros api iv t H. unfold timeMsToX. by rewrite H.
  - intros api cur iv x y H. unfold getPointFromCoordinates. rewrite H.
    assert (Hl : ∀ l, logicalToTimeMs [] cur iv (Fin l) = None).
    { intros l. unfold logicalToTimeMs, displayedCandles. cbn.
      destruct cur; [unfold slice0; rewrite take_nil|]; reflexivity. }
    destruct (coordinateToLogical api x); [rewrite Hl|]; by destruct (coordinateToPrice api y).
Qed.

(** *** The canvas click and the store *)



Lemma withStore_same (st : UiState) : withStore st (store st) = st.
Proof. by destruct st. Qed.

(** X19: when the create request of a click is refused, the click leaves
    everything as it was: the drawings, the selection, the armed tool and the
    pending first corner. *)
Theorem click_rejected_keeps_ui api_post chart candles iv x y st st' :
  onCanvasClick api_post chart candles iv x y st = ClickRejected st' → st' = st.
Proof.
  unfold onCanvasClick.
  assert (Hsave : ∀ t pts after, saveThen api_post t pts after st = ClickRejected st' → st' = st).
  { intros t pts after. unfold saveThen, saveDrawing.
    destruct (api_post _); [done|]. intros [= <-]. apply withStore_same. }
  destruct (tool st) as [|t|]; [done| |].
  - destruct (getPointFromCoordinates _ _ _ _ _ _) as [point|]; [|done].
    destruct t; try apply Hsave; destruct (pendingPoint st); try done; apply Hsave.
  - by destruct (getPointFromCoordinates _ _ _ _ _ _).
Qed.

Lemma saveThen_done api_post t pts after st st' :
  echoes api_post →
  saveThen api_post t pts after st = ClickDone st' →
  ∃ d, st' = after (withStore st {| drawings := drawings (store st) ++ [d];
                                    selectedDrawingId := Some (drawing_id d) |}) ∧
       type d = t ∧ points d = pts.
Proof.
  intros Hecho. unfold saveThen, saveDrawing.
  destruct (api_post _) as [d|] eqn:E; [|done]. intros [= <-].
  destruct (Hecho _ _ E) as [Ht Hp]. by exists d.
Qed.

(** X20: with a server that answers a create with the drawing it was sent, a
    click with a drawing tool that adds a drawing adds exactly one, at the
    end of the list, of the tool's type and with one, two or four points as
    the type asks; the new drawing is selected and the tool is put down. *)
Theorem click_adds_one_drawing api_post chart candles iv x y st st' t :
  echoes api_post →
  tool st = ToolDraw t →
  onCanvasClick api_post chart candles iv x y st = ClickDone st' →
  drawings (store st') ≠ drawings (store st) →
  ∃ d, drawings (store st') = drawings (store st) ++ [d] ∧
       type d = t ∧ length (points d) = pointCount t ∧
       selectedDrawingId (store st') = Some (drawing_id d) ∧
       tool st' = ToolNone.
Proof.
  intros Hecho Ht. unfold onCanvasClick. rewrite Ht.
  destruct (getPointFromCoordinates _ _ _ _ _ _) as [point|]; [|by intros [= <-]].
  assert (Hsave : ∀ pts after,
    (∀ u, store (after u) = store u ∧ tool (after u) = ToolNone) →
    length pts = pointCount t →
    saveThen api_post t pts after st = ClickDone st' →
    ∃ d, drawings (store st') = drawings (store st) ++ [d] ∧
         type d = t ∧ length (points d) = pointCount t ∧
         selectedDrawingId (store st') = Some (drawing_id d) ∧ tool st' = ToolNone).
  { intros pts after Hafter Hlen Hs.
    destruct (saveThen_done _ _ _ _ _ _ Hecho Hs) as (d & -> & Hd & Hp).
    destruct (Hafter (withStore st {| drawings := drawings (store st) ++ [d];
                                      selectedDrawingId := Some (drawing_id d) |})) as [-> ->].
    exists d. rewrite Hp. done. }
  assert (Hafter1 : ∀ u, store (toolOff u) = store u ∧ tool (toolOff u) = ToolNone) by done.
  assert (Hafter2 : ∀ u, store (shapeDone u) = store u ∧ tool (shapeDone u) = ToolNone) by done.
  destruct t; intros Hres Hne.
  - eapply Hsave; [exact Hafter1| |exact Hres]; reflexivity.
  - destruct (pendingPoint st).
    + eapply Hsave; [exact Hafter2| |exact Hres]; reflexivity.
    + injection Hres as <-. done.
  - destruct (pendingPoint st).
    + eapply Hsave; [exact Hafter2| |exact Hres]; reflexivity.
    + injection Hres as <-. done.
  - destruct (pendingPoint st).
    + eapply Hsave; [exact Hafter2| |exact Hres]; reflexivity.
    + injection Hres as <-. done.
  - eapply Hsave; [exact Hafter1| |exact Hres]; reflexivity.
  - eapply Hsave; [exact Hafter1| |exact Hres]; reflexivity.
Qed.

Lemma click_rejected_keeps_ui_witness : withStore sampleUi sampleStore = sampleUi.
Proof.
  apply (click_rejected_keeps_ui (λ _, ApiError) (Some sampleChart) [] I5m 5 5 sampleUi).
  vm_compute. reflexivity.
Defined.

Lemma click_adds_one_drawing_witness :
  let st' := uiOf (onCanvasClick echoPost (Some sampleChart) [] I5m 5 5 sampleUi) in
  ∃ d, drawings (store st') = drawings (store sampleUi) ++ [d] ∧
       type d = hline ∧ length (points d) = pointCount hline ∧
       selectedDrawingId (store st') = Some (drawing_id d) ∧
       tool st' = ToolNone.
Proof.
  apply (click_adds_one_drawing echoPost (Some sampleChart) [] I5m 5 5 sampleUi).
  - intros body d [= <-]. done.
  - reflexivity.
  - vm_compute. reflexivity.
  - intros H. apply (f_equal length) in H. vm_compute in H. discriminate.
Defined.

Lemma find_filter_other (id sel : Z) (ds : list Drawing) :
  sel ≠ id →
  List.find (λ d, drawing_id d =? sel) (filter (λ d, drawing_id d ≠ id) ds)
  = List.find (λ d, drawing_id d =? sel) ds.
Proof.
  intros Hne. induction ds as [|d ds IH]; [done|].
  destruct (decide (drawing_id d = id)) as [E|E].
  - rewrite filter_cons_False by (intros H; by apply H). cbn [List.find].
    rewrite (proj2 (Z.eqb_neq _ _)) by lia. exact IH.
  - rewrite filter_cons_True by done. cbn [List.find]. by rewrite IH.
Qed.

(** X21: once the server confirmed a delete, no drawing with that id is left,
    every other drawing stays, in order, and the selection is dropped when it
    was on the deleted drawing and otherwise still names the same drawing. *)
Theorem delete_confirmed api_delete id st u :
  api_delete id = ApiOk u →
  ∃ st', onDeleteDrawing api_delete id st = Completed st' ∧
         drawings st' = filter (λ d, drawing_id d ≠ id) (drawings st) ∧
         (∀ d, d ∈ drawings st' ↔ d ∈ drawings st ∧ drawing_id d ≠ id) ∧
         selectedDrawingId st' ≠ Some id ∧
         selectedDrawing st' =
           (if bool_decide (selectedDrawingId st = Some id) then None else selectedDrawing st).
Proof.
  intros Hok. unfold onDeleteDrawing. rewrite Hok. eexists. split; [reflexivity|].
  cbn [drawings selectedDrawingId]. split; [done|]. split.
  { intros d. rewrite list_elem_of_filter. tauto. }
  unfold selectedDrawing. cbn [drawings selectedDrawingId].
  destruct (selectedDrawingId st) as [prev|]; [|by rewrite bool_decide_eq_false_2].
  destruct (prev =? id) eqn:E.
  - apply Z.eqb_eq in E as ->. by rewrite bool_decide_eq_true_2.
  - apply Z.eqb_neq in E. split; [congruence|].
    rewrite bool_decide_eq_false_2 by congruence. by apply find_filter_other.
Qed.

Lemma delete_confirmed_witness :
  ∃ st', onDeleteDrawing (λ _, ApiOk ()) 7 sampleStore = Completed st' ∧
         drawings st' = filter (λ d, drawing_id d ≠ 7) (drawings sampleStore) ∧
         (∀ d, d ∈ drawings st' ↔ d ∈ drawings sampleStore ∧ drawing_id d ≠ 7) ∧
         selectedDrawingId st' ≠ Some 7 ∧
         selectedDrawing st' =
           (if bool_decide (selectedDrawingId sampleStore = Some 7) then None
            else selectedDrawing sampleStore).
Proof. apply (delete_confirmed (λ _, ApiOk ()) 7 sampleStore ()). reflexivity. Defined.

(** X22: a style patch changes nothing but styles: ids, types, points and the
    selection stay; drawings other than the selected one keep their style; the
    selected one gets the value of the patch under every key the patch names
    and keeps its own value under every other key. *)
Theorem style_patch_frame api_put_style patch st selected :
  selectedDrawing st = Some selected →
  let st' := storeOf (updateSelectedDrawingStyle api_put_style patch st) in
  selectedDrawingId st' = selectedDrawingId st ∧
  Forall2 (λ d d',
      drawing_id d' = drawing_id d ∧ type d' = type d ∧ points d' = points d ∧
      drawing_symbol d' = drawing_symbol d ∧
      ∀ k, style d' !! k =
           if drawing_id d =? drawing_id selected
           then match patch !! k with Some v => Some v | None => style selected !! k end
           else style d !! k)
    (drawings st) (drawings st').
Proof.
  intros Hsel st'. subst st'. unfold updateSelectedDrawingStyle. rewrite Hsel.
  set (upd := map _ (drawings st)).
  assert (Hst : storeOf
    match api_put_style (drawing_id selected) (patch ∪ style selected) with
    | ApiOk _ => Completed {| drawings := upd; selectedDrawingId := selectedDrawingId st |}
    | ApiError => Rejected {| drawings := upd; selectedDrawingId := selectedDrawingId st |}
    end = {| drawings := upd; selectedDrawingId := selectedDrawingId st |}).
  { by destruct (api_put_style _ _). }
  rewrite Hst. cbn [drawings selectedDrawingId]. split; [done|].
  subst upd. clear Hst. induction (drawings st) as [|d ds IH]; [constructor|].
  cbn [map]. constructor; [|exact IH].
  destruct (drawing_id d =? drawing_id selected); cbn; repeat split; try done.
  intros k. rewrite lookup_union. by destruct (patch !! k), (style selected !! k).
Qed.

Lemma style_patch_frame_witness :
  let st' := storeOf (updateSelectedDrawingStyle (λ _ _, ApiError)
                        {[ "color" := SString "#ff0000" ]} sampleStore) in
  selectedDrawingId st' = selectedDrawingId sampleStore ∧
  Forall2 (λ d d',
      drawing_id d' = drawing_id d ∧ type d' = type d ∧ points d' = points d ∧
      drawing_symbol d' = drawing_symbol d ∧
      ∀ k, style d' !! k =
           if drawing_id d =? drawing_id samplePosition
           then match ({[ "color" := SString "#ff0000" ]} : Style) !! k with
                | Some v => Some v | None => style samplePosition !! k end
           else style d !! k)
    (drawings sampleStore) (drawings st').
Proof.
  apply (style_patch_frame (λ _ _, ApiError) {[ "color" := SString "#ff0000" ]}
           sampleStore samplePosition).
  reflexivity.
Defined.

(** *** The backend endpoints *)

#[local] Instance byOpenTime_total : Total byOpenTime.
Proof. intros a b. unfold byOpenTime. lia. Qed.

#[local] Instance byOpenTime_trans : Transitive byOpenTime.
Proof. intros a b c. unfold byOpenTime. lia. Qed.

Lemma StronglySorted_strict_by {A} (f : A → Z) (l : list A) :
  StronglySorted (λ a b, f a ≤ f b) l → NoDup (map f l) →
  StronglySorted (λ a b, f a < f b) l.
Proof.
  induction 1 as [|r rs Hs IH Hall]; intros Hnd; constructor.
  - apply IH. by apply NoDup_cons in Hnd as [_ ?].
  - apply NoDup_cons in Hnd as [Hr _].
    apply Forall_forall. intros x Hx.
    rewrite Forall_forall in Hall. specialize (Hall x Hx). cbn in Hall.
    assert (f r ≠ f x).
    { intros E. apply Hr. rewrite E. by apply list_elem_of_fmap_2. }
    lia.
Qed.

Lemma filter_same_key_NoDup (tbl : CandleTable) sym iv (P : Candle → Prop)
    `{∀ c, Decision (P c)} :
  (∀ c, P c → symbol c = sym ∧ interval c = iv) →
  NoDup (map candleKey tbl) → NoDup (map openTime (filter P tbl)).
Proof.
  intros HP Hnd.
  assert (Hsub : NoDup (map candleKey (filter P tbl))).
  { eapply sublist_NoDup; [exact Hnd|]. apply (fmap_sublist candleKey), sublist_filter. }
  assert (Heq : map candleKey (filter P tbl)
                = map (λ t, (sym, iv, t)) (map openTime (filter P tbl))).
  { rewrite map_map. apply map_ext_in. intros c Hc.
    apply list_elem_of_In, list_elem_of_filter in Hc as [Hc _].
    destruct (HP c Hc) as [<- <-]. done. }
  rewrite Heq in Hsub. by apply NoDup_fmap_1 in Hsub.
Qed.

(** X23: the candle listing answers nothing for an interval outside the
    enumeration; otherwise it lists exactly the stored candles of the symbol
    and interval whose open time lies in the window, in ascending order of
    open time, and in strictly ascending order when the table holds one row
    per key. *)
Theorem getCandles_listing nowTs symbolParam iv fromParam toParam tbl :
  getCandles nowTs symbolParam None fromParam toParam tbl = None ∧
  ∃ cs, getCandles nowTs symbolParam (Some iv) fromParam toParam tbl = Some cs ∧
    (∀ c, c ∈ cs ↔
          c ∈ tbl ∧ symbol c = default "BTCUSDT" (truthy symbolParam) ∧ interval c = iv ∧
          default 0 fromParam ≤ openTime c ≤ default nowTs toParam) ∧
    StronglySorted byOpenTime cs ∧
    (NoDup (map candleKey tbl) → ascending cs).
Proof.
  split; [done|]. unfold getCandles. eexists. split; [reflexivity|].
  set (P := λ c : Candle, symbol c = default "BTCUSDT" (truthy symbolParam) ∧ interval c = iv ∧
                          default 0 fromParam ≤ openTime c ∧ openTime c ≤ default nowTs toParam).
  pose proof (merge_sort_Permutation byOpenTime (filter P tbl)) as Hperm.
  split; [|split].
  - intros c. rewrite Hperm, list_elem_of_filter. unfold P. tauto.
  - apply StronglySorted_merge_sort; apply _.
  - intros Hnd. apply (StronglySorted_strict_by openTime).
    + apply (StronglySorted_merge_sort byOpenTime).
    + rewrite Hperm.
      apply (filter_same_key_NoDup tbl (default "BTCUSDT" (truthy symbolParam)) iv P); [|done].
      unfold P. tauto.
Qed.

(** *** The drawings endpoints *)

Lemma putDrawing_ids nowTs id fields tbl res tbl' :
  putDrawing nowTs id fields tbl = (res, tbl') →
  map drawing_id tbl' = map drawing_id tbl ∧ map created_at tbl' = map created_at tbl.
Proof.
  unfold putDrawing. destruct (negb (patchValid fields)); [by intros [= _ <-]|].
  destruct (noSets fields); [by intros [= _ <-]|].
  destruct (List.find _ _); intros [= _ <-]; [|done].
  rewrite !map_map. split; apply map_ext; intros x; by destruct (_ =? id).
Qed.

Lemma applyOp_ok db op : dbOk db → dbOk (applyOp db op).
Proof.
  intros (Hnd & Hpos & Hlt). destruct op as [nowTs req|nowTs id fields|id]; cbn [applyOp].
  - unfold postDrawing. destruct (req_points req) as [|p ps]; [done|]. cbn [snd].
    split; [|split]; cbn [rows nextId]; [|lia|].
    + rewrite map_app. apply NoDup_app. split; [done|]. split; [|apply NoDup_singleton].
      intros k Hk Hk'. apply list_elem_of_singleton in Hk'. subst k.
      apply list_elem_of_fmap in Hk as (d0 & Hd & Hin). specialize (Hlt d0 Hin). cbn in Hd. lia.
    + intros d0 Hd. apply elem_of_app in Hd as [Hd|Hd].
      * specialize (Hlt d0 Hd). lia.
      * apply list_elem_of_singleton in Hd as ->. cbn. lia.
  - unfold putDrawingDb.
    destruct (putDrawing nowTs id fields (rows db)) as [res rows'] eqn:E.
    destruct (putDrawing_ids _ _ _ _ _ _ E) as [Hids _]. unfold dbOk. cbn.
    split; [by rewrite Hids|]. split; [done|].
    intros d Hd.
    assert (Hin : drawing_id d ∈ map drawing_id (rows db)).
    { rewrite <- Hids. by apply list_elem_of_fmap_2. }
    apply list_elem_of_fmap in Hin as (d0 & -> & Hd0). by apply Hlt.
  - unfold deleteDrawing. destruct (_ =? 0)%nat; [done|]. cbn [snd rows nextId].
    split; [|split; [done|]].
    + eapply sublist_NoDup; [exact Hnd|]. apply (fmap_sublist drawing_id), sublist_filter.
    + intros d Hd. apply list_elem_of_filter in Hd as [_ Hd]. by apply Hlt.
Qed.

Lemma drawings_ids_unique_helper (ops : list DrawingsOp) :
  dbOk (fold_left applyOp ops emptyDb).
Proof.
  induction ops as [|op ops IH] using rev_ind.
  - split; [constructor|]. split; [done|]. intros d Hd. by apply elem_of_nil in Hd.
  - rewrite fold_left_app. by apply applyOp_ok.
Qed.

(** X24: whatever requests the drawings endpoints serve, starting from the
    empty table, no two stored drawings share an id, and every id is a
    positive number below the next value of the sequence. *)
Theorem drawings_ids_unique (ops : list DrawingsOp) :
  dbOk (fold_left applyOp ops emptyDb).
Proof. apply drawings_ids_unique_helper. Qed.

(** X25: a create is refused exactly when the body has no point, and then the
    table is untouched; an accepted create stores one more row, under an id no
    stored drawing has, with the type and points of the body, and the listing
    asked with the body's symbol contains it. *)
Theorem postDrawing_created nowTs req db :
  dbOk db →
  match postDrawing nowTs req db with
  | (Post400, db') => req_points req = [] ∧ db' = db
  | (Post201 row, db') =>
      req_points req ≠ [] ∧ rows db' = rows db ++ [row] ∧
      (drawing_id row ∉ map drawing_id (rows db)) ∧
      type row = req_type req ∧ points row = req_points req ∧
      (req_symbol req ≠ Some EmptyString → row ∈ getDrawings (req_symbol req) db')
  end.
Proof.
  intros (Hnd & Hpos & Hlt). unfold postDrawing.
  destruct (req_points req) as [|p ps] eqn:Hp; [done|].
  split; [done|]. split; [done|]. split; [|split; [done|split; [done|]]].
  - intros Hin. cbn in Hin. apply list_elem_of_fmap in Hin as (d & Hd & Hin).
    specialize (Hlt d Hin). lia.
  - intros Hsym. unfold getDrawings. rewrite merge_sort_Permutation.
    apply list_elem_of_filter. split.
    + cbn. destruct (req_symbol req) as [[|a s']|]; try done.
    + cbn [rows]. apply elem_of_app. right. by apply list_elem_of_singleton.
Qed.

Lemma postDrawing_created_witness :
  let req := {| req_symbol := None; req_type := hline;
                req_points := [ {| time := 0; price := 100 |} ]; req_style := None |} in
  match postDrawing 5 req emptyDb with
  | (Post400, db') => req_points req = [] ∧ db' = emptyDb
  | (Post201 row, db') =>
      req_points req ≠ [] ∧ rows db' = rows emptyDb ++ [row] ∧
      (drawing_id row ∉ map drawing_id (rows emptyDb)) ∧
      type row = req_type req ∧ points row = req_points req ∧
      (req_symbol req ≠ Some EmptyString → row ∈ getDrawings (req_symbol req) db')
  end.
Proof.
  apply (postDrawing_created 5 _ emptyDb). apply (drawings_ids_unique_helper []).
Defined.

Lemma rowOf_None tbl id : rowOf tbl id = None ↔ ∀ d, d ∈ tbl → drawing_id d ≠ id.
Proof.
  unfold rowOf. split.
  - intros H d Hd E. apply list_elem_of_In in Hd.
    pose proof (find_none _ _ H d Hd) as Hn. cbn in Hn. lia.
  - intros H. destruct (List.find _ tbl) as [d|] eqn:E; [|done].
    apply find_some in E as [Hin E]. apply list_elem_of_In in Hin.
    apply Z.eqb_eq in E. by destruct (H d Hin).
Qed.

(** X26: an update that is refused (400 for a body with an empty point list or
    nothing to set, 404 for an id no row has) leaves the table as it is; an
    accepted one answers with the row of that id, keeps every id and
    creation time in place, stamps the row with the update time and leaves
    the rows of other ids untouched. *)
Theorem putDrawing_frame nowTs id fields tbl :
  match putDrawing nowTs id fields tbl with
  | (Status400, tbl') => tbl' = tbl ∧ (patchValid fields = false ∨ noSets fields = true)
  | (Status404, tbl') => tbl' = tbl ∧ rowOf tbl id = None
  | (Status200 row, tbl') =>
      drawing_id row = id ∧ updated_at row = nowTs ∧ rowOf tbl' id = Some row ∧
      map drawing_id tbl' = map drawing_id tbl ∧
      map created_at tbl' = map created_at tbl ∧
      Forall2 (λ d d', drawing_id d ≠ id → d' = d) tbl tbl'
  end.
Proof.
  pose proof (putDrawing_ids nowTs id fields tbl) as Hids.
  unfold putDrawing in *. destruct (patchValid fields); cbn [negb]; [|by split; [|left]].
  destruct (noSets fields); [by split; [|right]|].
  rewrite (find_map_by_id id (applySets nowTs fields)) in * by done.
  destruct (List.find (λ d, drawing_id d =? id) tbl) as [old|] eqn:E;
    cbn [fmap option_fmap option_map] in *; [|done].
  destruct (Hids _ _ eq_refl) as [H1 H2].
  pose proof (find_some _ _ E) as [_ Hid]. apply Z.eqb_eq in Hid.
  split; [done|]. split; [done|]. split.
  { unfold rowOf. rewrite (find_map_by_id id (applySets nowTs fields)) by done.
    by rewrite E. }
  split; [done|]. split; [done|].
  clear. induction tbl as [|d ds IH]; constructor; [|exact IH].
  intros Hne. by rewrite (proj2 (Z.eqb_neq _ _) Hne).
Qed.

Lemma filter_id_nil tbl id :
  filter (λ d : Drawing, drawing_id d = id) tbl = [] ↔ rowOf tbl id = None.
Proof.
  rewrite rowOf_None. split.
  - intros H d Hd E. by apply (filter_nil_not_elem_of _ _ d H E).
  - intros H. induction tbl as [|d ds IH]; [done|].
    rewrite filter_cons_False by (apply H; left). apply IH.
    intros d' Hd'. apply H. by right.
Qed.

Lemma putDrawing_accepted nowTs id fields tbl row tbl' :
  putDrawing nowTs id fields tbl = (Status200 row, tbl') → is_Some (rowOf tbl id).
Proof.
  unfold putDrawing, rowOf. destruct (negb _); [done|]. destruct (noSets _); [done|].
  rewrite (find_map_by_id id (applySets nowTs fields)) by done.
  destruct (List.find _ tbl); [eauto|done].
Qed.

(** X27: a delete answers 404, and changes nothing, exactly when no row has the
    id; otherwise it answers 204 and removes the row, keeping all others:
    afterwards the id is gone, a second delete answers 404 and no update of
    that id is accepted. *)
Theorem deleteDrawing_gone id db :
  match deleteDrawing id db with
  | (Delete404, db') => db' = db ∧ rowOf (rows db) id = None
  | (Delete204, db') =>
      is_Some (rowOf (rows db) id) ∧ rowOf (rows db') id = None ∧
      (∀ d, d ∈ rows db' ↔ d ∈ rows db ∧ drawing_id d ≠ id) ∧
      nextId db' = nextId db ∧
      fst (deleteDrawing id db') = Delete404 ∧
      ∀ nowTs fields row, fst (putDrawingDb nowTs id fields db') ≠ Status200 row
  end.
Proof.
  unfold deleteDrawing.
  destruct (length (filter (λ d, drawing_id d = id) (rows db)) =? 0)%nat eqn:E.
  - apply Nat.eqb_eq, length_zero_iff_nil in E. split; [done|]. by apply filter_id_nil.
  - apply Nat.eqb_neq in E.
    set (rows' := filter (λ d, drawing_id d ≠ id) (rows db)).
    assert (Hgone : rowOf rows' id = None).
    { apply rowOf_None. intros d Hd. by apply list_elem_of_filter in Hd as [? _]. }
    cbn [rows nextId].
    split; [|split; [done|split; [|split; [done|split]]]].
    + destruct (rowOf (rows db) id) eqn:Er; [eauto|].
      apply filter_id_nil in Er. rewrite Er in E. done.
    + intros d. unfold rows'. rewrite list_elem_of_filter. tauto.
    + rewrite (proj2 (filter_id_nil rows' id) Hgone). done.
    + intros nowTs fields row. unfold putDrawingDb. cbn [rows nextId].
      destruct (putDrawing nowTs id fields rows') as [res tbl'] eqn:Ep. cbn [fst].
      intros ->. apply putDrawing_accepted in Ep. rewrite Hgone in Ep. by destruct Ep.
Qed.

(** *** What a sync run adds *)

Lemma upsert_batch_elem batch tbl c :
  c ∈ fold_left insertIgnore batch tbl → c ∈ tbl ∨ c ∈ batch.
Proof.
  revert tbl. induction batch as [|b batch IH]; intros tbl Hc; [by left|].
  cbn [fold_left] in Hc. apply IH in Hc as [Hc|Hc]; [|right; by right].
  unfold insertIgnore in Hc. case_bool_decide; [by left|].
  apply elem_of_app in Hc as [Hc|Hc]; [by left|].
  apply list_elem_of_singleton in Hc as ->. right. left.
Qed.

Lemma fetchKlines_stamped klines sym iv startTime endTime limit batch c :
  fetchKlines klines sym iv startTime endTime limit = Some batch →
  c ∈ batch → symbol c = sym ∧ interval c = iv.
Proof.
  unfold fetchKlines. destruct (klines _ _ _ _ _) as [rows|]; [|done].
  intros [= <-] Hc. apply list_elem_of_fmap in Hc as (row & -> & _). done.
Qed.

Lemma syncPage_rows klines now sym iv cursor inserted tbl :
  match syncPage klines now sym iv cursor inserted tbl with
  | Break _ _ tbl' | Next _ _ tbl' | Throw tbl' =>
      ∀ c, c ∈ tbl' → c ∈ tbl ∨
        ∃ batch, fetchKlines klines sym iv cursor now pageLimit = Some batch ∧ c ∈ batch
  end.
Proof.
  unfold syncPage. destruct (fetchKlines _ _ _ _ _ _) as [batch|] eqn:Hf; [|by left].
  destruct (last batch); [|by left].
  destruct (_ <? pageLimit); intros x Hx; apply upsert_batch_elem in Hx as [Hx|Hx]; eauto.
Qed.

Lemma syncLoop_rows klines now sym iv fuel : ∀ cursor inserted tbl r,
  syncLoop klines now sym iv fuel cursor inserted tbl = Some r →
  ∀ c, c ∈ tableOf r → c ∈ tbl ∨ (symbol c = sym ∧ interval c = iv).
Proof.
  induction fuel as [|fuel IH]; intros cursor inserted tbl r;
    cbn [syncLoop]; destruct (cursor <? now); try done.
  - intros [= <-] c Hc. by left.
  - pose proof (syncPage_rows klines now sym iv cursor inserted tbl) as Hp.
    assert (Hstep : ∀ (c : Candle) (tbl' : CandleTable), (∀ c, c ∈ tbl' → c ∈ tbl ∨
        ∃ batch, fetchKlines klines sym iv cursor now pageLimit = Some batch ∧ c ∈ batch) →
        c ∈ tbl' → c ∈ tbl ∨ (symbol c = sym ∧ interval c = iv)).
    { intros c tbl' H Hc. destruct (H c Hc) as [?|(batch & Hf & Hb)]; [by left|right].
      by eapply fetchKlines_stamped. }
    destruct (syncPage klines now sym iv cursor inserted tbl) as [c' i' t'|c' i' t'|t'].
    + intros [= <-] c Hc. by apply (Hstep c t').
    + intros Hr c Hc. destruct (IH _ _ _ _ Hr c Hc) as [Hc'|Hc']; [|by right].
      by apply (Hstep c t').
    + intros [= <-] c Hc. by apply (Hstep c t').
  - intros [= <-] c Hc. by left.
Qed.

(** X28: a sync run keeps one row per key, never touches or removes a stored
    row, and every row it adds carries the symbol and interval of the
    request. *)
Theorem sync_adds_requested_rows klines now sym iv fuel tbl r :
  NoDup (map candleKey tbl) →
  sync klines now sym iv fuel tbl = Some r →
  NoDup (map candleKey (tableOf r)) ∧
  tbl `prefix_of` tableOf r ∧
  ∀ c, c ∈ tableOf r → c ∈ tbl ∨ (symbol c = sym ∧ interval c = iv).
Proof.
  intros Hnd Hr. unfold sync in Hr.
  destruct (syncLoop_table _ _ _ _ _ _ _ _ _ Hr) as [H1 H2].
  split; [auto|]. split; [done|]. by eapply syncLoop_rows.
Qed.

Lemma sync_adds_requested_rows_witness :
  NoDup (map candleKey sampleTable) ∧
  [] `prefix_of` sampleTable ∧
  ∀ c, c ∈ sampleTable → c ∈ [] ∨ (symbol c = "BTCUSDT" ∧ interval c = I5m).
Proof.
  apply (sync_adds_requested_rows sampleKlines sampleNow "BTCUSDT" I5m 1 [] (SyncOk 3 sampleTable)).
  - constructor.
  - vm_compute. reflexivity.
Defined.

Lemma syncCursor_lower now sym iv tbl : now - twoYearsMs ≤ syncCursor now sym iv tbl.
Proof.
  unfold syncCursor, initialCursor. destruct (0 <? _); lia.
Qed.

Lemma syncLoop_recent klines now sym iv :
  honoursStart klines →
  ∀ fuel cursor inserted tbl r,
    syncLoop klines now sym iv fuel cursor inserted tbl = Some r →
    ∀ c, c ∈ tableOf r → c ∈ tbl ∨ cursor ≤ openTime c.
Proof.
  intros Hk. induction fuel as [|fuel IH]; intros cursor inserted tbl r;
    cbn [syncLoop]; destruct (cursor <? now); try done.
  - intros [= <-] c Hc. by left.
  - pose proof (syncPage_rows klines now sym iv cursor inserted tbl) as Hp.
    assert (Hstep : ∀ (c : Candle) (tbl' : CandleTable), (∀ c, c ∈ tbl' → c ∈ tbl ∨
        ∃ batch, fetchKlines klines sym iv cursor now pageLimit = Some batch ∧ c ∈ batch) →
        c ∈ tbl' → c ∈ tbl ∨ cursor ≤ openTime c).
    { intros c tbl' H Hc. destruct (H c Hc) as [?|(batch & Hf & Hb)]; [by left|right].
      pose proof (fetchKlines_honours _ _ _ _ _ _ _ Hk Hf) as Hall.
      rewrite Forall_forall in Hall. by apply Hall. }
    destruct (syncPage klines now sym iv cursor inserted tbl) as [c' i' t'|c' i' t'|t'] eqn:Es.
    + intros [= <-] c Hc. by apply (Hstep c t').
    + intros Hr c Hc. destruct (IH _ _ _ _ Hr c Hc) as [Hc'|Hc'].
      * by apply (Hstep c t').
      * right. apply syncPage_Next in Es as (batch & lastFetched & Hf & Hl & _ & -> & _ & _).
        pose proof (fetchKlines_honours _ _ _ _ _ _ _ Hk Hf) as Hall.
        rewrite Forall_forall in Hall.
        assert (cursor ≤ openTime lastFetched).
        { apply Hall. rewrite last_Some in Hl. destruct Hl as [l' ->].
          apply elem_of_app. right. by apply list_elem_of_singleton. }
        pose proof (INTERVAL_MS_pos iv). lia.
    + intros [= <-] c Hc. by apply (Hstep c t').
  - intros [= <-] c Hc. by left.
Qed.

(** X29: with an upstream that returns no row opening before the requested
    start, every row a sync run adds opens at or after the run's first
    cursor, and so no earlier than two years before the run. *)
Theorem sync_adds_recent_rows klines now sym iv fuel tbl r :
  honoursStart klines →
  sync klines now sym iv fuel tbl = Some r →
  ∀ c, c ∈ tableOf r → c ∈ tbl ∨
       (syncCursor now sym iv tbl ≤ openTime c ∧ now - twoYearsMs ≤ openTime c).
Proof.
  intros Hk Hr c Hc.
  destruct (syncLoop_recent klines now sym iv Hk _ _ _ _ _ Hr c Hc) as [?|Hle]; [by left|].
  right. split; [done|]. pose proof (syncCursor_lower now sym iv tbl). lia.
Qed.

Lemma sync_adds_recent_rows_witness :
  sync sampleKlines sampleNow "BTCUSDT" I5m 1 [] = Some (SyncOk 3 sampleTable) ∧
  ∀ c, c ∈ sampleTable → c ∈ [] ∨
       (syncCursor sampleNow "BTCUSDT" I5m [] ≤ openTime c ∧ sampleNow - twoYearsMs ≤ openTime c).
Proof.
  split; [vm_compute; reflexivity|].
  apply (sync_adds_recent_rows sampleKlines sampleNow "BTCUSDT" I5m 1 [] (SyncOk 3 sampleTable)).
  - apply sampleKlines_honoursStart.
  - vm_compute. reflexivity.
Defined.
